(** * Poppy I/O: capability matching, DataArray normalisation and the
      offer/result exchange, verified over a shallow embedding

    The development follows the TypeScript sources:
    - [common-impl.ts]  : [toCats], [parseOrigin], [arrayify], [performSend],
                          [performRecv];
    - [modal-service.ts]: [getRequest], [connectDirectly], [openRequest]
                          (service side);
    - [modal-request.ts]: [open] ([o]), the message handler, [onConnect] and
                          the cancel routine [x] (requester side).

    JavaScript values live in a store of objects addressed by location, so
    that object identity ([===] on references) can be stated.  Promises are
    settle-once cells; the event handlers of the sources are transition
    functions over the variables their closures capture.  Where the
    platform throws inside them (a call of what is no function, a
    [postMessage] of what cannot be cloned) the transition stops where the
    source does. *)

From stdpp Require Import gmap strings list.
From Stdlib Require Import ZArith Ascii.

Local Open Scope string_scope.
Local Open Scope list_scope.

(* ===================================================================== *)
(** ** JavaScript values and the object store                             *)
(* ===================================================================== *)

Module Js.

Abbreviation loc := nat (only parsing).

(** Primitive values and references.  Numbers are the integer-valued ones
    (the sources only compare lengths and pass payloads through). *)
Inductive value :=
| VUndefined
| VNull
| VBool (b : bool)
| VNum (n : Z)
| VStr (s : string)
| VRef (l : loc).

#[global] Instance value_eq_dec : EqDecision value.
Proof. solve_decision. Defined.

(** What a location holds: a plain object, an array with its elements,
    or a function.  All three carry named properties. *)
Inductive kind :=
| KObject
| KArray (elems : list value)
| KFunction.

Record obj := Obj { okind : kind; oprops : gmap string value }.

Abbreviation heap := (list obj) (only parsing).

Inductive jstype := TUndefined | TObject | TBoolean | TNumber | TString | TFunction.

#[global] Instance jstype_eq_dec : EqDecision jstype.
Proof. solve_decision. Defined.

(** [typeof v] *)
Definition typeof (h : heap) (v : value) : jstype :=
  match v with
  | VUndefined => TUndefined
  | VNull => TObject
  | VBool _ => TBoolean
  | VNum _ => TNumber
  | VStr _ => TString
  | VRef l =>
      match h !! l with
      | Some (Obj KFunction _) => TFunction
      | _ => TObject
      end
  end.

(** [!!v] *)
Definition truthy (v : value) : bool :=
  match v with
  | VUndefined | VNull => false
  | VBool b => b
  | VNum n => negb (n =? 0)%Z
  | VStr s => negb (bool_decide (s = ""))
  | VRef _ => true
  end.

(** [v === null || v === undefined] *)
Definition nullish (v : value) : bool :=
  match v with
  | VUndefined | VNull => true
  | _ => false
  end.

(** The elements of [v] when [Array.isArray(v)]. *)
Definition array_elems (h : heap) (v : value) : option (list value) :=
  match v with
  | VRef l =>
      match h !! l with
      | Some (Obj (KArray es) _) => Some es
      | _ => None
      end
  | _ => None
  end.

Definition isArray (h : heap) (v : value) : bool :=
  match array_elems h v with Some _ => true | None => false end.

(** [v.k] for a named property [k] of an object; [undefined] when absent. *)
Definition get_prop (h : heap) (v : value) (k : string) : value :=
  match v with
  | VRef l =>
      match h !! l with
      | Some o => default VUndefined (oprops o !! k)
      | None => VUndefined
      end
  | _ => VUndefined
  end.

(** [k in v] *)
Definition has_prop (h : heap) (v : value) (k : string) : bool :=
  match v with
  | VRef l =>
      match h !! l with
      | Some o => bool_decide (is_Some (oprops o !! k))
      | None => false
      end
  | _ => false
  end.

(** Allocation returns the next free location. *)
Definition alloc (h : heap) (o : obj) : loc * heap := (length h, h ++ [o]).

(** [ref.k = v] *)
Definition set_prop (h : heap) (l : loc) (k : string) (v : value) : heap :=
  alter (fun o => Obj (okind o) (<[k := v]> (oprops o))) l h.

(** [Array.isArray(v) ? v : [v]], read as the list to iterate. *)
Definition arrayOrSingleton (h : heap) (v : value) : list value :=
  match array_elems h v with
  | Some es => es
  | None => [v]
  end.

(** The values an object holds: its named properties and, for an array,
    its elements. *)
Definition contents (o : obj) : list value :=
  (map_to_list (oprops o)).*2
  ++ match okind o with KArray es => es | _ => [] end.

(** No function is reached from location [l] along at most [depth]
    further references. *)
Fixpoint noFunction (depth : nat) (h : heap) (l : loc) : bool :=
  match h !! l with
  | Some o =>
      match okind o with
      | KFunction => false
      | _ =>
          match depth with
          | O => true
          | S d =>
              forallb (fun v => match v with VRef l' => noFunction d h l' | _ => true end)
                      (contents o)
          end
      end
  | None => true
  end.

(** Whether the structured clone of [v] succeeds: [postMessage] throws a
    DataCloneError unless it does.  Primitive values are cloned; an
    object is cloned with what it holds, cycles included, unless a
    function is reached.  A path to a function that repeats no object
    passes through at most [length h] objects, hence the depth. *)
Definition cloneable (h : heap) (v : value) : bool :=
  match v with
  | VRef l => noFunction (length h) h l
  | _ => true
  end.

(** A heap [h'] extends [h] when every object of [h] is still there. *)
Definition extends (h h' : heap) : Prop := exists tl, h' = h ++ tl.

(** Every reference in [v] points into the store. *)
Definition bound (h : heap) (v : value) : Prop :=
  match v with
  | VRef l => (l < length h)%nat
  | _ => True
  end.

End Js.

Import Js.

(* ===================================================================== *)
(** ** Errors and promises                                                *)
(* ===================================================================== *)

(** The error identifiers thrown by the sources (the part of the URL after
    [https://purl.org/pio/e/]), and at the end the two exceptions of the
    platform that the sources run into: the TypeError of a call of what is
    no function, and the DataCloneError of [postMessage]. *)
Inductive error :=
| MatcherNotAnObject
| MatcherDoesNotHaveAcceptingXorOffering
| MatcherFormNotAString
| AlreadyOpened
| NoConnectPort
| OfferAlreadyPosted
| ResultAlreadyPosted
| AlreadyConnected
| InvalidConnectMessage
| NoMatchingConnector
| NothingToOpen
| PopupBlocked
| OverlayFunctionDidntReturnFunction
| MissingOrigin
| UnrecognizedMessage
| TypeError
| DataCloneError.

#[global] Instance error_eq_dec : EqDecision error.
Proof. solve_decision. Defined.

(** Outcome of code that may throw. *)
Inductive result (A : Type) :=
| Ok (a : A)
| Throw (e : error).
Arguments Ok {A} a.
Arguments Throw {A} e.

#[global] Instance result_ret : MRet result := @Ok.
#[global] Instance result_bind : MBind result :=
  fun A B f r => match r with Ok a => f a | Throw e => Throw e end.

(** What a promise is rejected with: one of the library's errors, or a
    value supplied by the caller. *)
Inductive reason :=
| RError (e : error)
| RValue (v : value).

(** [if (reason)] *)
Definition reason_truthy (r : reason) : bool :=
  match r with
  | RError _ => true
  | RValue v => truthy v
  end.

(** A promise is pending until its first settlement. *)
Inductive promise (A : Type) :=
| Pending
| Resolved (a : A)
| Rejected (r : reason).
Arguments Pending {A}.
Arguments Resolved {A} a.
Arguments Rejected {A} r.

(** Calling [resolve] or [reject] of an already settled promise does nothing. *)
Definition settle {A} (p : promise A) (outcome : promise A) : promise A :=
  match p with
  | Pending => outcome
  | _ => p
  end.

(* ===================================================================== *)
(** ** common-impl.ts                                                     *)
(* ===================================================================== *)

Module CommonImpl.

Inductive side := accepting | offering.

#[global] Instance side_eq_dec : EqDecision side.
Proof. solve_decision. Defined.

(** The [connect] closure chosen by [toCats]. *)
Inductive connector :=
| Connecting (fn this : value)   (* matcher.connecting.bind(matcher) *)
| PerformRecv (matcher : value)
| PerformSend (matcher : value).

Record Cat := mkCat {
  cat_side : side;
  cat_form : string;
  cat_having : value;
  cat_connect : connector
}.

Record PeerIntent := mkPeer {
  peer_origin : string;
  peer_side : side;
  peer_form : string;
  peer_having : value
}.

(** [matcher.having || {}] *)
Definition havingOrEmpty (h : heap) (matcher : value) : value * heap :=
  let hv := get_prop h matcher "having" in
  if truthy hv then (hv, h)
  else let '(l, h') := alloc h (Obj KObject ∅) in (VRef l, h').

(** The inner loop of [toCats]: one Cat pushed per form. *)
Fixpoint pushForms (sd : side) (matcher : value) (connect : connector)
    (forms : list value) (cats : list Cat) (h : heap) : result (list Cat * heap) :=
  match forms with
  | [] => Ok (cats, h)
  | form :: rest =>
      match form with
      | VStr s =>
          let '(hv, h') := havingOrEmpty h matcher in
          pushForms sd matcher connect rest (cats ++ [mkCat sd s hv connect]) h'
      | _ => Throw MatcherFormNotAString
      end
  end.

(** The choice of [connect] for one matcher. *)
Definition connectorOf (h : heap) (matcher : value) : connector :=
  if has_prop h matcher "connecting"
     && bool_decide (typeof h (get_prop h matcher "connecting") = TFunction)
  then Connecting (get_prop h matcher "connecting") matcher
  else if truthy (get_prop h matcher "accepting") then PerformRecv matcher
  else PerformSend matcher.

(** The outer loop of [toCats]. *)
Fixpoint toCatsLoop (matchers : list value) (cats : list Cat) (h : heap)
    : result (list Cat * heap) :=
  match matchers with
  | [] => Ok (cats, h)
  | matcher :: rest =>
      if negb (truthy matcher) || negb (bool_decide (typeof h matcher = TObject))
      then Throw MatcherNotAnObject
      else
        let acc := get_prop h matcher "accepting" in
        let off := get_prop h matcher "offering" in
        if Bool.eqb (truthy acc) (truthy off)
        then Throw MatcherDoesNotHaveAcceptingXorOffering
        else
          let sd := if truthy acc then accepting else offering in
          let connect := connectorOf h matcher in
          let formOrForms := if truthy acc then acc else off in
          '(cats', h') ← pushForms sd matcher connect
                            (arrayOrSingleton h formOrForms) cats h;
          toCatsLoop rest cats' h'
  end.

Definition toCats (matching : value) (h : heap) : result (list Cat * heap) :=
  toCatsLoop (arrayOrSingleton h matching) [] h.

(** [[].concat(data === null || data === undefined ? [] : data)]:
    an array argument is spread, anything else is appended. *)
Definition concatInto (h : heap) (data : value) : list value :=
  if nullish data then [] else arrayOrSingleton h data.

Definition arrayify (data : value) (h : heap) : value * heap :=
  let '(l, h') := alloc h (Obj (KArray (concatInto h data)) ∅) in
  (VRef l, set_prop h' l "raw" data).

End CommonImpl.

Import CommonImpl.

(* ===================================================================== *)
(** ** Match results, ports and messages                                  *)
(* ===================================================================== *)

(** [MatchResult<T>]: [{ matched: null }] or [{ matched: peer, value }]. *)
Inductive MatchResult :=
| NotMatched
| Matched (peer : PeerIntent) (v : value).

Abbreviation port := nat (only parsing).

(** A message as given to [port.postMessage]: payload and transfer list. *)
Definition message : Type := value * list port.

(** [port.postMessage(data, transfer)] throws a DataCloneError when [data]
    cannot be cloned or when [transfer] lists an object twice.  (Whether a
    listed object has been transferred before is not tracked: the ports
    handed over are taken to be the caller's own.) *)
Definition postable (h : heap) (data : value) (transfer : list port) : bool :=
  cloneable h data && bool_decide (NoDup transfer).

(* ===================================================================== *)
(** ** The messages of the handshake                                      *)
(* ===================================================================== *)

Module Wire.

Definition sideName (s : side) : string :=
  match s with
  | accepting => "accepting"
  | offering => "offering"
  end.

Definition ClientMessage : string := "https://purl.org/pio/a/ClientMessage".
Definition ServiceMessage : string := "https://purl.org/pio/a/ServiceMessage".

(** [cats.map(({ side, having, form }) => ({ side, having, form }))] *)
Fixpoint catEntries (cats : list Cat) (h : heap) : list value * heap :=
  match cats with
  | [] => ([], h)
  | cat :: rest =>
      let '(l, h1) :=
        alloc h (Obj KObject
                   (<["side" := VStr (sideName (cat_side cat))]>
                      (<["having" := cat_having cat]>
                         (<["form" := VStr (cat_form cat)]> ∅)))) in
      let '(entries, h2) := catEntries rest h1 in
      (VRef l :: entries, h2)
  end.

(** [{ 'https://purl.org/pio/a/ClientMessage': ['request', entries] }] *)
Definition requestMessage (cats : list Cat) (h : heap) : value * heap :=
  let '(entries, h1) := catEntries cats h in
  let '(la, h2) := alloc h1 (Obj (KArray entries) ∅) in
  let '(lb, h3) := alloc h2 (Obj (KArray [VStr "request"; VRef la]) ∅) in
  let '(lm, h4) := alloc h3 (Obj KObject {[ClientMessage := VRef lb]}) in
  (VRef lm, h4).

(** [['connect', side, form, having]] *)
Definition connectMessage (sd : side) (form : string) (having : value) (h : heap)
    : value * heap :=
  let '(l, h') :=
    alloc h (Obj (KArray [VStr "connect"; VStr (sideName sd); VStr form; having]) ∅) in
  (VRef l, h').

End Wire.

(* ===================================================================== *)
(** ** modal-service.ts: [openRequest]                                    *)
(* ===================================================================== *)

Module ModalService.

(** The static fields of [State] that [openRequest] reads and writes.
    [openRequest] is only reachable as the [open] field of the captured
    request, so the captured peer list is always there when it runs. *)
Record State := mkState {
  matching : list PeerIntent;      (* State.request.matching *)
  connectPort : option port;       (* State.connectPort *)
  opened : bool                    (* State.opened *)
}.

(** [cat.side === 'accepting' ? 'offering' : 'accepting'] *)
Definition oppositeSide (s : side) : side :=
  match s with
  | accepting => offering
  | offering => accepting
  end.

(** The two variables [peer] and [matchingCat] of [openRequest]. *)
Definition found : Type := option PeerIntent * option Cat.

(** Body of the inner [for]: an eligible option overwrites both variables. *)
Definition visit (cat : Cat) (acc : found) (peerOption : PeerIntent) : found :=
  if bool_decide (peer_side peerOption = oppositeSide (cat_side cat))
     && bool_decide (peer_form peerOption = cat_form cat)
  then (Some peerOption, Some cat)
  else acc.

Definition scanPeers (peers : list PeerIntent) (acc : found) (cat : Cat) : found :=
  fold_left (visit cat) peers acc.

Definition scanCats (cats : list Cat) (peers : list PeerIntent) : found :=
  fold_left (scanPeers peers) cats (None, None).

(** [if (!peer || !matchingCat)] decides between no match and a match. *)
Definition matchOf (f : found) : option (Cat * PeerIntent) :=
  match f with
  | (Some peer, Some matchingCat) => Some (matchingCat, peer)
  | _ => None
  end.

(** What [openRequest] hands back: the state of the promise it returns at
    the moment it returns, and the connect message it posted, if any (in
    which case the promise follows the matched Cat's [connect]).  The two
    ports of the connect message are those of two new channels; the
    message itself may be one that cannot be cloned. *)
Record Opening := mkOpening {
  returned : promise MatchResult;
  connectPosted : option (Cat * PeerIntent)
}.

Definition openRequest (intents : value) (st : State) (h : heap)
    : Opening * State * heap :=
  if opened st then
    (mkOpening (Rejected (RError AlreadyOpened)) None, st, h)
  else
    let st := mkState (matching st) (connectPort st) true in
    match toCats intents h with
    | Throw e => (mkOpening (Rejected (RError e)) None, st, h)
    | Ok (cats, h') =>
        match matchOf (scanCats cats (matching st)) with
        | None => (mkOpening (Resolved NotMatched) None, st, h')
        | Some (matchingCat, peer) =>
            match connectPort st with
            | None => (mkOpening (Rejected (RError NoConnectPort)) None, st, h')
            | Some _ =>
                let '(msg, h'') :=
                  Wire.connectMessage (cat_side matchingCat) (cat_form matchingCat)
                                      (cat_having matchingCat) h' in
                if cloneable h'' msg
                then (mkOpening Pending (Some (matchingCat, peer)), st, h'')
                else (mkOpening (Rejected (RError DataCloneError)) None, st, h'')
            end
        end
    end.

(** Successive calls of [request.open]: the promises returned, in order. *)
Fixpoint openAll (calls : list value) (st : State) (h : heap)
    : list (promise MatchResult) :=
  match calls with
  | [] => []
  | intents :: rest =>
      let '(o, st', h') := openRequest intents st h in
      returned o :: openAll rest st' h'
  end.

End ModalService.

(* ===================================================================== *)
(** ** modal-request.ts                                                   *)
(* ===================================================================== *)

Module ModalRequest.

Inductive lifecycle := created | open | complete.

#[global] Instance lifecycle_eq_dec : EqDecision lifecycle.
Proof. solve_decision. Defined.

(** What the variable [closeOverlay] holds: nothing (or a falsy value); a
    function, which when called returns or throws (the library's own
    returns; the one that [request.overlay(request)] returned is the
    page's); or a truthy value that is no function (what
    [request.overlay(request)] returned, kept before the type test). *)
Inductive overlay :=
| OverlayUnset
| OverlayFunction (throws : option reason)
| OverlayNotAFunction.

(** [closeOverlay()]: what the call throws, if it throws. *)
Definition closeOverlayThrows (o : overlay) : option reason :=
  match o with
  | OverlayUnset => None
  | OverlayFunction throws => throws
  | OverlayNotAFunction => Some (RError TypeError)
  end.

(** The variables captured by the closures of [createZImpl], with the
    transport resources reduced to what [x] does to them. *)
Record ZImpl := mkZ {
  state : lifecycle;
  openPromise : promise MatchResult;
  closingResolved : bool;              (* resolveClosing() has been called *)
  cats : list Cat;
  exchangePort : option port;
  statusPort : option port;
  connected : option (Cat * PeerIntent);  (* the connect call in flight *)
  isCurrent : bool;                    (* ModalRequest.current === request *)
  proxy : bool;                        (* proxy is set and the iframe is in the
                                          document, so that it has its
                                          contentWindow; only [x] removes it *)
  pioc : bool;                         (* installInlineEventHandlers has run on
                                          the proxy window: it has [pioc] *)
  closeOverlay : overlay;
  overlayShown : bool;                 (* the overlay is up: closeOverlay is a
                                          function that has not been called *)
  unloadListener : bool;               (* the unload listener is registered *)
  closedPorts : list port;             (* ports on which close() was called *)
  doneSent : list port                 (* ports ['done'] was posted on *)
}.

Definition createZImpl : ZImpl :=
  mkZ created Pending false [] None None None false false false OverlayUnset
      false false [] [].

(** The loop of [onConnect]: later eligible Cats overwrite [matchedCat]. *)
Definition pick (sd : side) (form : string) (matchedCat : option Cat) (cat : Cat)
    : option Cat :=
  if bool_decide (cat_side cat = sd) then matchedCat          (* continue *)
  else if negb (bool_decide (cat_form cat = form)) then matchedCat  (* continue *)
  else Some cat.

Definition matchCat (cats : list Cat) (sd : side) (form : string) : option Cat :=
  fold_left (pick sd form) cats None.

(** Validation of the connect message [['connect', side, form, having]]. *)
Definition parseSide (v : value) : option side :=
  match v with
  | VStr "accepting" => Some accepting
  | VStr "offering" => Some offering
  | _ => None
  end.

Definition parseConnect (h : heap) (origin : string) (data : value)
    (ports : list port) : result (PeerIntent * port * port) :=
  match array_elems h data with
  | None => Throw InvalidConnectMessage
  | Some elems =>
      if negb (bool_decide (default VUndefined (elems !! 0%nat) = VStr "connect"))
      then Throw InvalidConnectMessage
      else
        match ports with
        | [p0; p1] =>
            let sd := default VUndefined (elems !! 1%nat) in
            let form := default VUndefined (elems !! 2%nat) in
            let having := default VUndefined (elems !! 3%nat) in
            match parseSide sd, form with
            | Some sd, VStr form =>
                if bool_decide (typeof h having = TObject)
                then Ok (mkPeer origin sd form having, p0, p1)
                else Throw InvalidConnectMessage
            | _, _ => Throw InvalidConnectMessage
            end
        | _ => Throw InvalidConnectMessage
        end
  end.

Definition onConnect (h : heap) (origin : string) (data : value)
    (ports : list port) (z : ZImpl) : result ZImpl :=
  match exchangePort z with
  | Some _ => Throw AlreadyConnected
  | None =>
      '(peer, p0, p1) ← parseConnect h origin data ports;
      match matchCat (cats z) (peer_side peer) (peer_form peer) with
      | None => Throw NoMatchingConnector
      | Some matchedCat =>
          Ok (mkZ (state z) (openPromise z) (closingResolved z) (cats z)
                  (Some p0) (Some p1) (Some (matchedCat, peer))
                  (isCurrent z) (proxy z) (pioc z) (closeOverlay z)
                  (overlayShown z) (unloadListener z)
                  (closedPorts z) (doneSent z))
      end
  end.

(** [if (reason)]: an absent or falsy argument counts as no reason. *)
Definition givenReason (rejectWith : option reason) : option reason :=
  match rejectWith with
  | Some r => if reason_truthy r then Some r else None
  | None => None
  end.

(** What a call of [x] throws, if it throws: the TypeError of
    [proxy.contentWindow.pioc()] when the proxy window was never given its
    [pioc], or what [closeOverlay()] throws. *)
Definition xThrows (z : ZImpl) : option reason :=
  if bool_decide (state z = complete) then None
  else if proxy z && negb (pioc z) then Some (RError TypeError)
  else closeOverlayThrows (closeOverlay z).

(** [x(reason?)]: the cancel routine; the variables as the call leaves
    them, whether it returns or throws ([xThrows]). *)
Definition x (rejectWith : option reason) (z : ZImpl) : ZImpl :=
  if bool_decide (state z = complete) then z
  else if proxy z && negb (pioc z) then
    (* state = 'complete'; ModalRequest.current = undefined; pioc() throws *)
    mkZ complete (openPromise z) (closingResolved z) (cats z)
        (exchangePort z) (statusPort z) (connected z)
        false (proxy z) (pioc z) (closeOverlay z) (overlayShown z)
        (unloadListener z) (closedPorts z) (doneSent z)
  else
    let openPromise' :=
      match givenReason rejectWith with
      | Some r => settle (openPromise z) (Rejected r)            (* rejectOpen(reason) *)
      | None =>
          if bool_decide (exchangePort z = None)
          then settle (openPromise z) (Resolved NotMatched)      (* resolveOpen({ matched: null }) *)
          else openPromise z
      end in
    if bool_decide (is_Some (closeOverlayThrows (closeOverlay z))) then
      (* the proxy is removed, closing and open are settled; closeOverlay() throws *)
      mkZ complete openPromise' true (cats z)
          (exchangePort z) (statusPort z) (connected z)
          false false (pioc z) (closeOverlay z) (overlayShown z)
          (unloadListener z) (closedPorts z) (doneSent z)
    else
      mkZ complete openPromise' true (cats z)
          (exchangePort z) (statusPort z) (connected z)
          false false (pioc z) (closeOverlay z) false false
          (closedPorts z ++ option_list (exchangePort z) ++ option_list (statusPort z))
          (doneSent z ++ option_list (statusPort z)).

(** How [open] goes on once it is past the NothingToOpen test. *)
Inductive launched :=
| LaunchFailed (e : reason) (installed : bool)
    (* PopupBlocked, NothingToOpen, OverlayNotFound, ..., or what the DOM,
       the launcher or the overlay function threw: closeOverlay is
       untouched; [installed]: installInlineEventHandlers had run *)
| OverlayRejected (kept : bool)
    (* request.overlay(request) returned no function: closeOverlay keeps
       what it returned ([kept]: that value is truthy) and
       OverlayFunctionDidntReturnFunction is thrown *)
| Launched (withOverlay : option (option reason)).
    (* no error; [withOverlay]: closeOverlay is now a function, which
       throws this when it is called *)

(** How the DOM side of [open] turns out; the protocol does not look
    further into it. *)
Record Launch := mkLaunch {
  otherCancelThrew : option reason;
    (* what ModalRequest.current.cancel() threw, when another request was
       current and its cancel threw *)
  openEventCancelled : bool;   (* dispatch(proxy, 'Open', ...) returned false *)
  hasTarget : bool;            (* request.launcher || request.service *)
  outcome : launched
}.

(** [o(matching)]: returns the promise handed to the caller. *)
Definition o (matching : value) (env : Launch) (z : ZImpl) (h : heap)
    : promise MatchResult * ZImpl * heap :=
  if negb (bool_decide (state z = created)) then
    (Rejected (RError AlreadyOpened), z, h)
  else
    (* catch (e) { rejectOpen(e) } return openPromise *)
    let failed (r : reason) (z : ZImpl) (h : heap) :=
      let p := settle (openPromise z) (Rejected r) in
      (p,
       mkZ (state z) p (closingResolved z) (cats z) (exchangePort z) (statusPort z)
           (connected z) (isCurrent z) (proxy z) (pioc z) (closeOverlay z)
           (overlayShown z) (unloadListener z) (closedPorts z) (doneSent z),
       h) in
    (* state = 'open' *)
    let z0 :=
      mkZ open (openPromise z) (closingResolved z) (cats z) (exchangePort z)
          (statusPort z) (connected z) (isCurrent z) (proxy z) (pioc z)
          (closeOverlay z) (overlayShown z) (unloadListener z) (closedPorts z)
          (doneSent z) in
    (* if (ModalRequest.current) ModalRequest.current.cancel(): this very
       request, or another one *)
    let z1 := if isCurrent z0 then x None z0 else z0 in
    let threw :=
      if isCurrent z0
      then xThrows z0
      else otherCancelThrew env in
    match threw with
    | Some r => failed r z1 h
    | None =>
        (* ModalRequest.current = request *)
        let z2 :=
          mkZ (state z1) (openPromise z1) (closingResolved z1) (cats z1)
              (exchangePort z1) (statusPort z1) (connected z1) true (proxy z1)
              (pioc z1) (closeOverlay z1) (overlayShown z1) (unloadListener z1)
              (closedPorts z1) (doneSent z1) in
        match toCats matching h with
        | Throw e => failed (RError e) z2 h
        | Ok (cs, h') =>
            (* cats; a new proxy, whose window has no pioc yet; the unload
               listener; the Connect and Close listeners *)
            let opening pc co ov :=
              mkZ (state z2) (openPromise z2) (closingResolved z2) cs
                  (exchangePort z2) (statusPort z2) (connected z2) true true
                  pc co ov true (closedPorts z2) (doneSent z2) in
            let z3 := opening false (closeOverlay z2) (overlayShown z2) in
            if openEventCancelled env then (openPromise z3, z3, h')
            else if negb (hasTarget env) then failed (RError NothingToOpen) z3 h'
            else
              (* installInlineEventHandlers, the popup, the launcher, the
                 overlay *)
              match outcome env with
              | LaunchFailed e installed =>
                  failed e (opening installed (closeOverlay z2) (overlayShown z2)) h'
              | OverlayRejected kept =>
                  failed (RError OverlayFunctionDidntReturnFunction)
                         (opening true
                            (if kept then OverlayNotAFunction else OverlayUnset)
                            (overlayShown z2)) h'
              | Launched withOverlay =>
                  let z4 :=
                    match withOverlay with
                    | Some throws => opening true (OverlayFunction throws) true
                    | None => opening true (closeOverlay z2) (overlayShown z2)
                    end in
                  (openPromise z4, z4, h')
              end
        end
    end.

(** What can happen to an opened session. *)
Inductive event :=
| Connect (origin : string) (data : value) (ports : list port)
    (* the 'Connect' event delivered to the proxy window *)
| ConnectFulfilled (v : value)     (* matchedCat.connect(...) resolved *)
| ConnectRejected (r : reason)     (* matchedCat.connect(...) rejected *)
| Close                            (* 'Close' event, popup gone, page unload,
                                      a click or Escape on the overlay *)
| Cancel (rejectWith : option reason).  (* request.cancel(rejectWith) *)

Definition step (h : heap) (z : ZImpl) (ev : event) : ZImpl :=
  match ev with
  | Connect origin data ports =>
      match onConnect h origin data ports z with
      | Ok z' => z'
      | Throw e => x (Some (RError e)) z       (* catch (e) { x(e) } *)
      end
  | ConnectFulfilled v =>
      match connected z, statusPort z with
      | Some (_, peer), Some sp =>
          mkZ (state z) (settle (openPromise z) (Resolved (Matched peer v)))
              (closingResolved z) (cats z) (exchangePort z) (statusPort z)
              (connected z) (isCurrent z) (proxy z) (pioc z) (closeOverlay z)
              (overlayShown z) (unloadListener z) (closedPorts z)
              (doneSent z ++ [sp])
      | _, _ => z
      end
  | ConnectRejected r => x (Some r) z
  | Close => x None z
  | Cancel rejectWith => x rejectWith z
  end.

Definition run (h : heap) (z : ZImpl) (evs : list event) : ZImpl :=
  fold_left (step h) evs z.

End ModalRequest.

(* ===================================================================== *)
(** ** The exchange: [performSend] and [performRecv] (common-impl.ts)     *)
(* ===================================================================== *)

Module Send.

(** One invocation of [postOffer]: its own [waitingForResult] binding
    ([None] while the [let] has not been executed) and the promise it
    returned. *)
Record call := mkCall {
  waitingForResult : option bool;
  offered : promise value
}.

(** The variables shared by the closures of one [performSend]. *)
Record t := mk {
  store : heap;
  offerPosted : bool;
  onmessage : option nat;     (* the call whose handler sits on port.onmessage *)
  calls : list call;          (* the postOffer invocations, in order *)
  closingFired : bool;
  closingThen : list nat;     (* calls that registered closing.then(...) *)
  posted : list message       (* what was posted on the port, in order *)
}.

Definition performSend (h : heap) : t := mk h false None [] false [] [].

(** [resolve(arrayify(data))] within call [n] *)
Definition resolveCall (n : nat) (data : value) (wfr : option bool -> option bool)
    (s : t) : t :=
  let '(arr, h') := arrayify data (store s) in
  mk h' (offerPosted s) (onmessage s)
     (alter (fun c => mkCall (wfr (waitingForResult c))
                             (settle (offered c) (Resolved arr))) n (calls s))
     (closingFired s) (closingThen s) (posted s).

(** [postOffer(data, transfer)] when the port takes the message. *)
Definition postOffer (data : value) (transfer : list port) (s : t) : t :=
  let n := length (calls s) in
  (* port.onmessage = ev => ... comes first *)
  if offerPosted s then
    mk (store s) true (Some n)
       (calls s ++ [mkCall None (Rejected (RError OfferAlreadyPosted))])
       (closingFired s) (closingThen s) (posted s)
  else
    let s' := mk (store s) true (Some n)
                 (calls s ++ [mkCall (Some true) Pending])
                 (closingFired s) (closingThen s ++ [n])
                 (posted s ++ [(data, transfer)]) in
    (* closing.then(...) on a promise that has resolved runs its callback *)
    if closingFired s then resolveCall n VUndefined id s' else s'.

(** [postOffer(data, transfer)] when [port.postMessage] throws (a
    DataCloneError): the promise is rejected with it; [offerPosted] is
    set, but the [let] of [waitingForResult] and the registration with
    [closing] are never reached.  After the offer the call does not get
    as far as [postMessage]. *)
Definition postOfferThrew (s : t) : t :=
  let n := length (calls s) in
  if offerPosted s then
    mk (store s) true (Some n)
       (calls s ++ [mkCall None (Rejected (RError OfferAlreadyPosted))])
       (closingFired s) (closingThen s) (posted s)
  else
    mk (store s) true (Some n)
       (calls s ++ [mkCall None (Rejected (RError DataCloneError))])
       (closingFired s) (closingThen s) (posted s).

(** The handler on [port.onmessage] receives [ev.data]. *)
Definition receive (data : value) (s : t) : t :=
  match onmessage s with
  | None => s
  | Some n =>
      match calls s !! n with
      | Some (mkCall (Some true) _) =>
          let s' := resolveCall n data (fun _ => Some false) s in
          mk (store s') (offerPosted s') (onmessage s') (calls s')
             (closingFired s') (closingThen s') (posted s' ++ [(VNull, [])])
      | Some (mkCall (Some false) _) => s
      | Some (mkCall None _) => s   (* the binding is read before its [let]: the handler throws *)
      | None => s
      end
  end.

(** The closing promise resolves: every registered callback runs. *)
Definition close (s : t) : t :=
  if closingFired s then s
  else
    fold_left (fun s n => resolveCall n VUndefined id s) (closingThen s)
      (mk (store s) (offerPosted s) (onmessage s) (calls s) true
          (closingThen s) (posted s)).

Inductive event :=
| PostOffer (data : value) (transfer : list port)
    (* a call of postOffer; the port takes the message *)
| PostOfferThrew
    (* a call of postOffer with a message that the port refuses *)
| Message (data : value)
| Closing.

Definition step (s : t) (ev : event) : t :=
  match ev with
  | PostOffer data transfer => postOffer data transfer s
  | PostOfferThrew => postOfferThrew s
  | Message data => receive data s
  | Closing => close s
  end.

Definition run (s : t) (evs : list event) : t := fold_left step evs s.

(** The promise returned by the [n]-th call of [postOffer]. *)
Definition promiseOf (s : t) (n : nat) : option (promise value) :=
  offered <$> calls s !! n.

End Send.

Module Recv.

(** The variables of one [performRecv]. *)
Record t := mk {
  store : heap;
  waitingForOffer : bool;
  waitingForCallback : bool;
  waitingForAck : bool;
  resolveValue : value;
  ports : option (list port);
  waitingForResult : bool;
  postResultPromise : promise bool;
  offerData : option value;        (* offer.data once the offer has arrived *)
  outcome : promise value;         (* the promise performRecv returns *)
  posted : list message;
  closedPorts : list port;
  closingFired : bool
}.

Definition performRecv (h : heap) : t :=
  let '(arr, h') := arrayify VUndefined h in
  mk h' true false true arr None true Pending None Pending [] [] false.

(** [postResult(data, transfer)]: the promise it returns, or the
    DataCloneError that [port.postMessage] throws (by then
    [waitingForResult] is cleared), and the new state. *)
Definition postResult (data : value) (transfer : list port) (s : t)
    : result (promise bool) * t :=
  if negb (waitingForResult s) then (Ok (Rejected (RError ResultAlreadyPosted)), s)
  else if postable (store s) data transfer then
    (Ok (postResultPromise s),
     mk (store s) (waitingForOffer s) (waitingForCallback s) (waitingForAck s)
        (resolveValue s) (ports s) false (postResultPromise s) (offerData s)
        (outcome s) (posted s ++ [(data, transfer)]) (closedPorts s)
        (closingFired s))
  else
    (Throw DataCloneError,
     mk (store s) (waitingForOffer s) (waitingForCallback s) (waitingForAck s)
        (resolveValue s) (ports s) false (postResultPromise s) (offerData s)
        (outcome s) (posted s) (closedPorts s) (closingFired s)).

(** [port.onmessage]: the offer first, the acknowledgment afterwards. *)
Definition receive (data : value) (evports : list port) (s : t) : t :=
  if waitingForOffer s then
    let '(arr, h') := arrayify data (store s) in
    mk h' false true (waitingForAck s) (resolveValue s) (Some evports)
       (waitingForResult s) (postResultPromise s) (Some arr) (outcome s)
       (posted s) (closedPorts s) (closingFired s)
  else if waitingForAck s then
    mk (store s) false (waitingForCallback s) false (resolveValue s) (ports s)
       (waitingForResult s) (settle (postResultPromise s) (Resolved true))
       (offerData s)
       (if waitingForCallback s then outcome s
        else settle (outcome s) (Resolved (resolveValue s)))
       (posted s ++ [(VNull, [])]) (closedPorts s) (closingFired s)
  else s.

(** The fulfilment handler of [callbackPromise]. *)
Definition callbackFulfilled (v : value) (s : t) : t :=
  let s1 := mk (store s) (waitingForOffer s) false (waitingForAck s) v (ports s)
               (waitingForResult s) (postResultPromise s) (offerData s)
               (outcome s) (posted s) (closedPorts s) (closingFired s) in
  if waitingForResult s1 then snd (postResult VNull [] s1)
  else if negb (waitingForAck s1) then
    mk (store s1) (waitingForOffer s1) (waitingForCallback s1) (waitingForAck s1)
       (resolveValue s1) (ports s1) (waitingForResult s1) (postResultPromise s1)
       (offerData s1) (settle (outcome s1) (Resolved (resolveValue s1)))
       (posted s1) (closedPorts s1) (closingFired s1)
  else s1.

(** The rejection handler of [callbackPromise]. *)
Definition callbackRejected (r : reason) (s : t) : t :=
  mk (store s) (waitingForOffer s) false (waitingForAck s) (resolveValue s)
     (ports s) (waitingForResult s) (postResultPromise s) (offerData s)
     (settle (outcome s) (Rejected r)) (posted s) (closedPorts s)
     (closingFired s).

(** The consumer throws inside the handler: [catch (e) { reject(e) }]. *)
Definition consumerThrew (r : reason) (s : t) : t :=
  mk (store s) (waitingForOffer s) (waitingForCallback s) (waitingForAck s)
     (resolveValue s) (ports s) (waitingForResult s) (postResultPromise s)
     (offerData s) (settle (outcome s) (Rejected r)) (posted s)
     (closedPorts s) (closingFired s).

(** The callback registered with [closing.then]. *)
Definition close (s : t) : t :=
  if closingFired s then s
  else
    mk (store s) (waitingForOffer s) (waitingForCallback s) false
       (resolveValue s) (ports s) (waitingForResult s)
       (settle (postResultPromise s) (Resolved false)) (offerData s)
       (if waitingForCallback s then outcome s
        else settle (outcome s) (Resolved (resolveValue s)))
       (posted s) (closedPorts s ++ default [] (ports s)) true.

Inductive event :=
| Message (data : value) (evports : list port)   (* port.onmessage *)
| PostResult (data : value) (transfer : list port)
    (* the consumer calls postResult (which may throw back at it) *)
| CallbackFulfilled (v : value)
| CallbackRejected (r : reason)
| ConsumerThrew (r : reason)
| Closing.

Definition step (s : t) (ev : event) : t :=
  match ev with
  | Message data evports => receive data evports s
  | PostResult data transfer => snd (postResult data transfer s)
  | CallbackFulfilled v => callbackFulfilled v s
  | CallbackRejected r => callbackRejected r s
  | ConsumerThrew r => consumerThrew r s
  | Closing => close s
  end.

Definition run (s : t) (evs : list event) : t := fold_left step evs s.

(** The consumer of a basic acceptor, once [replying] has given its value:
    [value => { postResult(value); return offer.data; }].  It posts the
    reply and settles with the offer data; when [postResult] throws, the
    consumer's promise is rejected with what it threw. *)
Definition basicConsumer (replying : value) (s : t) : list event :=
  match (postResult replying [] s).1 with
  | Ok _ =>
      [PostResult replying []; CallbackFulfilled (default VUndefined (offerData s))]
  | Throw e =>
      [PostResult replying []; CallbackRejected (RError e)]
  end.

End Recv.

(* ===================================================================== *)
(** ** common-impl.ts: [parseOrigin]                                      *)
(* ===================================================================== *)

Module Origin.

(** The class [[A-Za-z\+\.\-]] of the scheme. *)
Definition schemeChar (c : ascii) : bool :=
  let n := nat_of_ascii c in
  ((65 <=? n)%nat && (n <=? 90)%nat)
  || ((97 <=? n)%nat && (n <=? 122)%nat)
  || bool_decide (c = "+"%char)
  || bool_decide (c = "."%char)
  || bool_decide (c = "-"%char).

(** The class [[^/]] of the host. *)
Definition hostChar (c : ascii) : bool := negb (bool_decide (c = "/"%char)).

(** The longest prefix made of characters of a class, and what follows
    it: how a greedy [+] consumes its input. *)
Fixpoint span (p : ascii -> bool) (s : string) : string * string :=
  match s with
  | EmptyString => (EmptyString, EmptyString)
  | String c rest =>
      if p c then let '(a, b) := span p rest in (String c a, b)
      else (EmptyString, s)
  end.

(** The literal [\:\/\/]. *)
Definition afterSeparator (s : string) : option string :=
  match s with
  | String ":" (String "/" (String "/" rest)) => Some rest
  | _ => None
  end.

(** [url.match(/^[A-Za-z\+\.\-]+\:\/\/[^/]+/)], giving [match[0]].  No
    character of the scheme class is a colon and the host class is
    followed by nothing, so the only way to match takes the longest scheme
    and the longest host; backtracking finds no other. *)
Definition originMatch (url : string) : option string :=
  let '(scheme, rest) := span schemeChar url in
  if bool_decide (scheme = EmptyString) then None
  else
    match afterSeparator rest with
    | None => None
    | Some rest' =>
        let '(host, _) := span hostChar rest' in
        if bool_decide (host = EmptyString) then None
        else Some (scheme +:+ "://" +:+ host)
    end.

(** [parseOrigin(url)], without [relativeTo]. *)
Definition parseOriginOf (url : string) : string :=
  match originMatch url with
  | None => EmptyString
  | Some o => o
  end.

(** [parseOrigin(url, relativeTo)]; [None] is an absent [relativeTo]. *)
Definition parseOrigin (url : string) (relativeTo : option string) : string :=
  match originMatch url with
  | None =>
      match relativeTo with
      | Some r => if bool_decide (r = EmptyString) then EmptyString else parseOriginOf r
      | None => EmptyString
      end
  | Some o => o
  end.

End Origin.

(* ===================================================================== *)
(** ** modal-service.ts: [getRequest] and [connectDirectly]               *)
(* ===================================================================== *)

Module Listener.

(** One promise handed out by [getRequest]: whether its timer is still
    set, and its state.  It resolves with the request or with
    [undefined] ([None]). *)
Record caller := mkCaller {
  timerSet : bool;
  answer : promise (option (list PeerIntent))
}.

(** The static fields of [State] used by [getRequest], and the promises it
    has created. *)
Record t := mk {
  request : option (list PeerIntent);   (* State.request, by its matching list *)
  connectPort : option port;            (* State.connectPort *)
  waiting : option (gset nat);          (* State.waiting: the keys it holds *)
  lastWaitingKey : nat;                 (* State.lastWaitingKey || 0 *)
  callers : gmap nat caller;
  announced : nat                       (* ['get-request'] messages posted *)
}.

Definition init : t := mk None None None 0 ∅ 0.

(** [finish(req)] of the caller with key [k]: the timer is cleared if it is
    pending, the key leaves [State.waiting], the promise resolves. *)
Definition finish (req : option (list PeerIntent)) (k : nat) (s : t) : t :=
  mk (request s) (connectPort s)
     ((fun w => w ∖ {[k]}) <$> waiting s)
     (lastWaitingKey s)
     (alter (fun c => mkCaller false (settle (answer c) (Resolved req))) k (callers s))
     (announced s).

(** What [getRequest] returns: a promise already resolved, or the promise
    of a new caller. *)
Inductive returned :=
| Immediately (req : option (list PeerIntent))
| Later (key : nat).

(** [getRequest(timeout)]; [hasTop] is whether [top] is there. *)
Definition getRequest (hasTop : bool) (s : t) : returned * t :=
  match request s with
  | Some req => (Immediately (Some req), s)
  | None =>
      if negb hasTop then (Immediately None, s)
      else
        let s1 :=
          match waiting s with
          | None => mk (request s) (connectPort s) (Some ∅) (lastWaitingKey s)
                       (callers s) (S (announced s))
          | Some _ => s
          end in
        let waitingKey := S (lastWaitingKey s1) in
        (Later waitingKey,
         mk (request s1) (connectPort s1)
            ((fun w => w ∪ {[waitingKey]}) <$> waiting s1)
            waitingKey
            (<[waitingKey := mkCaller true Pending]> (callers s1))
            (announced s1))
  end.

(** The timer of caller [k] fires (it cannot once it has been cleared). *)
Definition timeout (k : nat) (s : t) : t :=
  match callers s !! k with
  | Some (mkCaller true _) => finish None k s
  | _ => s
  end.

(** The loop over [body[1]]: entries that are falsy, whose side is not one
    of the two names or whose form is not a string are skipped. *)
Fixpoint capturePeers (origin : string) (entries : list value)
    (matching : list PeerIntent) (h : heap) : list PeerIntent * heap :=
  match entries with
  | [] => (matching, h)
  | entry :: rest =>
      if negb (truthy entry) then capturePeers origin rest matching h
      else
        match ModalRequest.parseSide (get_prop h entry "side"),
              get_prop h entry "form" with
        | Some sd, VStr form =>
            let hv := get_prop h entry "having" in
            let '(having, h') :=
              if truthy hv && bool_decide (typeof h hv = TObject) then (hv, h)
              else let '(l, h') := alloc h (Obj KObject ∅) in (VRef l, h') in
            capturePeers origin rest (matching ++ [mkPeer origin sd form having]) h'
        | _, _ => capturePeers origin rest matching h
        end
  end.

(** A [message] event on [top]. *)
Record message := mkMessage {
  fromClient : bool;     (* m.source.top === (top.opener.top || top) *)
  data : value;          (* m.data *)
  ports : list port;     (* m.ports *)
  origin : string        (* m.origin *)
}.

(** The listener installed by the first [getRequest]. *)
Definition onMessage (m : message) (s : t) (h : heap) : t * heap :=
  match request s with
  | Some _ => (s, h)
  | None =>
      if negb (fromClient m) then (s, h)
      else
        let body := if nullish (data m) then VUndefined
                    else get_prop h (data m) Wire.ClientMessage in
        match array_elems h body with
        | None => (s, h)
        | Some elems =>
            if negb (bool_decide (default VUndefined (elems !! 0%nat) = VStr "request"))
            then (s, h)
            else
              match ports m with
              | [p] =>
                  let s1 := mk (request s) (Some p) (waiting s) (lastWaitingKey s)
                               (callers s) (announced s) in
                  match array_elems h (default VUndefined (elems !! 1%nat)) with
                  | None => (s1, h)
                  | Some entries =>
                      let '(matching, h') := capturePeers (origin m) entries [] h in
                      let s2 := mk (Some matching) (connectPort s1) (waiting s1)
                                   (lastWaitingKey s1) (callers s1) (announced s1) in
                      (foldr (finish (Some matching)) s2
                             (elements (default ∅ (waiting s2))), h')
                  end
              | _ => (s, h)
              end
        end
  end.

(** [ModalService.connectDirectly]: the message posted on the connect
    port, with the two ports it transfers.  [postMessage] throws a
    DataCloneError when the message cannot be cloned, when the same port
    is given twice, or when the connect port itself is to be transferred. *)
Definition connectDirectly (sd : side) (form : string) (having : value)
    (exchangePort statusPort : port) (s : t) (h : heap)
    : result (value * list port * heap) :=
  match connectPort s with
  | None => Throw NoConnectPort
  | Some cp =>
      let '(msg, h') := Wire.connectMessage sd form having h in
      if postable h' msg [exchangePort; statusPort]
         && bool_decide (cp ∉ [exchangePort; statusPort])
      then Ok (msg, [exchangePort; statusPort], h')
      else Throw DataCloneError
  end.

Inductive event :=
| GetRequest (hasTop : bool)
| Timeout (key : nat)
| Message (m : message).

Definition step (sh : t * heap) (ev : event) : t * heap :=
  match ev with
  | GetRequest hasTop => ((getRequest hasTop sh.1).2, sh.2)
  | Timeout k => (timeout k sh.1, sh.2)
  | Message m => onMessage m sh.1 sh.2
  end.

Definition run (sh : t * heap) (evs : list event) : t * heap := fold_left step evs sh.

(** The [State] that [openRequest] works on, once a request is there. *)
Definition stateOf (s : t) (opened : bool) : option ModalService.State :=
  (fun matching => ModalService.mkState matching (connectPort s) opened) <$> request s.

End Listener.

(* ===================================================================== *)
(** ** modal-service.ts: [openRequest] after the connect message          *)
(* ===================================================================== *)

Module ServiceExchange.

(** The closures created by [openRequest] once a pairing is found. *)
Record t := mk {
  peer : PeerIntent;
  outcome : promise MatchResult;   (* the promise openRequest returned *)
  closing : bool;                  (* closingPromise has resolved *)
  exchangeClosed : bool;           (* exchangeChannel.port2.close() was called *)
  statusClosed : bool;             (* statusChannel.port2.close() was called *)
  donePosted : nat                 (* calls of statusChannel.port2.postMessage(['done']) *)
}.

Definition closePorts (s : t) : t :=
  mk (peer s) (outcome s) (closing s) true true (S (donePosted s)).

(** The state when [openRequest] returns; [threw] is what
    [matchingCat.connect(...)] threw, if it threw. *)
Definition start (peer : PeerIntent) (threw : option reason) : t :=
  let s := mk peer Pending false false false 0 in
  match threw with
  | Some e =>
      let s' := closePorts s in
      mk (ServiceExchange.peer s') (Rejected e) (closing s') (exchangeClosed s')
         (statusClosed s') (donePosted s')
  | None => s
  end.

Inductive event :=
| StatusMessage (data : value)     (* statusChannel.port2.onmessage *)
| PageHide
| ConnectFulfilled (v : value)
| ConnectRejected (r : reason).

(** [Array.isArray(ev.data) && ev.data[0] === 'done'] *)
Definition isDone (h : heap) (data : value) : bool :=
  match array_elems h data with
  | Some elems => bool_decide (default VUndefined (elems !! 0%nat) = VStr "done")
  | None => false
  end.

Definition step (h : heap) (s : t) (ev : event) : t :=
  match ev with
  | StatusMessage data =>
      if isDone h data
      then closePorts (mk (peer s) (outcome s) true (exchangeClosed s)
                          (statusClosed s) (donePosted s))
      else s
  | PageHide =>
      closePorts (mk (peer s) (outcome s) true (exchangeClosed s)
                     (statusClosed s) (donePosted s))
  | ConnectFulfilled v =>
      closePorts (mk (peer s) (settle (outcome s) (Resolved (Matched (peer s) v)))
                     (closing s) (exchangeClosed s) (statusClosed s) (donePosted s))
  | ConnectRejected r =>
      closePorts (mk (peer s) (settle (outcome s) (Rejected r))
                     (closing s) (exchangeClosed s) (statusClosed s) (donePosted s))
  end.

Definition run (h : heap) (s : t) (evs : list event) : t := fold_left (step h) evs s.

End ServiceExchange.

(* ===================================================================== *)
(** ** modal-request.ts: the message handler and the status port          *)
(* ===================================================================== *)

Module Handshake.

(** A requester session with what the closures of [o] add to it. *)
Record t := mk {
  z : ModalRequest.ZImpl;
  serviceOrigin : string;
  requests : list (string * value)   (* the ['request'] messages posted to the
                                        popup, each with its target origin *)
}.

(** A [message] event on the proxy window. *)
Record message := mkMessage {
  fromPopup : bool;       (* m.source && m.source.top === popup *)
  popupClosed : bool;     (* popup.closed *)
  data : value;           (* m.data *)
  origin : string         (* m.origin *)
}.

Definition withZ (s : t) (z' : ModalRequest.ZImpl) : t :=
  mk z' (serviceOrigin s) (requests s).

(** [onCrossDocumentMessage(m)]: the new session and store, or the error
    thrown.  A ['close'] message calls [x], whose TypeError, if it throws
    one, is thrown on; the request message is posted only if every
    [having] in it can be cloned. *)
Definition onCrossDocumentMessage (m : message) (s : t) (h : heap)
    : result (t * heap) :=
  let body := if nullish (data m) then VUndefined
              else get_prop h (data m) Wire.ServiceMessage in
  match array_elems h body with
  | None => Ok (s, h)
  | Some elems =>
      let kind := default VUndefined (elems !! 0%nat) in
      if bool_decide (kind = VStr "close") then
        if fromPopup m || popupClosed m
        then Ok (withZ s (ModalRequest.x None (z s)), h)
        else Ok (s, h)
      else if negb (fromPopup m) || negb (bool_decide (serviceOrigin s = origin m)) then
        Ok (s, h)
      else if bool_decide (kind = VStr "change-origin") then
        match default VUndefined (elems !! 1%nat) with
        | VStr newOrigin => Ok (mk (z s) newOrigin (requests s), h)
        | _ => Throw MissingOrigin
        end
      else if negb (bool_decide (kind = VStr "get-request")) then
        Throw UnrecognizedMessage
      else
        let '(msg, h') := Wire.requestMessage (ModalRequest.cats (z s)) h in
        if cloneable h' msg
        then Ok (mk (z s) (serviceOrigin s) (requests s ++ [(origin m, msg)]), h')
        else Throw DataCloneError
  end.

(** The listener: [try { onCrossDocumentMessage(m) } catch (e) { x(e) }].
    An error that [x] threw inside the handler comes back to [x], which by
    then does nothing. *)
Definition onMessage (m : message) (s : t) (h : heap) : t * heap :=
  match onCrossDocumentMessage m s h with
  | Ok sh => sh
  | Throw e => (withZ s (ModalRequest.x (Some (RError e)) (z s)), h)
  end.

(** The ['ChangeLocation'] listener:
    [serviceOrigin = parseOrigin(e.detail, serviceOrigin)]. *)
Definition onChangeLocation (detail : string) (s : t) : t :=
  mk (z s) (Origin.parseOrigin detail (Some (serviceOrigin s))) (requests s).

(** [statusPort.onmessage] of the requester; [ev] is the event object:
    [if (Array.isArray(ev) && ev.data[0] === 'done') resolveClosing()]. *)
Definition onStatusMessage (h : heap) (ev : value) (z : ModalRequest.ZImpl)
    : ModalRequest.ZImpl :=
  if isArray h ev
     && bool_decide
          (default VUndefined (array_elems h (get_prop h ev "data") ≫= (.!! 0%nat))
           = VStr "done")
  then ModalRequest.mkZ (ModalRequest.state z) (ModalRequest.openPromise z) true
         (ModalRequest.cats z) (ModalRequest.exchangePort z) (ModalRequest.statusPort z)
         (ModalRequest.connected z) (ModalRequest.isCurrent z) (ModalRequest.proxy z)
         (ModalRequest.pioc z) (ModalRequest.closeOverlay z)
         (ModalRequest.overlayShown z) (ModalRequest.unloadListener z)
         (ModalRequest.closedPorts z) (ModalRequest.doneSent z)
  else z.

(** A message on the status port.  The handler is there once [onConnect]
    has set [statusPort]; it is called with a new MessageEvent object, of
    which the model keeps the [data] property. *)
Definition onStatusPort (data : value) (s : t) (h : heap) : t * heap :=
  match ModalRequest.statusPort (z s) with
  | None => (s, h)
  | Some _ =>
      let '(ev, h') := alloc h (Obj KObject {["data" := data]}) in
      (withZ s (onStatusMessage h' (VRef ev) (z s)), h')
  end.

Inductive event :=
| CrossDocument (m : message)
| ChangeLocation (detail : string)
| Status (data : value)
| Session (ev : ModalRequest.event).

Definition step (sh : t * heap) (ev : event) : t * heap :=
  match ev with
  | CrossDocument m => onMessage m sh.1 sh.2
  | ChangeLocation detail => (onChangeLocation detail sh.1, sh.2)
  | Status data => onStatusPort data sh.1 sh.2
  | Session ev => (withZ sh.1 (ModalRequest.step sh.2 (z sh.1) ev), sh.2)
  end.

Definition run (sh : t * heap) (evs : list event) : t * heap := fold_left step evs sh.

End Handshake.

(* ===================================================================== *)
(** ** modal-request.ts: a session driven from outside                    *)
(* ===================================================================== *)

Module Requester.

(** What the page and the transport can do to a session. *)
Inductive action :=
| Open (matching : value) (env : ModalRequest.Launch)   (* request.open(matching) *)
| Happens (ev : ModalRequest.event).

Definition act (zh : ModalRequest.ZImpl * heap) (a : action)
    : ModalRequest.ZImpl * heap :=
  match a with
  | Open matching env =>
      let '(_, z', h') := ModalRequest.o matching env zh.1 zh.2 in (z', h')
  | Happens ev => (ModalRequest.step zh.2 zh.1 ev, zh.2)
  end.

Definition acts (zh : ModalRequest.ZImpl * heap) (l : list action)
    : ModalRequest.ZImpl * heap :=
  fold_left act l zh.

(** The order of the lifecycle. *)
Definition rank (s : ModalRequest.lifecycle) : nat :=
  match s with
  | ModalRequest.created => 0
  | ModalRequest.open => 1
  | ModalRequest.complete => 2
  end.

End Requester.

(* ===================================================================== *)
(** ** Vocabulary of the specification                                    *)
(* ===================================================================== *)

(** A pairing is eligible when the sides differ and the forms are the same
    string. *)
Definition eligible (cat : Cat) (peerOption : PeerIntent) : Prop :=
  peer_side peerOption <> cat_side cat /\ peer_form peerOption = cat_form cat.

#[global] Instance eligible_dec cat peerOption : Decision (eligible cat peerOption).
Proof. unfold eligible. apply _. Defined.

(** The nested traversal: own Cats outside, peer options inside, both in
    declared order. *)
Definition traversal (cats : list Cat) (peers : list PeerIntent)
    : list (Cat * PeerIntent) :=
  cat ← cats; peerOption ← peers; [(cat, peerOption)].

(** The eligible pairing met last on the traversal. *)
Definition lastEligible (cats : list Cat) (peers : list PeerIntent)
    : option (Cat * PeerIntent) :=
  last (filter (fun cp => eligible cp.1 cp.2) (traversal cats peers)).

(** [x] if there is one, otherwise [dflt]: what an unconditional overwrite
    leaves behind. *)
Definition orElse {A} (x dflt : option A) : option A :=
  match x with Some a => Some a | None => dflt end.

(** The two loop variables of [openRequest] holding a pairing, or nothing. *)
Definition asFound (r : option (Cat * PeerIntent)) : ModalService.found :=
  match r with
  | Some (cat, p) => (Some p, Some cat)
  | None => (None, None)
  end.

(** *** Intents, as [toCats] sees them *)

(** A non-null value whose [typeof] is ['object'] (arrays included). *)
Definition isObject (h : heap) (m : value) : bool :=
  truthy m && bool_decide (typeof h m = TObject).

(** The side of an intent: the one of [accepting] / [offering] that is
    truthy, when exactly one is. *)
Definition sideOf (h : heap) (m : value) : option side :=
  match truthy (get_prop h m "accepting"), truthy (get_prop h m "offering") with
  | true, false => Some accepting
  | false, true => Some offering
  | _, _ => None
  end.

(** The form field of an intent, as a list. *)
Definition formsOf (h : heap) (m : value) : list value :=
  let acc := get_prop h m "accepting" in
  arrayOrSingleton h (if truthy acc then acc else get_prop h m "offering").

Definition asString (v : value) : option string :=
  match v with
  | VStr s => Some s
  | _ => None
  end.

(** An intent that passes every check of [toCats]. *)
Definition validIntent (h : heap) (m : value) : Prop :=
  isObject h m = true
  /\ is_Some (sideOf h m)
  /\ Forall (fun f => is_Some (asString f)) (formsOf h m).

(** What one intent asks for: its side and its forms, or the error it
    fails with. *)
Definition expand (h : heap) (m : value) : result (side * list string) :=
  if negb (isObject h m) then Throw MatcherNotAnObject
  else
    match sideOf h m with
    | None => Throw MatcherDoesNotHaveAcceptingXorOffering
    | Some sd =>
        match mapM asString (formsOf h m) with
        | None => Throw MatcherFormNotAString
        | Some fs => Ok (sd, fs)
        end
    end.

(** The Cats expected from a list of intents: for each intent in order,
    one entry per form in order. *)
Definition expected (h : heap) (ms : list value) : list (value * side * string) :=
  m ← ms;
  match expand h m with
  | Ok (sd, fs) => (fun s => (m, sd, s)) <$> fs
  | Throw _ => []
  end.

(** [having] of a Cat made from intent [m]: the intent's [having] when it
    is truthy, otherwise an empty object allocated by [toCats]. *)
Definition havingOf (h h' : heap) (m : value) (v : value) : Prop :=
  if truthy (get_prop h m "having") then v = get_prop h m "having"
  else exists l, v = VRef l /\ (length h <= l)%nat /\ h' !! l = Some (Obj KObject ∅).

Definition catFrom (h h' : heap) (cat : Cat) (e : value * side * string) : Prop :=
  cat_side cat = e.1.2 /\ cat_form cat = e.2
  /\ cat_connect cat = connectorOf h e.1.1
  /\ havingOf h h' e.1.1 (cat_having cat).

(** Every reference stored in an object of the store is bound. *)
Definition closedObj (h : heap) (o : obj) : Prop :=
  map_Forall (fun _ v => bound h v) (oprops o)
  /\ match okind o with
     | KArray es => Forall (bound h) es
     | _ => True
     end.

Definition closed (h : heap) : Prop := Forall (closedObj h) h.

#[global] Instance bound_dec h v : Decision (bound h v).
Proof. destruct v; simpl; apply _. Defined.

#[global] Instance closedObj_dec h o : Decision (closedObj h o).
Proof. unfold closedObj. destruct (okind o); apply _. Defined.

#[global] Instance closed_dec h : Decision (closed h).
Proof. unfold closed. apply _. Defined.

(** The elements and the [raw] property of a DataArray. *)
Definition elements (h : heap) (v : value) : option (list value) := array_elems h v.
Definition raw (h : heap) (v : value) : value := get_prop h v "raw".

(** The DataArray of no data: no element, [raw] undefined. *)
Definition emptyDataArray (h : heap) (v : value) : Prop :=
  elements h v = Some [] /\ raw h v = VUndefined.

(** Offering role: the offer of call 0 is out and nothing has answered or
    closed it. *)
Definition awaiting (s : Send.t) : Prop :=
  Send.offerPosted s = true /\ Send.closingFired s = false
  /\ Send.closingThen s = [0%nat]
  /\ Send.calls s !! 0%nat = Some (Send.mkCall (Some true) Pending).

(** *** Origins *)

(** Every character of [s] is of the class [p]. *)
Fixpoint allChars (p : ascii -> bool) (s : string) : bool :=
  match s with
  | EmptyString => true
  | String c rest => p c && allChars p rest
  end.

(** [scheme://host], with a non-empty scheme of scheme characters and a
    non-empty host without slash. *)
Definition isOrigin (o : string) : Prop :=
  exists scheme host,
    o = scheme +:+ "://" +:+ host
    /\ scheme <> EmptyString /\ allChars Origin.schemeChar scheme = true
    /\ host <> EmptyString /\ allChars Origin.hostChar host = true.

(** Nothing, or something that begins with a slash. *)
Definition pathLike (rest : string) : Prop :=
  rest = EmptyString \/ exists rest', rest = String "/" rest'.

(** *** The exchange *)


Definition b2n (b : bool) : nat := if b then 1 else 0.

(** Accepting role: events that are not the consumer settling. *)
Definition quiet (ev : Recv.event) : bool :=
  match ev with
  | Recv.Message _ _ | Recv.PostResult _ _ | Recv.Closing => true
  | _ => false
  end.

(** Accepting role: what has been posted, plus what may still be posted
    (the result and the acknowledgment). *)
Definition recvBudget (s : Recv.t) : nat :=
  length (Recv.posted s) + b2n (Recv.waitingForResult s) + b2n (Recv.waitingForAck s).

(** *** The requester session *)

(** The cancel routine can call [pioc]: the session has no proxy (yet, or
    any more), or [open] got as far as installing the inline handlers on
    its proxy window. *)
Definition handlersInstalled (z : ModalRequest.ZImpl) : Prop :=
  ModalRequest.proxy z = true -> ModalRequest.pioc z = true.

(** The cancel routine stopped at the call of [pioc]: the proxy is still
    there, without the handlers, and the closing promise is unresolved. *)
Definition stoppedAtPioc (z : ModalRequest.ZImpl) : Prop :=
  ModalRequest.proxy z = true /\ ModalRequest.pioc z = false
  /\ ModalRequest.closingResolved z = false.

(** The cancel routine got past [pioc]: the closing promise is resolved
    and the proxy removed; and unless [closeOverlay()] then threw, the
    overlay and the unload listener are gone. *)
Definition closedDown (z : ModalRequest.ZImpl) : Prop :=
  ModalRequest.closingResolved z = true /\ ModalRequest.proxy z = false
  /\ (ModalRequest.closeOverlayThrows (ModalRequest.closeOverlay z) = None ->
      ModalRequest.overlayShown z = false /\ ModalRequest.unloadListener z = false).

(** What holds of a session that started from [createZImpl]. *)
Definition sessionInv (z : ModalRequest.ZImpl) : Prop :=
  (ModalRequest.state z = ModalRequest.created ->
   ModalRequest.isCurrent z = false /\ ModalRequest.proxy z = false
   /\ ModalRequest.closeOverlay z = ModalRequest.OverlayUnset)
  /\ (ModalRequest.state z <> ModalRequest.complete ->
      ModalRequest.closingResolved z = false)
  /\ (ModalRequest.state z = ModalRequest.complete ->
      ModalRequest.isCurrent z = false /\ (stoppedAtPioc z \/ closedDown z)).

(** *** The handshake *)

(** What the capture loop of [getRequest] keeps of one entry. *)
Definition entryPeer (h : heap) (entry : value) : option (side * string) :=
  if truthy entry then
    match ModalRequest.parseSide (get_prop h entry "side"), get_prop h entry "form" with
    | Some sd, VStr form => Some (sd, form)
    | _, _ => None
    end
  else None.

(** [entry] is an object of the store carrying the side and form of [cat]. *)
Definition describes (h : heap) (entry : value) (cat : Cat) : Prop :=
  exists l o,
    entry = VRef l /\ h !! l = Some o
    /\ oprops o !! "side" = Some (VStr (Wire.sideName (cat_side cat)))
    /\ oprops o !! "form" = Some (VStr (cat_form cat)).

(** A captured peer option that stands for the Cat [cat] of the client. *)
Definition mirrors (origin : string) (p : PeerIntent) (cat : Cat) : Prop :=
  peer_side p = cat_side cat /\ peer_form p = cat_form cat /\ peer_origin p = origin.

(** The callers of [getRequest], while no request is there: waiting with
    their timer set, or timed out with [undefined]. *)
Definition callersWaiting (s : Listener.t) : Prop :=
  forall k c, Listener.callers s !! k = Some c ->
    (Listener.timerSet c = true /\ Listener.answer c = Pending
     /\ exists w, Listener.waiting s = Some w /\ k ∈ w)
    \/ (Listener.timerSet c = false /\ Listener.answer c = Resolved None).

(** The callers of [getRequest], once the request [r] is there. *)
Definition callersAnswered (r : list PeerIntent) (s : Listener.t) : Prop :=
  forall k c, Listener.callers s !! k = Some c ->
    Listener.timerSet c = false
    /\ (Listener.answer c = Resolved (Some r) \/ Listener.answer c = Resolved None).

(** The timer of caller [k] fired while the caller was waiting: somewhere
    in [evs] there is a [Timeout k], at a moment when no request had
    arrived and [k] was a caller. *)
Definition timedOut (h : heap) (evs : list Listener.event) (k : nat) : Prop :=
  exists pre post,
    evs = pre ++ Listener.Timeout k :: post
    /\ Listener.request (Listener.run (Listener.init, h) pre).1 = None
    /\ is_Some (Listener.callers (Listener.run (Listener.init, h) pre).1 !! k).

Definition listenerInv (s : Listener.t) : Prop :=
  (forall k, is_Some (Listener.callers s !! k) -> (k <= Listener.lastWaitingKey s)%nat)
  /\ Listener.announced s = b2n (bool_decide (is_Some (Listener.waiting s)))
  /\ match Listener.request s with
     | None => callersWaiting s
     | Some r => is_Some (Listener.connectPort s) /\ callersAnswered r s
     end.

(** A captured peer option as [getRequest] guarantees it: from the
    sender's origin, with an object as [having]. *)
Definition wellFormedPeer (origin : string) (h : heap) (p : PeerIntent) : Prop :=
  peer_origin p = origin
  /\ truthy (peer_having p) = true
  /\ typeof h (peer_having p) = TObject
  /\ bound h (peer_having p).

(** The peer option captured from a capability entry: its side and form
    and the sender's origin, with the entry's own [having] when that is an
    object (not null, no function) and otherwise an empty object that was
    not in the store [h] before. *)
Definition capturedAs (origin : string) (h h' : heap) (entry : value)
    (p : PeerIntent) : Prop :=
  entryPeer h entry = Some (peer_side p, peer_form p)
  /\ peer_origin p = origin
  /\ (let hv := get_prop h entry "having" in
      if truthy hv && bool_decide (typeof h hv = TObject)
      then peer_having p = hv
      else exists l, peer_having p = VRef l /\ (length h <= l)%nat
                     /\ h' !! l = Some (Obj KObject ∅)).

(** The requester's closing signal has fired only if the session is over. *)
Definition closingOnlyAtEnd (z : ModalRequest.ZImpl) : Prop :=
  ModalRequest.closingResolved z = true -> ModalRequest.state z = ModalRequest.complete.

(** A request message posted to the popup at [sh]: the target origin is the
    service origin of that moment and the message lists the session's Cats. *)
Definition postedAt (sh : Handshake.t * heap) (om : string * value) : Prop :=
  om.1 = Handshake.serviceOrigin sh.1
  /\ om.2 = (Wire.requestMessage (ModalRequest.cats (Handshake.z sh.1)) sh.2).1.

(** What the first settlement of the connector's promise makes of the
    service's request. *)
Fixpoint firstSettlement (peer : PeerIntent) (evs : list ServiceExchange.event)
    : promise MatchResult :=
  match evs with
  | [] => Pending
  | ServiceExchange.ConnectFulfilled v :: _ => Resolved (Matched peer v)
  | ServiceExchange.ConnectRejected r :: _ => Rejected r
  | _ :: evs => firstSettlement peer evs
  end.

(** The service has let go of both channels and told the requester. *)
Definition cleanedUp (s : ServiceExchange.t) : Prop :=
  ServiceExchange.exchangeClosed s = true
  /\ ServiceExchange.statusClosed s = true
  /\ (0 < ServiceExchange.donePosted s)%nat.

(** Case analysis on the first character of a string. *)
Ltac crack s := destruct s as [|[[] [] [] [] [] [] [] []] s]; try (cbn; discriminate).


(* ===================================================================== *)
(** ** The object store                                                   *)
(* ===================================================================== *)

Section Store.

Implicit Types (h : heap) (o : obj) (v : value) (l : loc).

Lemma lookup_alloc_new h o : (h ++ [o]) !! length h = Some o.
Proof. by apply list_lookup_middle. Qed.

Lemma lookup_alloc_old h o l : (l < length h)%nat -> (h ++ [o]) !! l = h !! l.
Proof. intros Hl. by apply lookup_app_l. Qed.

Lemma extends_refl h : extends h h.
Proof. exists []. by rewrite app_nil_r. Qed.

Lemma extends_trans h1 h2 h3 : extends h1 h2 -> extends h2 h3 -> extends h1 h3.
Proof. intros [t1 ->] [t2 ->]. exists (t1 ++ t2). by rewrite app_assoc. Qed.

Lemma extends_lookup h h' l o : extends h h' -> h !! l = Some o -> h' !! l = Some o.
Proof. intros [tl ->] Hl. by apply lookup_app_l_Some. Qed.

Lemma extends_length h h' : extends h h' -> (length h <= length h')%nat.
Proof. intros [tl ->]. rewrite length_app. lia. Qed.

(** Reading through a reference that is bound is stable under extension. *)
Lemma extends_get_prop h h' v k :
  extends h h' -> bound h v -> get_prop h' v k = get_prop h v k.
Proof.
  intros Hext Hb. destruct v as [| | | | |l]; try done. simpl in *.
  destruct (lookup_lt_is_Some_2 h l Hb) as [o Ho].
  by rewrite Ho, (extends_lookup _ _ _ _ Hext Ho).
Qed.

Lemma extends_array_elems h h' v :
  extends h h' -> bound h v -> array_elems h' v = array_elems h v.
Proof.
  intros Hext Hb. destruct v as [| | | | |l]; try done. simpl in *.
  destruct (lookup_lt_is_Some_2 h l Hb) as [o Ho].
  by rewrite Ho, (extends_lookup _ _ _ _ Hext Ho).
Qed.

Lemma extends_typeof h h' v :
  extends h h' -> bound h v -> typeof h' v = typeof h v.
Proof.
  intros Hext Hb. destruct v as [| | | | |l]; try done. simpl in *.
  destruct (lookup_lt_is_Some_2 h l Hb) as [o Ho].
  by rewrite Ho, (extends_lookup _ _ _ _ Hext Ho).
Qed.

Lemma extends_has_prop h h' v k :
  extends h h' -> bound h v -> has_prop h' v k = has_prop h v k.
Proof.
  intros Hext Hb. destruct v as [| | | | |l]; try done. simpl in *.
  destruct (lookup_lt_is_Some_2 h l Hb) as [o Ho].
  by rewrite Ho, (extends_lookup _ _ _ _ Hext Ho).
Qed.

Lemma extends_bound h h' v : extends h h' -> bound h v -> bound h' v.
Proof.
  intros Hext Hb. destruct v; try done. simpl in *.
  pose proof (extends_length _ _ Hext). lia.
Qed.

End Store.

(* ===================================================================== *)
(** ** [arrayify]                                                         *)
(* ===================================================================== *)

Section Arrayify.

Implicit Types (h : heap) (data v : value).

(** [arrayify] allocates exactly one object: an array holding the spread
    argument, with [raw] set to the argument itself. *)
Lemma arrayify_eq data h :
  arrayify data h =
  (VRef (length h), h ++ [Obj (KArray (concatInto h data)) {["raw" := data]}]).
Proof.
  unfold arrayify, alloc, set_prop. f_equal.
  replace (length h) with (length h + 0)%nat at 1 by lia.
  rewrite alter_app_r. simpl. by rewrite insert_empty.
Qed.

Lemma arrayify_extends data h : extends h (arrayify data h).2.
Proof. rewrite arrayify_eq. simpl. by eexists. Qed.

Lemma arrayify_elements data h :
  elements (arrayify data h).2 (arrayify data h).1 = Some (concatInto h data).
Proof.
  rewrite arrayify_eq. unfold elements. simpl. by rewrite lookup_alloc_new.
Qed.

Lemma arrayify_raw data h :
  raw (arrayify data h).2 (arrayify data h).1 = data.
Proof.
  rewrite arrayify_eq. unfold raw. simpl. rewrite lookup_alloc_new. simpl.
  by rewrite lookup_singleton_eq.
Qed.

(** The result is a new object: no bound reference equals it. *)
Lemma arrayify_fresh data h v : bound h v -> (arrayify data h).1 <> v.
Proof.
  rewrite arrayify_eq. simpl. intros Hb <-. simpl in Hb. lia.
Qed.

Lemma arrayify_empty h :
  emptyDataArray (arrayify VUndefined h).2 (arrayify VUndefined h).1.
Proof.
  split; [apply arrayify_elements | apply arrayify_raw].
Qed.

End Arrayify.

(** C4 (as amended): normalising [null] gives the empty sequence;
    normalising [5] gives the sequence [5] whose [raw] is [5]; normalising
    an array holding [1, 2] gives a new array (a reference different from
    the input) holding [1, 2], whose [raw] is the input array itself, so
    that [raw[0]] is [1]. *)
Theorem C4_arrayify_cases :
  forall (h : heap) (l : loc) (ps : gmap string value),
    h !! l = Some (Obj (KArray [VNum 1; VNum 2]) ps) ->
    elements (arrayify VNull h).2 (arrayify VNull h).1 = Some []
    /\ (elements (arrayify (VNum 5) h).2 (arrayify (VNum 5) h).1 = Some [VNum 5]
        /\ raw (arrayify (VNum 5) h).2 (arrayify (VNum 5) h).1 = VNum 5)
    /\ (let r := (arrayify (VRef l) h).1 in
        let h' := (arrayify (VRef l) h).2 in
        elements h' r = Some [VNum 1; VNum 2]
        /\ r <> VRef l
        /\ raw h' r = VRef l
        /\ (elements h' (raw h' r) ≫= (.!! 0%nat)) = Some (VNum 1)).
Proof.
  intros h l ps Hl.
  assert (Hb : bound h (VRef l)) by (simpl; by eapply lookup_lt_Some).
  split; [|split].
  - by rewrite arrayify_elements.
  - split; [by rewrite arrayify_elements | apply arrayify_raw].
  - cbv zeta. rewrite arrayify_raw. split; [|split; [|split]].
    + rewrite arrayify_elements. unfold concatInto, arrayOrSingleton. simpl.
      by rewrite Hl.
    + by apply arrayify_fresh.
    + done.
    + unfold elements.
      rewrite (extends_array_elems h _ (VRef l) (arrayify_extends _ _) Hb).
      simpl. by rewrite Hl.
Qed.

Lemma C4_arrayify_cases_witness :
  let h := [Obj (KArray [VNum 1; VNum 2]) ∅] in
  h !! 0%nat = Some (Obj (KArray [VNum 1; VNum 2]) ∅)
  /\ (let r := (arrayify (VRef 0%nat) h).1 in
      let h' := (arrayify (VRef 0%nat) h).2 in
      elements h' r = Some [VNum 1; VNum 2]
      /\ r <> VRef 0%nat
      /\ raw h' r = VRef 0%nat
      /\ (elements h' (raw h' r) ≫= (.!! 0%nat)) = Some (VNum 1)).
Proof.
  split; [reflexivity|].
  exact (proj2 (proj2 (C4_arrayify_cases [Obj (KArray [VNum 1; VNum 2]) ∅] 0%nat ∅ eq_refl))).
Defined.

(** C4, the stated claim fails: for the input array [[1, 2]], the [raw]
    field of the result is the input array itself (the same reference),
    not a distinct object. *)
Lemma C4_raw_is_the_input_array :
  raw (arrayify (VRef 0%nat) [Obj (KArray [VNum 1; VNum 2]) ∅]).2
      (arrayify (VRef 0%nat) [Obj (KArray [VNum 1; VNum 2]) ∅]).1
  = VRef 0%nat.
Proof. apply arrayify_raw. Qed.

(** C5 (as amended): [arrayify] is a total function, and applied to its
    own output it yields a new DataArray with the same elements; the [raw]
    of that second DataArray is the first DataArray (the value it was
    applied to), while the first keeps the original value as its [raw];
    for an input bound in the store the two [raw] fields differ. *)
Theorem C5_arrayify_twice :
  forall (v : value) (h : heap),
    let a1 := (arrayify v h).1 in
    let h1 := (arrayify v h).2 in
    let a2 := (arrayify a1 h1).1 in
    let h2 := (arrayify a1 h1).2 in
    elements h2 a2 = elements h1 a1
    /\ elements h2 a1 = elements h1 a1
    /\ raw h2 a2 = a1
    /\ raw h2 a1 = v
    /\ a2 <> a1
    /\ (bound h v -> raw h2 a2 <> raw h2 a1).
Proof.
  intros v h. cbv zeta.
  set (a1 := (arrayify v h).1). set (h1 := (arrayify v h).2).
  assert (Hb1 : bound h1 a1).
  { subst a1 h1. rewrite arrayify_eq. simpl. rewrite length_app. simpl. lia. }
  assert (He1 : elements h1 a1 = Some (concatInto h v)) by apply arrayify_elements.
  assert (Hr1 : raw h1 a1 = v) by apply arrayify_raw.
  pose proof (arrayify_extends a1 h1) as Hext.
  assert (He21 : elements (arrayify a1 h1).2 a1 = elements h1 a1).
  { unfold elements. by apply extends_array_elems. }
  assert (Hr21 : raw (arrayify a1 h1).2 a1 = v).
  { unfold raw. rewrite extends_get_prop with (h := h1); done. }
  split; [|split; [|split; [|split; [|split]]]].
  - rewrite arrayify_elements, He1. unfold concatInto, arrayOrSingleton.
    unfold elements in He1. rewrite He1.
    subst a1. by rewrite arrayify_eq.
  - done.
  - apply arrayify_raw.
  - done.
  - by apply arrayify_fresh.
  - intros Hb. rewrite arrayify_raw, Hr21. by apply arrayify_fresh.
Qed.

Lemma C5_arrayify_twice_witness :
  let a1 := (arrayify (VNum 5) []).1 in
  let h1 := (arrayify (VNum 5) []).2 in
  let a2 := (arrayify a1 h1).1 in
  let h2 := (arrayify a1 h1).2 in
  elements h2 a2 = elements h1 a1 /\ raw h2 a2 <> raw h2 a1.
Proof.
  pose proof (C5_arrayify_twice (VNum 5) []) as H. cbv zeta in *.
  destruct H as (H1 & _ & _ & _ & _ & H6).
  split; [exact H1 | exact (H6 I)].
Defined.

(** C5, the stated claim fails: normalising [5] twice gives a DataArray
    whose [raw] is the first DataArray (a reference), whereas the [raw] of
    the first is [5]. *)
Lemma C5_raw_not_preserved :
  let a1 := (arrayify (VNum 5) []).1 in
  let h1 := (arrayify (VNum 5) []).2 in
  let a2 := (arrayify a1 h1).1 in
  let h2 := (arrayify a1 h1).2 in
  raw h1 a1 = VNum 5 /\ raw h2 a2 = VRef 0%nat /\ elements h2 a2 = Some [VNum 5].
Proof. vm_compute. done. Qed.

(* ===================================================================== *)
(** ** The Matcher                                                        *)
(* ===================================================================== *)

Section Matcher.

Import ModalService ModalRequest.

Implicit Types (cat c : Cat) (p peerOption : PeerIntent) (sd : side).
Implicit Types (cats : list Cat) (peers : list PeerIntent).

Lemma oppositeSide_neq sd sd' : sd' = oppositeSide sd <-> sd' <> sd.
Proof. destruct sd, sd'; simpl; split; congruence. Qed.

(** The test of the inner loop of [openRequest] decides eligibility. *)
Lemma visit_test cat p :
  bool_decide (peer_side p = oppositeSide (cat_side cat))
  && bool_decide (peer_form p = cat_form cat)
  = bool_decide (eligible cat p).
Proof.
  unfold eligible. apply eq_true_iff_eq.
  rewrite andb_true_iff, !bool_decide_eq_true, oppositeSide_neq. tauto.
Qed.

Lemma matchOf_asFound r : matchOf (asFound r) = r.
Proof. by destruct r as [[??]|]. Qed.

Lemma scanPeers_last peers cat r :
  scanPeers peers (asFound r) cat
  = asFound (orElse (pair cat <$> last (filter (eligible cat) peers)) r).
Proof.
  unfold scanPeers. revert r.
  induction peers as [|p peers IH]; intros r; [done|].
  cbn [fold_left]. unfold visit at 2. rewrite visit_test, filter_cons.
  case_bool_decide as He.
  - rewrite decide_True by done.
    change (Some p, Some cat) with (asFound (Some (cat, p))).
    rewrite IH, last_cons.
    by destruct (last (filter (eligible cat) peers)).
  - rewrite decide_False by done. by rewrite IH.
Qed.

Lemma traversal_cons cat cats peers :
  traversal (cat :: cats) peers = (pair cat <$> peers) ++ traversal cats peers.
Proof.
  unfold traversal. rewrite bind_cons. f_equal.
Qed.

Lemma filter_pair cat peers :
  filter (fun cp : Cat * PeerIntent => eligible cp.1 cp.2) (pair cat <$> peers)
  = pair cat <$> filter (eligible cat) peers.
Proof.
  induction peers as [|p peers IH]; [done|].
  rewrite fmap_cons, !filter_cons. simpl.
  destruct (decide (eligible cat p)); rewrite IH; done.
Qed.

Lemma lastEligible_cons cat cats peers :
  lastEligible (cat :: cats) peers
  = orElse (lastEligible cats peers)
           (pair cat <$> last (filter (eligible cat) peers)).
Proof.
  unfold lastEligible.
  rewrite traversal_cons, filter_app, last_app, filter_pair, fmap_last.
  by destruct (last (filter _ (traversal cats peers))).
Qed.

Lemma scanCats_from cats peers r :
  fold_left (scanPeers peers) cats (asFound r)
  = asFound (orElse (lastEligible cats peers) r).
Proof.
  revert r. induction cats as [|cat cats IH]; intros r; [done|].
  simpl. rewrite scanPeers_last, IH, lastEligible_cons.
  destruct (lastEligible cats peers); [done|].
  by destruct (last (filter (eligible cat) peers)).
Qed.

Lemma scanCats_lastEligible cats peers :
  matchOf (scanCats cats peers) = lastEligible cats peers.
Proof.
  unfold scanCats. change (None, None) with (asFound None).
  rewrite scanCats_from, matchOf_asFound. by destruct (lastEligible cats peers).
Qed.

Lemma elem_of_traversal cats peers cat p :
  (cat, p) ∈ traversal cats peers <-> cat ∈ cats /\ p ∈ peers.
Proof.
  unfold traversal. rewrite list_elem_of_bind. split.
  - intros (c & Hin & Hc). apply list_elem_of_bind in Hin as (q & Hq & Hin).
    apply list_elem_of_singleton in Hq. by simplify_eq.
  - intros [Hc Hp]. exists cat. split; [|done].
    apply list_elem_of_bind. exists p. split; [|done]. by apply list_elem_of_singleton.
Qed.

Lemma lastEligible_None cats peers :
  lastEligible cats peers = None
  <-> forall cat p, cat ∈ cats -> p ∈ peers -> ~ eligible cat p.
Proof.
  unfold lastEligible. rewrite last_None. split.
  - intros Hnil cat p Hc Hp He.
    eapply (filter_nil_not_elem_of _ _ (cat, p)); [exact Hnil|exact He|].
    by apply elem_of_traversal.
  - intros Hno. destruct (filter _ _) as [|[cat p] l] eqn:Hf; [done|].
    assert (Hin : (cat, p) ∈ filter (fun cp : Cat * PeerIntent => eligible cp.1 cp.2)
                                  (traversal cats peers)).
    { rewrite Hf. apply list_elem_of_here. }
    apply list_elem_of_filter in Hin as [He Hin].
    apply elem_of_traversal in Hin as [Hc Hp]. by destruct (Hno cat p).
Qed.

(** The loop of [onConnect] against the single option [p]. *)
Lemma pick_test p cat acc :
  pick (peer_side p) (peer_form p) acc cat
  = if bool_decide (eligible cat p) then Some cat else acc.
Proof.
  unfold pick.
  destruct (decide (cat_side cat = peer_side p)) as [Hs|Hs].
  - rewrite (bool_decide_eq_true_2 _ Hs).
    rewrite bool_decide_eq_false_2; [done|]. intros [H _]. congruence.
  - rewrite (bool_decide_eq_false_2 _ Hs).
    destruct (decide (cat_form cat = peer_form p)) as [Hf|Hf].
    + rewrite (bool_decide_eq_true_2 _ Hf). simpl.
      rewrite bool_decide_eq_true_2; [done|]. split; congruence.
    + rewrite (bool_decide_eq_false_2 _ Hf). simpl.
      rewrite bool_decide_eq_false_2; [done|]. intros [_ H]. congruence.
Qed.

Lemma matchCat_from cats p acc :
  fold_left (pick (peer_side p) (peer_form p)) cats acc
  = orElse (last (filter (fun cat => eligible cat p) cats)) acc.
Proof.
  revert acc. induction cats as [|cat cats IH]; intros acc; [done|].
  simpl. rewrite IH, pick_test, filter_cons.
  case_bool_decide as He.
  - rewrite decide_True by done. rewrite last_cons.
    by destruct (last (filter _ cats)).
  - by rewrite decide_False by done.
Qed.

Lemma traversal_single cats p : traversal cats [p] = (fun cat => (cat, p)) <$> cats.
Proof.
  induction cats as [|cat cats IH]; [done|].
  by rewrite traversal_cons, IH.
Qed.

Lemma lastEligible_single cats p :
  lastEligible cats [p]
  = (fun cat => (cat, p)) <$> last (filter (fun cat => eligible cat p) cats).
Proof.
  unfold lastEligible. rewrite traversal_single, <- fmap_last. f_equal.
  induction cats as [|cat cats IH]; [done|].
  rewrite fmap_cons, !filter_cons. simpl.
  destruct (decide (eligible cat p)); rewrite IH; done.
Qed.

Lemma matchCat_lastEligible cats p :
  matchCat cats (peer_side p) (peer_form p)
  = fst <$> lastEligible cats [p].
Proof.
  unfold matchCat. rewrite matchCat_from, lastEligible_single.
  by destruct (last (filter _ cats)).
Qed.

Lemma matchCat_None cats p :
  matchCat cats (peer_side p) (peer_form p) = None
  <-> forall cat, cat ∈ cats -> ~ eligible cat p.
Proof.
  rewrite matchCat_lastEligible, fmap_None, lastEligible_None. split.
  - intros H cat Hc. apply (H cat p Hc). apply list_elem_of_here.
  - intros H cat q Hc Hq. apply list_elem_of_singleton in Hq as ->. by apply H.
Qed.

End Matcher.

(** C1: on both sides the matching loop returns the eligible pairing that
    comes last on the nested traversal (own Cats outside, peer options
    inside), eligibility being "sides differ and forms are the same
    string"; it returns none exactly when no pair of an own Cat and a
    peer option is eligible.  The service's loop is that of
    [openRequest], the requester's that of [onConnect] run against the
    single option the peer selected. *)
Theorem C1_matcher_returns_last_eligible :
  (forall cats peers,
      ModalService.matchOf (ModalService.scanCats cats peers)
      = lastEligible cats peers)
  /\ (forall cats peers,
         ModalService.matchOf (ModalService.scanCats cats peers) = None
         <-> forall cat p, cat ∈ cats -> p ∈ peers -> ~ eligible cat p)
  /\ (forall cats p,
         ModalRequest.matchCat cats (peer_side p) (peer_form p)
         = fst <$> lastEligible cats [p])
  /\ (forall cats p,
         ModalRequest.matchCat cats (peer_side p) (peer_form p) = None
         <-> forall cat, cat ∈ cats -> ~ eligible cat p).
Proof.
  split; [|split; [|split]].
  - apply scanCats_lastEligible.
  - intros cats peers. rewrite scanCats_lastEligible. apply lastEligible_None.
  - apply matchCat_lastEligible.
  - apply matchCat_None.
Qed.

(** The tie-break of the specification, and case sensitivity, on the
    service's loop. *)
Example matcher_later_cat_wins :
  let X := mkCat accepting "f" (VNum 1) (PerformRecv VNull) in
  let Y := mkCat accepting "f" (VNum 2) (PerformRecv VNull) in
  let P := mkPeer "https://peer.example" offering "f" VNull in
  ModalService.matchOf (ModalService.scanCats [X; Y] [P]) = Some (Y, P).
Proof. reflexivity. Qed.

Example matcher_case_sensitive :
  let X := mkCat accepting "Text" (VNum 1) (PerformRecv VNull) in
  let P := mkPeer "https://peer.example" offering "text" VNull in
  ModalService.matchOf (ModalService.scanCats [X] [P]) = None.
Proof. reflexivity. Qed.

(* ===================================================================== *)
(** ** Service side: [request.open] is single-shot                        *)
(* ===================================================================== *)

Section Service.

Import ModalService.

Lemma openRequest_sets_opened intents st h :
  opened (openRequest intents st h).1.2 = true.
Proof.
  unfold openRequest. destruct (opened st) eqn:Hop; [done|].
  destruct (toCats intents h) as [[cats h']|e]; [|done].
  destruct (matchOf _) as [[c p]|]; [|done].
  cbn [connectPort]. destruct (connectPort st); [|done].
  destruct (Wire.connectMessage _ _ _ _) as [msg h''].
  by destruct (cloneable h'' msg).
Qed.

Lemma openRequest_when_opened intents st h :
  opened st = true ->
  openRequest intents st h = (mkOpening (Rejected (RError AlreadyOpened)) None, st, h).
Proof. intros Hop. unfold openRequest. by rewrite Hop. Qed.

Lemma openAll_when_opened calls st h :
  opened st = true ->
  Forall (fun p => p = Rejected (RError AlreadyOpened)) (openAll calls st h).
Proof.
  intros Hop. induction calls as [|intents calls IH]; simpl; [constructor|].
  rewrite openRequest_when_opened by done. by constructor.
Qed.


End Service.

(** C10: [openRequest] sets [State.opened] before it looks at the intents,
    so whatever the first invocation of [open] does (reject with a
    configuration error, resolve NotMatched, or connect), every later
    invocation rejects with AlreadyOpened. *)
Theorem C10_open_is_single_shot :
  forall (first : value) (later : list value) (st : ModalService.State) (h : heap),
    ModalService.opened (ModalService.openRequest first st h).1.2 = true
    /\ Forall (fun p => p = Rejected (RError AlreadyOpened))
              (tail (ModalService.openAll (first :: later) st h)).
Proof.
  intros first later st h. split; [apply openRequest_sets_opened|].
  simpl. pose proof (openRequest_sets_opened first st h) as Hop.
  destruct (ModalService.openRequest first st h) as [[o st'] h']. simpl in *.
  by apply openAll_when_opened.
Qed.

(** A first [open] that fails with MatcherNotAnObject, and one that
    resolves NotMatched, each followed by a well-formed second call. *)
Example open_after_configuration_error :
  let h := [Obj KObject {["offering" := VStr "text"]}] in
  let st := ModalService.mkState [mkPeer "https://client.example" accepting "text" VNull]
                                 (Some 3%nat) false in
  ModalService.openAll [VNum 5; VRef 0%nat] st h
  = [Rejected (RError MatcherNotAnObject); Rejected (RError AlreadyOpened)].
Proof. vm_compute. reflexivity. Qed.

Example open_after_not_matched :
  let h := [Obj KObject {["offering" := VStr "image"]};
            Obj KObject {["offering" := VStr "text"]}] in
  let st := ModalService.mkState [mkPeer "https://client.example" accepting "text" VNull]
                                 (Some 3%nat) false in
  ModalService.openAll [VRef 0%nat; VRef 1%nat] st h
  = [Resolved NotMatched; Rejected (RError AlreadyOpened)].
Proof. vm_compute. reflexivity. Qed.

(* ===================================================================== *)
(** ** Requester side: connect and cancel                                 *)
(* ===================================================================== *)

Section Requester.

Import ModalRequest.

Lemma x_complete rejectWith z : state (x rejectWith z) = complete.
Proof.
  unfold x. case_bool_decide; [done|].
  destruct (proxy z && negb (pioc z)); [done|]. by case_bool_decide.
Qed.

Lemma x_idempotent rejectWith z : state z = complete -> x rejectWith z = z.
Proof. intros Hc. unfold x. by rewrite bool_decide_eq_true_2. Qed.

Lemma handlersInstalled_test z :
  handlersInstalled z -> proxy z && negb (pioc z) = false.
Proof.
  unfold handlersInstalled. destruct (proxy z); [|done].
  intros Hi. by rewrite Hi.
Qed.

Lemma x_rejects r rejectWith z :
  state z <> complete -> handlersInstalled z -> givenReason rejectWith = Some r ->
  openPromise (x rejectWith z) = settle (openPromise z) (Rejected r).
Proof.
  intros Hs Hi Hr. unfold x. rewrite bool_decide_eq_false_2 by done.
  rewrite handlersInstalled_test by done. rewrite Hr. by case_bool_decide.
Qed.



End Requester.







(* ===================================================================== *)
(** ** The offering role: [performSend]                                   *)
(* ===================================================================== *)

Section Offering.

Import Send.

Implicit Types (s : t) (n : nat) (ev : event) (p : promise value).

Lemma emptyDataArray_extends h h' v :
  extends h h' -> bound h v -> emptyDataArray h v -> emptyDataArray h' v.
Proof.
  intros Hext Hb [He Hr]. split.
  - unfold elements. by rewrite (extends_array_elems h h' v).
  - unfold raw. by rewrite (extends_get_prop h h' v).
Qed.

Lemma run_app s evs1 evs2 : run s (evs1 ++ evs2) = run (run s evs1) evs2.
Proof. apply fold_left_app. Qed.

(** *** The store only grows *)

Lemma resolveCall_extends n data wfr s :
  extends (store s) (store (resolveCall n data wfr s)).
Proof.
  unfold resolveCall. pose proof (arrayify_extends data (store s)) as H.
  by destruct (arrayify data (store s)).
Qed.

Lemma close_fold_extends ns s :
  extends (store s)
    (store (fold_left (fun s n => resolveCall n VUndefined id s) ns s)).
Proof.
  revert s. induction ns as [|n ns IH]; intros s; [apply extends_refl|].
  simpl. eapply extends_trans; [apply resolveCall_extends | apply IH].
Qed.

Lemma step_extends s ev : extends (store s) (store (step s ev)).
Proof.
  destruct ev as [data transfer| |data|]; simpl.
  - unfold postOffer. destruct (offerPosted s); [apply extends_refl|].
    destruct (closingFired s); [|apply extends_refl].
    apply (resolveCall_extends _ _ _ (mk _ _ _ _ _ _ _)).
  - unfold postOfferThrew. destruct (offerPosted s); apply extends_refl.
  - unfold receive. destruct (onmessage s) as [n|]; [|apply extends_refl].
    destruct (calls s !! n) as [[[[|]|] ?]|]; try apply extends_refl.
    exact (resolveCall_extends n data (fun _ => Some false) s).
  - unfold close. destruct (closingFired s); [apply extends_refl|].
    apply (close_fold_extends _ (mk _ _ _ _ _ _ _)).
Qed.

Lemma run_extends s evs : extends (store s) (store (run s evs)).
Proof.
  revert s. induction evs as [|ev evs IH]; intros s; [apply extends_refl|].
  simpl. eapply extends_trans; [apply step_extends | apply IH].
Qed.

(** *** The first settlement of a promise is final *)

Lemma settle_settled {A} (p q : promise A) : p <> Pending -> settle p q = p.
Proof. by destruct p. Qed.

Lemma resolveCall_settled n' data wfr s n p :
  promiseOf s n = Some p -> p <> Pending ->
  promiseOf (resolveCall n' data wfr s) n = Some p.
Proof.
  unfold promiseOf, resolveCall. intros Hp Hne.
  destruct (arrayify data (store s)) as [arr h']. simpl.
  destruct (decide (n' = n)) as [->|Hn].
  - rewrite list_lookup_alter_eq.
    destruct (calls s !! n) as [c|]; [|done]. simpl in *.
    injection Hp as <-. by rewrite settle_settled.
  - by rewrite list_lookup_alter_ne.
Qed.

Lemma close_fold_settled ns s n p :
  promiseOf s n = Some p -> p <> Pending ->
  promiseOf (fold_left (fun s n => resolveCall n VUndefined id s) ns s) n = Some p.
Proof.
  revert s. induction ns as [|n' ns IH]; intros s Hp Hne; [done|].
  simpl. apply IH; [|done]. by apply resolveCall_settled.
Qed.

Lemma promiseOf_app s n p c :
  offered <$> calls s !! n = Some p -> offered <$> (calls s ++ [c]) !! n = Some p.
Proof.
  intros Hp. destruct (calls s !! n) as [c'|] eqn:Hc; [|done].
  by rewrite (lookup_app_l_Some _ _ _ _ Hc).
Qed.

Lemma step_settled s ev n p :
  promiseOf s n = Some p -> p <> Pending -> promiseOf (step s ev) n = Some p.
Proof.
  intros Hp Hne. destruct ev as [data transfer| |data|]; simpl.
  - unfold postOffer. destruct (offerPosted s).
    + by apply promiseOf_app.
    + destruct (closingFired s).
      * apply resolveCall_settled; [|done]. by apply promiseOf_app.
      * by apply promiseOf_app.
  - unfold postOfferThrew. destruct (offerPosted s); by apply promiseOf_app.
  - unfold receive. destruct (onmessage s) as [n'|]; [|done].
    destruct (calls s !! n') as [[[[|]|] ?]|]; try done.
    exact (resolveCall_settled n' data (fun _ => Some false) s n p Hp Hne).
  - unfold close. destruct (closingFired s); [done|].
    by apply close_fold_settled.
Qed.

Lemma run_settled s evs n p :
  promiseOf s n = Some p -> p <> Pending -> promiseOf (run s evs) n = Some p.
Proof.
  revert s. induction evs as [|ev evs IH]; intros s Hp Hne; [done|].
  simpl. apply IH; [|done]. by apply step_settled.
Qed.

(** *** After the offer, until the closing signal *)

Lemma postOffer_first h data transfer :
  awaiting (postOffer data transfer (performSend h)).
Proof. done. Qed.

Lemma postOffer_again data transfer s :
  awaiting s -> awaiting (postOffer data transfer s).
Proof.
  intros (Hp & Hc & Ht & H0). unfold postOffer. rewrite Hp.
  repeat split; simpl; try done. by apply lookup_app_l_Some.
Qed.

Lemma posts_awaiting (posts : list (value * list port)) s :
  awaiting s -> awaiting (run s ((fun dt => PostOffer dt.1 dt.2) <$> posts)).
Proof.
  revert s. induction posts as [|[d tr] posts IH]; intros s Hs; [done|].
  simpl. apply IH. by apply postOffer_again.
Qed.

Lemma close_awaiting s :
  awaiting s ->
  promiseOf (close s) 0 = Some (Resolved (VRef (length (store s))))
  /\ emptyDataArray (store (close s)) (VRef (length (store s)))
  /\ bound (store (close s)) (VRef (length (store s))).
Proof.
  intros (Hp & Hc & Ht & H0). unfold close. rewrite Hc, Ht.
  cbn [fold_left]. unfold resolveCall, promiseOf. cbn [store calls].
  pose proof (arrayify_empty (store s)) as He.
  rewrite arrayify_eq in *. cbn [fst snd] in *. cbn [store calls].
  rewrite list_lookup_alter_eq, H0. split; [done|]. split; [done|].
  cbn [bound]. rewrite length_app. simpl. lia.
Qed.

End Offering.

(** C6: once the offer has been posted, if the closing signal fires before
    any reply has arrived (further calls of [postOffer] may have happened
    in between), the promise of the offer is resolved with an empty
    DataArray; and whatever happens afterwards (a late reply, more posts,
    the signal again) the promise stays resolved with that same DataArray:
    it is never rejected and never takes the reply. *)
Theorem C6_closing_before_reply :
  forall (h : heap) (data : value) (transfer : list port)
         (posts : list (value * list port)) (later : list Send.event),
    let atClosing :=
      Send.run (Send.performSend h)
        (Send.PostOffer data transfer
           :: ((fun dt => Send.PostOffer dt.1 dt.2) <$> posts) ++ [Send.Closing]) in
    exists arr,
      Send.promiseOf atClosing 0 = Some (Resolved arr)
      /\ emptyDataArray (Send.store atClosing) arr
      /\ Send.promiseOf (Send.run atClosing later) 0 = Some (Resolved arr)
      /\ emptyDataArray (Send.store (Send.run atClosing later)) arr.
Proof.
  intros h data transfer posts later atClosing.
  assert (Hw : awaiting (Send.run (Send.postOffer data transfer (Send.performSend h))
                           ((fun dt => Send.PostOffer dt.1 dt.2) <$> posts))).
  { apply posts_awaiting, postOffer_first. }
  destruct (close_awaiting _ Hw) as (Hp & He & Hb).
  assert (Hclosed : atClosing
            = Send.close (Send.run (Send.postOffer data transfer (Send.performSend h))
                            ((fun dt => Send.PostOffer dt.1 dt.2) <$> posts))).
  { subst atClosing. simpl. by rewrite run_app. }
  rewrite <- Hclosed in Hp, He, Hb.
  eexists. split; [exact Hp|]. split; [exact He|]. split.
  - by apply run_settled.
  - eapply emptyDataArray_extends; [apply run_extends | exact Hb | exact He].
Qed.

Section SecondPost.

Import Send.

(** A call of [postOffer] after the offer has been posted is rejected and
    posts nothing, and the promises of the earlier calls are as they
    were; but the handler on [port.onmessage] is now the one of the
    rejected call. *)
Lemma postOffer_second data transfer s :
  offerPosted s = true ->
  let s' := postOffer data transfer s in
  promiseOf s' (length (calls s)) = Some (Rejected (RError OfferAlreadyPosted))
  /\ posted s' = posted s
  /\ (forall n, (n < length (calls s))%nat -> promiseOf s' n = promiseOf s n)
  /\ onmessage s' = Some (length (calls s)).
Proof.
  intros Hp. unfold postOffer, promiseOf. rewrite Hp. cbn [calls posted onmessage].
  split; [|split; [done|split; [|done]]].
  - by rewrite list_lookup_middle.
  - intros n Hn. by rewrite lookup_app_l.
Qed.

End SecondPost.

(** C2 (the code departs from the claim): after a first [postOffer], a
    second one is rejected with OfferAlreadyPosted, posts no message and
    leaves the first promise pending for the moment.  But it has replaced
    the handler on [port.onmessage] by its own, whose [waitingForResult]
    was never initialised: the reply that would have resolved the first
    promise (first line of the last conjunct) now changes nothing, and
    the first promise stays pending. *)
Theorem C2_second_post_loses_the_reply :
  forall (h : heap) (d1 d2 reply : value) (t1 t2 : list port),
    let s1 := Send.run (Send.performSend h) [Send.PostOffer d1 t1] in
    let s2 := Send.step s1 (Send.PostOffer d2 t2) in
    Send.promiseOf s2 1 = Some (Rejected (RError OfferAlreadyPosted))
    /\ Send.posted s2 = Send.posted s1
    /\ Send.promiseOf s2 0 = Some Pending
    /\ (let s := Send.step s1 (Send.Message reply) in
        Send.promiseOf s 0 = Some (Resolved (VRef (length h)))
        /\ elements (Send.store s) (VRef (length h)) = Some (concatInto h reply)
        /\ raw (Send.store s) (VRef (length h)) = reply)
    /\ Send.step s2 (Send.Message reply) = s2
    /\ Send.promiseOf (Send.step s2 (Send.Message reply)) 0 = Some Pending.
Proof.
  intros h d1 d2 reply t1 t2 s1 s2.
  split; [done|]. split; [done|]. split; [done|]. split; [|done].
  subst s1. cbn [Send.run fold_left Send.step Send.postOffer Send.performSend
                  Send.offerPosted Send.closingFired Send.calls Send.store
                  Send.closingThen Send.posted Send.onmessage length app].
  unfold Send.receive. cbn [Send.onmessage Send.calls lookup list_lookup].
  unfold Send.resolveCall, Send.promiseOf. cbn [Send.store Send.calls].
  pose proof (arrayify_elements reply h) as He.
  pose proof (arrayify_raw reply h) as Hr.
  rewrite arrayify_eq in *. cbn [fst snd] in *.
  cbn [Send.store Send.calls Send.offerPosted Send.onmessage Send.closingFired
       Send.closingThen Send.posted].
  done.
Qed.

(* ===================================================================== *)
(** ** The accepting role: [performRecv]                                  *)
(* ===================================================================== *)

Section Accepting.

Import Recv.

Lemma close_outcome s :
  closingFired s = false ->
  outcome (close s)
  = if waitingForCallback s then outcome s
    else settle (outcome s) (Resolved (resolveValue s)).
Proof. intros Hc. unfold close. by rewrite Hc. Qed.

Lemma close_ports s :
  closingFired s = false ->
  closedPorts (close s) = closedPorts s ++ default [] (ports s)
  /\ waitingForAck (close s) = false.
Proof. intros Hc. unfold close. by rewrite Hc. Qed.

Lemma performRecv_closed_at_once h :
  let s := run (performRecv h) [Closing] in
  outcome s = Resolved (VRef (length h))
  /\ emptyDataArray (store s) (VRef (length h)).
Proof.
  cbv zeta. unfold performRecv.
  pose proof (arrayify_empty h) as He. rewrite arrayify_eq in *.
  cbn [fst snd] in He. by cbn.
Qed.

End Accepting.

(** A basic acceptor end to end: the offer arrives, the reply is posted,
    the consumer settles with the offer data, and the acknowledgment
    resolves the receive operation with the DataArray of the offer. *)
Example basic_acceptor_exchange :
  let s1 := Recv.step (Recv.performRecv []) (Recv.Message (VStr "hello") []) in
  let s := Recv.run s1 (Recv.basicConsumer VUndefined s1 ++ [Recv.Message VNull []]) in
  Recv.outcome s = Resolved (VRef 1%nat)
  /\ elements (Recv.store s) (VRef 1%nat) = Some [VStr "hello"]
  /\ raw (Recv.store s) (VRef 1%nat) = VStr "hello"
  /\ Recv.posted s = [(VUndefined, []); (VNull, [])].
Proof. vm_compute. repeat split. Qed.

(** C3 (as amended): when the closing signal fires in the accepting role,
    the acknowledgment is no longer waited for and the ports that came
    with the offer are closed.  If the consumer's promise is not pending
    at that moment (no offer has been delivered yet, or the consumer has
    settled), the receive operation, if still pending, resolves at once
    with what the consumer has produced so far: the empty DataArray when
    no offer was delivered, the consumer's value when it has settled.  If
    the consumer's promise is still pending, the closing signal leaves
    the receive operation as it is. *)
Theorem C3_closing_in_accepting_role :
  (forall s : Recv.t,
      Recv.closingFired s = false ->
      let s' := Recv.step s Recv.Closing in
      (Recv.waitingForCallback s = false ->
       Recv.outcome s' = settle (Recv.outcome s) (Resolved (Recv.resolveValue s)))
      /\ (Recv.waitingForCallback s = true -> Recv.outcome s' = Recv.outcome s)
      /\ Recv.closedPorts s' = Recv.closedPorts s ++ default [] (Recv.ports s)
      /\ Recv.waitingForAck s' = false)
  /\ (forall h : heap,
         let s := Recv.run (Recv.performRecv h) [Recv.Closing] in
         exists arr, Recv.outcome s = Resolved arr /\ emptyDataArray (Recv.store s) arr)
  /\ (forall (h : heap) (data reply v : value) (evports : list port),
         let s := Recv.run (Recv.performRecv h)
                    [Recv.Message data evports; Recv.PostResult reply [];
                     Recv.CallbackFulfilled v; Recv.Closing] in
         Recv.outcome s = Resolved v /\ Recv.closedPorts s = evports)
  /\ (forall (h : heap) (data : value) (evports : list port),
         let s := Recv.run (Recv.performRecv h)
                    [Recv.Message data evports; Recv.Closing] in
         Recv.outcome s = Pending /\ Recv.closedPorts s = evports).
Proof.
  split; [|split; [|split]].
  - intros s Hc s'. subst s'. cbn [Recv.step].
    rewrite close_outcome by done.
    destruct (close_ports s Hc) as [Hp Ha].
    split; [by intros ->|]. split; [by intros ->|]. done.
  - intros h. destruct (performRecv_closed_at_once h) as [Ho He]. eauto.
  - intros h data reply v evports. cbv zeta. unfold Recv.performRecv.
    rewrite arrayify_eq. cbn [Recv.run fold_left Recv.step].
    unfold Recv.receive. cbn [Recv.waitingForOffer Recv.store].
    rewrite arrayify_eq. cbn.
    match goal with |- context [postable ?a ?b ?c] => destruct (postable a b c) end;
      by cbn.
  - intros h data evports. cbv zeta. unfold Recv.performRecv.
    rewrite arrayify_eq. cbn [Recv.run fold_left Recv.step].
    unfold Recv.receive. cbn [Recv.waitingForOffer Recv.store].
    rewrite arrayify_eq. by cbn.
Qed.

Lemma C3_closing_in_accepting_role_witness :
  let s := Recv.run (Recv.performRecv [])
             [Recv.Message (VStr "hi") [7%nat]; Recv.PostResult (VNum 1) [];
              Recv.CallbackFulfilled (VNum 9)] in
  let s' := Recv.step s Recv.Closing in
  Recv.closingFired s = false
  /\ Recv.waitingForCallback s = false
  /\ Recv.outcome s' = settle (Recv.outcome s) (Resolved (Recv.resolveValue s)).
Proof.
  cbv zeta. split; [reflexivity|]. split; [reflexivity|].
  exact (proj1 (proj1 C3_closing_in_accepting_role
                  (Recv.run (Recv.performRecv [])
                     [Recv.Message (VStr "hi") [7%nat]; Recv.PostResult (VNum 1) [];
                      Recv.CallbackFulfilled (VNum 9)])
                  eq_refl) eq_refl).
Defined.

(** C3, the stated claim fails: an offer has arrived with one port, the
    consumer's promise is pending and no acknowledgment has been received;
    the closing signal fires and the receive operation is still pending
    (the port is closed). *)
Lemma C3_closing_while_consumer_pending :
  let s := Recv.run (Recv.performRecv []) [Recv.Message (VStr "hi") [7%nat]] in
  let s' := Recv.step s Recv.Closing in
  Recv.waitingForAck s = true
  /\ Recv.waitingForCallback s = true
  /\ Recv.closingFired s = false
  /\ Recv.outcome s' = Pending
  /\ Recv.closedPorts s' = [7%nat].
Proof. vm_compute. repeat split. Qed.

(* ===================================================================== *)
(** ** [toCats]                                                           *)
(* ===================================================================== *)

Section ToCats.

Implicit Types (h hi : heap) (m f v : value) (ms forms : list value).
Implicit Types (cats : list Cat) (sd : side) (fs : list string).

(** *** Reads through bound references in a closed store *)

Lemma closed_get_prop h m k : closed h -> bound h (get_prop h m k).
Proof.
  intros Hcl. destruct m as [| | | | |l]; try done. simpl.
  destruct (h !! l) as [o|] eqn:Ho; [|done].
  destruct (oprops o !! k) as [v|] eqn:Hk; [|done]. simpl.
  pose proof (Forall_lookup_1 _ _ _ _ Hcl Ho) as [Hprops _].
  exact (Hprops k v Hk).
Qed.

Lemma closed_array_elems h v es :
  closed h -> array_elems h v = Some es -> Forall (bound h) es.
Proof.
  intros Hcl. destruct v as [| | | | |l]; try done. simpl.
  destruct (h !! l) as [[[|es'|] ps]|] eqn:Ho; try done.
  intros [= <-].
  pose proof (Forall_lookup_1 _ _ _ _ Hcl Ho) as [_ Hes]. exact Hes.
Qed.

Lemma closed_arrayOrSingleton h v :
  closed h -> bound h v -> Forall (bound h) (arrayOrSingleton h v).
Proof.
  intros Hcl Hb. unfold arrayOrSingleton.
  destruct (array_elems h v) as [es|] eqn:He.
  - by eapply closed_array_elems.
  - by constructor.
Qed.

Lemma extends_arrayOrSingleton h hi v :
  extends h hi -> bound h v -> arrayOrSingleton hi v = arrayOrSingleton h v.
Proof.
  intros Hext Hb. unfold arrayOrSingleton. by rewrite (extends_array_elems h hi v).
Qed.

Lemma extends_isObject h hi m :
  extends h hi -> bound h m -> isObject hi m = isObject h m.
Proof. intros Hext Hb. unfold isObject. by rewrite (extends_typeof h hi m). Qed.

Lemma extends_sideOf h hi m :
  extends h hi -> bound h m -> sideOf hi m = sideOf h m.
Proof. intros Hext Hb. unfold sideOf. by rewrite !(extends_get_prop h hi m). Qed.

Lemma extends_formsOf h hi m :
  closed h -> extends h hi -> bound h m -> formsOf hi m = formsOf h m.
Proof.
  intros Hcl Hext Hb. unfold formsOf. rewrite !(extends_get_prop h hi m) by done.
  apply extends_arrayOrSingleton; [done|].
  destruct (truthy _); by apply closed_get_prop.
Qed.

Lemma extends_connectorOf h hi m :
  closed h -> extends h hi -> bound h m -> connectorOf hi m = connectorOf h m.
Proof.
  intros Hcl Hext Hb. unfold connectorOf.
  rewrite (extends_has_prop h hi m), !(extends_get_prop h hi m) by done.
  rewrite (extends_typeof h hi (get_prop h m "connecting")); [done..|].
  by apply closed_get_prop.
Qed.

(** *** The inner loop *)

Lemma havingOf_extends h h1 h2 m v :
  extends h1 h2 -> havingOf h h1 m v -> havingOf h h2 m v.
Proof.
  intros Hext. unfold havingOf. destruct (truthy _); [done|].
  intros (l & -> & Hl & Hlook). exists l. repeat split; [done|].
  by eapply extends_lookup.
Qed.

Lemma catFrom_extends h h1 h2 cat e :
  extends h1 h2 -> catFrom h h1 cat e -> catFrom h h2 cat e.
Proof.
  intros Hext (H1 & H2 & H3 & H4). repeat split; try done.
  by eapply havingOf_extends.
Qed.

Lemma havingOrEmpty_spec h hi m :
  extends h hi -> bound h m ->
  extends hi (havingOrEmpty hi m).2
  /\ havingOf h (havingOrEmpty hi m).2 m (havingOrEmpty hi m).1.
Proof.
  intros Hext Hb. unfold havingOrEmpty, havingOf.
  rewrite (extends_get_prop h hi m) by done.
  destruct (truthy (get_prop h m "having")); simpl.
  - split; [apply extends_refl | done].
  - split; [by eexists|]. exists (length hi). repeat split.
    + by apply extends_length.
    + apply lookup_alloc_new.
Qed.

Lemma pushForms_err sd m connect forms cats hi :
  mapM asString forms = None ->
  pushForms sd m connect forms cats hi = Throw MatcherFormNotAString.
Proof.
  revert cats hi. induction forms as [|f forms IH]; intros cats hi; [done|].
  simpl. destruct f as [| | | |s|]; try done. simpl.
  destruct (mapM asString forms) as [fs|] eqn:Hfs; [done|]. intros _.
  destruct (havingOrEmpty hi m) as [hv h']. by apply IH.
Qed.

Lemma pushForms_ok h sd m connect forms fs cats hi :
  extends h hi -> bound h m ->
  mapM asString forms = Some fs ->
  exists news h',
    pushForms sd m connect forms cats hi = Ok (cats ++ news, h')
    /\ extends hi h'
    /\ Forall2 (fun cat s => cat_side cat = sd /\ cat_form cat = s
                             /\ cat_connect cat = connect
                             /\ havingOf h h' m (cat_having cat)) news fs.
Proof.
  intros Hext Hb. revert fs cats hi Hext.
  induction forms as [|f forms IH]; intros fs cats hi Hext Hfs.
  - injection Hfs as <-. exists [], hi. rewrite app_nil_r.
    split; [done|]. split; [apply extends_refl | constructor].
  - simpl in Hfs. destruct f as [| | | |s|]; try done. simpl in Hfs.
    destruct (mapM asString forms) as [fs'|] eqn:Hfs'; [|done].
    injection Hfs as <-. simpl.
    destruct (havingOrEmpty_spec h hi m Hext Hb) as [Hext1 Hhv].
    destruct (havingOrEmpty hi m) as [hv h1]. simpl in *.
    destruct (IH fs' (cats ++ [mkCat sd s hv connect]) h1) as (news & h' & Heq & Hext2 & Hall);
      [by eapply extends_trans | done |].
    exists (mkCat sd s hv connect :: news), h'.
    split; [by rewrite Heq, <- app_assoc|].
    split; [by eapply extends_trans|].
    constructor; [|done]. repeat split. by eapply havingOf_extends.
Qed.

(** *** One round of the outer loop, read in the initial store *)

Lemma toCatsLoop_cons h hi m ms cats :
  closed h -> extends h hi -> bound h m ->
  toCatsLoop (m :: ms) cats hi
  = if negb (isObject h m) then Throw MatcherNotAnObject
    else match sideOf h m with
         | None => Throw MatcherDoesNotHaveAcceptingXorOffering
         | Some sd =>
             '(cats', h') ← pushForms sd m (connectorOf h m) (formsOf h m) cats hi;
             toCatsLoop ms cats' h'
         end.
Proof.
  intros Hcl Hext Hb. cbn [toCatsLoop].
  rewrite <- negb_andb. fold (isObject hi m).
  rewrite (extends_isObject h hi m) by done.
  destruct (isObject h m); [|done]. cbn [negb].
  pose proof (extends_sideOf h hi m Hext Hb) as Hside.
  pose proof (extends_formsOf h hi m Hcl Hext Hb) as Hforms.
  pose proof (extends_connectorOf h hi m Hcl Hext Hb) as Hconn.
  unfold sideOf, formsOf in *. rewrite Hconn.
  rewrite !(extends_get_prop h hi m) in * by done.
  destruct (truthy (get_prop h m "accepting")), (truthy (get_prop h m "offering"));
    cbn [Bool.eqb]; try done; by rewrite Hforms.
Qed.

Lemma expected_cons h m ms :
  expected h (m :: ms)
  = match expand h m with
    | Ok (sd, fs) => (fun s => (m, sd, s)) <$> fs
    | Throw _ => []
    end ++ expected h ms.
Proof. unfold expected. by rewrite bind_cons. Qed.

Lemma validIntent_expand h m :
  validIntent h m -> exists sd fs,
    expand h m = Ok (sd, fs) /\ sideOf h m = Some sd
    /\ mapM asString (formsOf h m) = Some fs.
Proof.
  intros (Hobj & [sd Hsd] & Hforms). unfold expand. rewrite Hobj, Hsd. simpl.
  destruct (mapM asString (formsOf h m)) as [fs|] eqn:Hfs; [by eauto|].
  exfalso. apply mapM_None in Hfs. apply Exists_exists in Hfs as (f & Hin & Hf).
  pose proof (proj1 (Forall_forall _ _) Hforms f Hin) as [s Hs]. congruence.
Qed.

Lemma toCatsLoop_ok h ms : forall cats hi,
  closed h -> extends h hi -> Forall (bound h) ms -> Forall (validIntent h) ms ->
  exists news h',
    toCatsLoop ms cats hi = Ok (cats ++ news, h')
    /\ extends hi h'
    /\ Forall2 (catFrom h h') news (expected h ms).
Proof.
  induction ms as [|m ms IH]; intros cats hi Hcl Hext Hbs Hvs.
  - exists [], hi. rewrite app_nil_r. split; [done|].
    split; [apply extends_refl | constructor].
  - apply Forall_cons in Hbs as [Hb Hbs]. apply Forall_cons in Hvs as [Hv Hvs].
    destruct (validIntent_expand h m Hv) as (sd & fs & Hexp & Hsd & Hfs).
    rewrite (toCatsLoop_cons h) by done.
    destruct Hv as (Hobj & _ & _). rewrite Hobj, Hsd. cbn [negb].
    destruct (pushForms_ok h sd m (connectorOf h m) (formsOf h m) fs cats hi Hext Hb Hfs)
      as (news1 & h1 & Heq1 & Hext1 & Hall1).
    rewrite Heq1. cbn [mbind result_bind].
    destruct (IH (cats ++ news1) h1 Hcl (extends_trans _ _ _ Hext Hext1) Hbs Hvs)
      as (news2 & h2 & Heq2 & Hext2 & Hall2).
    exists (news1 ++ news2), h2. split; [by rewrite Heq2, <- app_assoc|].
    split; [by eapply extends_trans|].
    rewrite expected_cons, Hexp. apply Forall2_app; [|done].
    apply Forall2_fmap_r.
    eapply Forall2_impl; [exact Hall1|].
    intros cat s (H1 & H2 & H3 & H4). repeat split; try done.
    by eapply havingOf_extends.
Qed.

Lemma toCatsLoop_err h pre m post e : forall cats hi,
  closed h -> extends h hi -> Forall (bound h) (pre ++ m :: post) ->
  Forall (validIntent h) pre -> expand h m = Throw e ->
  toCatsLoop (pre ++ m :: post) cats hi = Throw e.
Proof.
  induction pre as [|m0 pre IH]; intros cats hi Hcl Hext Hbs Hvs Hexp.
  - cbn [app] in *. apply Forall_cons in Hbs as [Hb Hbs].
    rewrite (toCatsLoop_cons h) by done. unfold expand in Hexp.
    destruct (negb (isObject h m)); [congruence|].
    destruct (sideOf h m) as [sd|]; [|congruence].
    destruct (mapM asString (formsOf h m)) as [fs|] eqn:Hfs; [done|].
    rewrite pushForms_err by done. simpl. congruence.
  - rewrite <- app_comm_cons in *.
    apply Forall_cons in Hbs as [Hb Hbs]. apply Forall_cons in Hvs as [Hv Hvs].
    destruct (validIntent_expand h m0 Hv) as (sd & fs & _ & Hsd & Hfs).
    rewrite (toCatsLoop_cons h) by done.
    destruct Hv as (Hobj & _ & _). rewrite Hobj, Hsd. cbn [negb].
    destruct (pushForms_ok h sd m0 (connectorOf h m0) (formsOf h m0) fs cats hi Hext Hb Hfs)
      as (news1 & h1 & Heq1 & Hext1 & _).
    rewrite Heq1. cbn [mbind result_bind]. apply IH; try done.
    by eapply extends_trans.
Qed.

End ToCats.

(** C7 (as amended): [toCats] goes through the intents in declared order
    and fails at the first that does not pass: with MatcherNotAnObject if
    it is not a non-null object; with
    MatcherDoesNotHaveAcceptingXorOffering unless exactly one of its
    [accepting] / [offering] properties is truthy (a property holding the
    empty string, [0], [false] or [null] counts as absent); with
    MatcherFormNotAString if one of its forms is not a string.  When every
    intent passes, it returns one Cat per form, in declared order with the
    forms of an intent expanded in place; each Cat has the intent's side
    and connect behaviour, and as [having] the intent's [having] when that
    is truthy and a new empty object otherwise. *)
Theorem C7_toCats :
  forall (h : heap) (matching : value),
    closed h -> bound h matching ->
    let ms := arrayOrSingleton h matching in
    (forall pre m post,
        ms = pre ++ m :: post -> Forall (validIntent h) pre ->
        (isObject h m = false -> toCats matching h = Throw MatcherNotAnObject)
        /\ (isObject h m = true -> sideOf h m = None ->
            toCats matching h = Throw MatcherDoesNotHaveAcceptingXorOffering)
        /\ (isObject h m = true -> is_Some (sideOf h m) ->
            Exists (fun f => asString f = None) (formsOf h m) ->
            toCats matching h = Throw MatcherFormNotAString))
    /\ (Forall (validIntent h) ms ->
        exists cats h',
          toCats matching h = Ok (cats, h')
          /\ extends h h'
          /\ Forall2 (catFrom h h') cats (expected h ms)).
Proof.
  intros h matching Hcl Hb ms.
  assert (Hbs : Forall (bound h) ms) by by apply closed_arrayOrSingleton.
  split.
  - intros pre m post Hms Hpre. unfold toCats. fold ms. rewrite Hms in *.
    assert (Herr : forall e, expand h m = Throw e ->
                     toCatsLoop (pre ++ m :: post) [] h = Throw e).
    { intros e He. apply (toCatsLoop_err h); first [done | apply extends_refl]. }
    split; [|split].
    + intros Hobj. apply Herr. unfold expand. by rewrite Hobj.
    + intros Hobj Hsd. apply Herr. unfold expand. by rewrite Hobj, Hsd.
    + intros Hobj [sd Hsd] Hf. apply Herr. unfold expand. rewrite Hobj, Hsd. simpl.
      apply mapM_None in Hf. by rewrite Hf.
  - intros Hvs. unfold toCats. fold ms.
    destruct (toCatsLoop_ok h ms [] h Hcl (extends_refl h) Hbs Hvs)
      as (news & h' & Heq & Hext & Hall).
    by exists news, h'.
Qed.

Lemma C7_toCats_witness :
  let h := [Obj KObject {["accepting" := VStr "text"]};
            Obj (KArray [VStr "image"; VStr "video"]) ∅;
            Obj KObject {["offering" := VRef 1%nat; "having" := VNum 7]};
            Obj (KArray [VRef 0%nat; VRef 2%nat]) ∅] in
  closed h /\ bound h (VRef 3%nat)
  /\ exists cats h',
       toCats (VRef 3%nat) h = Ok (cats, h')
       /\ extends h h'
       /\ Forall2 (catFrom h h') cats (expected h [VRef 0%nat; VRef 2%nat]).
Proof.
  cbv zeta.
  assert (Hcl : closed [Obj KObject {["accepting" := VStr "text"]};
                        Obj (KArray [VStr "image"; VStr "video"]) ∅;
                        Obj KObject {["offering" := VRef 1%nat; "having" := VNum 7]};
                        Obj (KArray [VRef 0%nat; VRef 2%nat]) ∅]).
  { apply (bool_decide_unpack _). vm_compute. exact I. }
  split; [exact Hcl|]. split; [simpl; lia|].
  apply (proj2 (C7_toCats _ (VRef 3%nat) Hcl ltac:(simpl; lia))).
  repeat constructor; try (by vm_compute); by eexists.
Defined.

(** C7, the stated claim fails, because [toCats] tests the two role
    properties for truthiness and not for presence.  The intent
    [{accepting: ""}] is an object with exactly one of the two properties
    present, and its form is a string, yet [toCats] fails with the side
    error instead of returning a Cat.  The intent
    [{accepting: "x", offering: ""}] has both properties present, yet
    [toCats] returns the Cat accepting "x". *)
Lemma C7_presence_is_not_what_is_tested :
  let h := [Obj KObject {["accepting" := VStr ""]};
            Obj KObject {["accepting" := VStr "x"; "offering" := VStr ""]}] in
  (has_prop h (VRef 0%nat) "accepting" = true
   /\ has_prop h (VRef 0%nat) "offering" = false
   /\ typeof h (get_prop h (VRef 0%nat) "accepting") = TString
   /\ toCats (VRef 0%nat) h = Throw MatcherDoesNotHaveAcceptingXorOffering)
  /\ (has_prop h (VRef 1%nat) "accepting" = true
      /\ has_prop h (VRef 1%nat) "offering" = true
      /\ (fun r => match r with
                   | Ok (cats, _) => Some ((fun c => (cat_side c, cat_form c)) <$> cats)
                   | Throw _ => None
                   end) (toCats (VRef 1%nat) h)
         = Some [(accepting, "x")]).
Proof. vm_compute. repeat split. Qed.

(* ===================================================================== *)
(** ** [parseOrigin]                                                      *)
(* ===================================================================== *)

Section ParseOrigin.

Import Origin.

Implicit Types (s a b url rest : string) (p : ascii -> bool).

Lemma append_cons x a b : String x a +:+ b = String x (a +:+ b).
Proof. reflexivity. Qed.

Lemma append_empty_l b : EmptyString +:+ b = b.
Proof. reflexivity. Qed.

Lemma append_empty_r a : a +:+ EmptyString = a.
Proof. induction a as [|x a IH]; [done|]. by rewrite append_cons, IH. Qed.

Lemma append_assoc a b c : (a +:+ b) +:+ c = a +:+ (b +:+ c).
Proof. induction a as [|x a IH]; [done|]. by rewrite !append_cons, IH. Qed.

Lemma span_split p s : s = (span p s).1 +:+ (span p s).2.
Proof.
  induction s as [|c s IH]; [done|]. cbn [span].
  destruct (p c); [|done]. destruct (span p s) as [a b]. cbn [fst snd] in *.
  by rewrite append_cons, <- IH.
Qed.

Lemma span_all p s : allChars p (span p s).1 = true.
Proof.
  induction s as [|c s IH]; [done|]. cbn [span].
  destruct (p c) eqn:Hc; [|done]. destruct (span p s) as [a b]. cbn [fst snd] in *.
  cbn [allChars]. by rewrite Hc.
Qed.

(** What follows the span is empty or starts outside the class. *)
Lemma span_stops p s :
  match (span p s).2 with
  | EmptyString => True
  | String c _ => p c = false
  end.
Proof.
  induction s as [|c s IH]; [done|]. cbn [span].
  destruct (p c) eqn:Hc; [|done]. by destruct (span p s) as [a b].
Qed.

Lemma span_append p a b :
  allChars p a = true ->
  match b with EmptyString => True | String c _ => p c = false end ->
  span p (a +:+ b) = (a, b).
Proof.
  intros Ha Hb. induction a as [|x a IH].
  - rewrite append_empty_l. destruct b as [|c b]; [done|]. cbn [span]. by rewrite Hb.
  - cbn [allChars] in Ha. apply andb_true_iff in Ha as [Hx Ha].
    rewrite append_cons. cbn [span]. by rewrite Hx, IH.
Qed.

Lemma afterSeparator_Some rest rest' :
  afterSeparator rest = Some rest' -> rest = "://" +:+ rest'.
Proof.
  destruct rest as [|c1 [|c2 [|c3 r]]]; try done.
  - cbn. destruct c1 as [[] [] [] [] [] [] [] []]; done.
  - cbn. destruct c1 as [[] [] [] [] [] [] [] []]; try done.
    destruct c2 as [[] [] [] [] [] [] [] []]; done.
  - cbn. destruct c1 as [[] [] [] [] [] [] [] []]; try done.
    destruct c2 as [[] [] [] [] [] [] [] []]; try done.
    destruct c3 as [[] [] [] [] [] [] [] []]; try done.
    by intros [= ->].
Qed.

Lemma originMatch_shape url o :
  originMatch url = Some o ->
  isOrigin o /\ exists rest, url = o +:+ rest /\ pathLike rest.
Proof.
  unfold originMatch.
  pose proof (span_split schemeChar url) as Hsplit.
  pose proof (span_all schemeChar url) as Hall.
  destruct (span schemeChar url) as [scheme rest]. cbn [fst snd] in *.
  case_bool_decide as Hs; [done|].
  destruct (afterSeparator rest) as [rest'|] eqn:Hsep; [|done].
  apply afterSeparator_Some in Hsep as Hrest.
  pose proof (span_split hostChar rest') as Hsplit'.
  pose proof (span_all hostChar rest') as Hall'.
  pose proof (span_stops hostChar rest') as Hstop.
  destruct (span hostChar rest') as [host rest'']. cbn [fst snd] in *.
  case_bool_decide as Hh; [done|]. intros [= <-]. split.
  - by exists scheme, host.
  - exists rest''. split.
    + rewrite Hsplit, Hrest, Hsplit'. by rewrite !append_assoc.
    + destruct rest'' as [|c r]; [by left|]. right. exists r.
      unfold hostChar in Hstop. apply negb_false_iff, bool_decide_eq_true in Hstop.
      by rewrite Hstop.
Qed.

Lemma originMatch_origin o rest :
  isOrigin o -> pathLike rest -> originMatch (o +:+ rest) = Some o.
Proof.
  intros (scheme & host & -> & Hs & Hsa & Hh & Hha) Hrest.
  unfold originMatch. rewrite !append_assoc.
  rewrite (span_append schemeChar scheme) by done.
  rewrite bool_decide_eq_false_2 by done.
  change (afterSeparator ("://" +:+ host +:+ rest)) with (Some (host +:+ rest)).
  cbv beta iota.
  rewrite (span_append hostChar host); [by rewrite bool_decide_eq_false_2|done|].
  destruct Hrest as [->|[r ->]]; done.
Qed.

Lemma parseOrigin_empty_or_origin url relativeTo :
  parseOrigin url relativeTo = EmptyString \/ isOrigin (parseOrigin url relativeTo).
Proof.
  unfold parseOrigin, parseOriginOf.
  destruct (originMatch url) as [o|] eqn:Hm.
  - right. by apply originMatch_shape in Hm as [? _].
  - destruct relativeTo as [r|]; [|by left].
    case_bool_decide; [by left|].
    destruct (originMatch r) as [o|] eqn:Hr; [|by left].
    right. by apply originMatch_shape in Hr as [? _].
Qed.

End ParseOrigin.

(** X1: what [parseOrigin] returns is the empty string or an origin
    [scheme://host]; when the URL itself has an origin, the result is a
    prefix of the URL, followed there by nothing or by a slash, whatever
    [relativeTo] is. *)
Theorem X1_parseOrigin_shape :
  forall (url : string) (relativeTo : option string),
    (Origin.parseOrigin url relativeTo = EmptyString
     \/ isOrigin (Origin.parseOrigin url relativeTo))
    /\ (forall o, Origin.originMatch url = Some o ->
          Origin.parseOrigin url relativeTo = o
          /\ exists rest, url = o +:+ rest /\ pathLike rest).
Proof.
  intros url relativeTo. split.
  - apply parseOrigin_empty_or_origin.
  - intros o Hm. unfold Origin.parseOrigin. rewrite Hm. split; [done|].
    by apply originMatch_shape in Hm as [_ ?].
Qed.

(** X2: an origin followed by nothing or by a path that starts with a
    slash parses back to that origin, whatever [relativeTo] is. *)
Theorem X2_parseOrigin_of_origin_and_path :
  forall (o rest : string) (relativeTo : option string),
    isOrigin o -> pathLike rest ->
    Origin.parseOrigin (o +:+ rest) relativeTo = o.
Proof.
  intros o rest relativeTo Ho Hrest. unfold Origin.parseOrigin.
  by rewrite originMatch_origin.
Qed.

Lemma X2_parseOrigin_of_origin_and_path_witness :
  isOrigin "https://example.com" /\ pathLike "/a/b?c"
  /\ Origin.parseOrigin "https://example.com/a/b?c" (Some "http://other.example")
     = "https://example.com".
Proof.
  assert (Ho : isOrigin "https://example.com").
  { exists "https", "example.com". repeat split; done. }
  assert (Hp : pathLike "/a/b?c") by (right; by eexists).
  split; [exact Ho|]. split; [exact Hp|].
  exact (X2_parseOrigin_of_origin_and_path "https://example.com" "/a/b?c"
           (Some "http://other.example") Ho Hp).
Defined.

(** X3: [parseOrigin] is idempotent: parsing what it returned gives the
    same string back; when an origin was found this holds with any
    [relativeTo] in the second call. *)
Theorem X3_parseOrigin_idempotent :
  forall (url : string) (relativeTo : option string),
    Origin.parseOrigin (Origin.parseOrigin url relativeTo) None
    = Origin.parseOrigin url relativeTo
    /\ (Origin.parseOrigin url relativeTo <> EmptyString ->
        forall again,
          Origin.parseOrigin (Origin.parseOrigin url relativeTo) again
          = Origin.parseOrigin url relativeTo).
Proof.
  intros url relativeTo.
  assert (Hfix : forall o rel, isOrigin o -> Origin.parseOrigin o rel = o).
  { intros o rel Ho.
    pose proof (originMatch_origin o EmptyString Ho (or_introl eq_refl)) as Hm.
    rewrite append_empty_r in Hm. unfold Origin.parseOrigin. by rewrite Hm. }
  destruct (parseOrigin_empty_or_origin url relativeTo) as [He|Ho].
  - rewrite He. split; [reflexivity | done].
  - split; [by apply Hfix|]. intros _ again. by apply Hfix.
Qed.

Lemma X3_parseOrigin_idempotent_witness :
  Origin.parseOrigin "/relative/path" (Some "https://example.com/app") <> EmptyString
  /\ Origin.parseOrigin
       (Origin.parseOrigin "/relative/path" (Some "https://example.com/app"))
       (Some "http://other.example")
     = Origin.parseOrigin "/relative/path" (Some "https://example.com/app").
Proof.
  assert (Hne : Origin.parseOrigin "/relative/path" (Some "https://example.com/app")
                <> EmptyString) by (vm_compute; discriminate).
  split; [exact Hne|].
  exact (proj2 (X3_parseOrigin_idempotent "/relative/path" (Some "https://example.com/app"))
           Hne (Some "http://other.example")).
Defined.

(* ===================================================================== *)
(** ** More on the exchange                                               *)
(* ===================================================================== *)

Section OfferingMore.

Import Send.

Implicit Types (s : t) (n : nat) (ev : event).









End OfferingMore.


Section AcceptingMore.

Import Recv.

Implicit Types (s : t) (ev : event).

Lemma step_budget s ev : (recvBudget (step s ev) <= recvBudget s)%nat.
Proof.
  unfold recvBudget, b2n.
  destruct s as [h wo wc wa rv ps wr prp od out po cp cf].
  destruct ev as [data evports|data transfer|v|r|r|]; cbn [step];
    unfold receive, callbackFulfilled, postResult, callbackRejected, consumerThrew, close;
    cbn [waitingForResult waitingForAck posted waitingForOffer closingFired store];
    try destruct (arrayify data h);
    try destruct (postable h data transfer);
    destruct wo, wr, wa, cf;
    cbn; rewrite ?length_app; cbn; lia.
Qed.

Lemma run_budget s evs : (recvBudget (run s evs) <= recvBudget s)%nat.
Proof.
  revert s. induction evs as [|ev evs IH]; intros s; [done|].
  cbn. etrans; [apply IH | apply step_budget].
Qed.

Lemma step_posted_result s ev :
  waitingForResult s = false -> waitingForResult (step s ev) = false.
Proof.
  intros Hw. destruct ev as [data evports|data transfer|v|r|r|]; cbn [step].
  - unfold receive. destruct (waitingForOffer s).
    + by destruct (arrayify data (store s)).
    + by destruct (waitingForAck s).
  - unfold postResult. by rewrite Hw.
  - unfold callbackFulfilled, postResult. cbn. rewrite Hw. cbn.
    by destruct (waitingForAck s).
  - done.
  - done.
  - unfold close. by destruct (closingFired s).
Qed.

Lemma run_posted_result s evs :
  waitingForResult s = false -> waitingForResult (run s evs) = false.
Proof.
  revert s. induction evs as [|ev evs IH]; intros s Hs; [done|].
  cbn. by apply IH, step_posted_result.
Qed.

Lemma postResult_posts data transfer s :
  waitingForResult (postResult data transfer s).2 = false.
Proof.
  unfold postResult. destruct (waitingForResult s) eqn:E; [|done].
  by destruct (postable (store s) data transfer).
Qed.

(** While the consumer is at work the receive operation stays pending. *)
Lemma step_quiet s ev :
  quiet ev = true ->
  waitingForOffer s = false -> waitingForCallback s = true -> outcome s = Pending ->
  waitingForOffer (step s ev) = false /\ waitingForCallback (step s ev) = true
  /\ outcome (step s ev) = Pending.
Proof.
  intros Hq Ho Hc Hp. destruct ev as [data evports|data transfer|v|r|r|]; try done;
    cbn [step].
  - unfold receive. rewrite Ho. destruct (waitingForAck s); [|done]. cbn. by rewrite Hc.
  - unfold postResult. destruct (waitingForResult s); [|done].
    by destruct (postable (store s) data transfer).
  - unfold close. destruct (closingFired s); [done|]. cbn. by rewrite Hc.
Qed.

Lemma run_quiet s evs :
  Forall (fun ev => quiet ev = true) evs ->
  waitingForOffer s = false -> waitingForCallback s = true -> outcome s = Pending ->
  waitingForOffer (run s evs) = false /\ waitingForCallback (run s evs) = true
  /\ outcome (run s evs) = Pending.
Proof.
  revert s. induction evs as [|ev evs IH]; intros s Hq Ho Hc Hp; [done|].
  apply Forall_cons in Hq as [Hq Hqs].
  destruct (step_quiet s ev Hq Ho Hc Hp) as (Ho' & Hc' & Hp').
  cbn. by apply IH.
Qed.

Lemma receive_offer h data evports :
  let s := step (performRecv h) (Message data evports) in
  waitingForOffer s = false /\ waitingForCallback s = true /\ outcome s = Pending
  /\ offerData s = Some (VRef (S (length h)))
  /\ elements (store s) (VRef (S (length h)))
     = Some (concatInto (store (performRecv h)) data)
  /\ raw (store s) (VRef (S (length h))) = data
  /\ posted s = [] /\ waitingForResult s = true /\ waitingForAck s = true
  /\ postResultPromise s = Pending /\ closingFired s = false.
Proof.
  cbv zeta. unfold performRecv. rewrite arrayify_eq. cbn [step].
  unfold receive. cbn [waitingForOffer store].
  pose proof (arrayify_elements data
                (h ++ [Obj (KArray (concatInto h VUndefined)) {["raw" := VUndefined]}])) as He.
  pose proof (arrayify_raw data
                (h ++ [Obj (KArray (concatInto h VUndefined)) {["raw" := VUndefined]}])) as Hr.
  rewrite arrayify_eq in *. cbn [fst snd] in *.
  rewrite length_app in *. cbn [length] in *.
  replace (length h + 1)%nat with (S (length h)) in * by lia.
  cbn. done.
Qed.

(** The basic consumer and the acknowledgment, from the state in which
    the offer has just been taken. *)
Lemma basic_exchange s replying ack ackports arr :
  waitingForOffer s = false -> waitingForCallback s = true ->
  waitingForAck s = true -> waitingForResult s = true ->
  outcome s = Pending -> postResultPromise s = Pending -> posted s = [] ->
  offerData s = Some arr ->
  let s' := run s (basicConsumer replying s ++ [Message ack ackports]) in
  store s' = store s
  /\ if cloneable (store s) replying
     then outcome s' = Resolved arr
          /\ posted s' = [(replying, []); (VNull, [])]
          /\ postResultPromise s' = Resolved true
     else outcome s' = Rejected (RError DataCloneError)
          /\ posted s' = [(VNull, [])].
Proof.
  destruct s as [h wo wc wa rv ps wr prp od out po cp cf]. cbn.
  intros -> -> -> -> -> -> -> ->.
  unfold basicConsumer, postResult, postable. cbn.
  destruct (cloneable h replying) eqn:Hcl; cbn;
    unfold postResult, postable; cbn; rewrite Hcl; cbn; done.
Qed.

End AcceptingMore.

(** X6: in the accepting role, whatever happens, [performRecv] posts at
    most two messages on the port (the result and the acknowledgment). *)
Theorem X6_recv_posts_at_most_two :
  forall (h : heap) (evs : list Recv.event),
    (length (Recv.posted (Recv.run (Recv.performRecv h) evs)) <= 2)%nat.
Proof.
  intros h evs.
  pose proof (run_budget (Recv.performRecv h) evs) as H.
  assert (H0 : recvBudget (Recv.performRecv h) = 2%nat).
  { unfold Recv.performRecv. by rewrite arrayify_eq. }
  unfold recvBudget in H at 1. lia.
Qed.

(** X7: [postResult] works once: after a first call of [postResult]
    (whether or not the port took its message), every call of
    [postResult], whenever it comes, returns a promise rejected with
    ResultAlreadyPosted and changes nothing. *)
Theorem X7_postResult_only_once :
  forall (s : Recv.t) (d1 d2 : value) (t1 t2 : list port) (evs : list Recv.event),
    let s' := Recv.run (Recv.step s (Recv.PostResult d1 t1)) evs in
    Recv.postResult d2 t2 s' = (Ok (Rejected (RError ResultAlreadyPosted)), s').
Proof.
  intros s d1 d2 t1 t2 evs s'.
  assert (Hw : Recv.waitingForResult s' = false).
  { apply run_posted_result. cbn [Recv.step]. apply postResult_posts. }
  unfold Recv.postResult. by rewrite Hw.
Qed.

(** X9: once the offer has arrived, nothing but the consumer settling
    decides the receive operation: through acknowledgments, posted
    results and the closing signal it stays pending; and when the
    consumer's promise then rejects, the operation rejects with the same
    reason, even if a result was posted. *)
Theorem X9_recv_waits_for_the_consumer :
  forall (h : heap) (data : value) (evports : list port)
         (mid : list Recv.event) (r : reason),
    Forall (fun ev => quiet ev = true) mid ->
    let s := Recv.run (Recv.performRecv h) (Recv.Message data evports :: mid) in
    Recv.outcome s = Pending
    /\ Recv.outcome (Recv.step s (Recv.CallbackRejected r)) = Rejected r.
Proof.
  intros h data evports mid r Hq s.
  destruct (receive_offer h data evports) as (Ho & Hc & Hp & _).
  destruct (run_quiet _ mid Hq Ho Hc Hp) as (_ & _ & Hp').
  subst s.
  change (Recv.run (Recv.performRecv h) (Recv.Message data evports :: mid))
    with (Recv.run (Recv.step (Recv.performRecv h) (Recv.Message data evports)) mid).
  set (s' := Recv.run _ mid) in *.
  split; [done|].
  change (settle (Recv.outcome s') (Rejected r) = Rejected r). by rewrite Hp'.
Qed.

Lemma X9_recv_waits_for_the_consumer_witness :
  let mid := [Recv.PostResult (VNum 1) []; Recv.Message VNull []; Recv.Closing] in
  let s := Recv.run (Recv.performRecv []) (Recv.Message (VStr "hi") [7%nat] :: mid) in
  Forall (fun ev => quiet ev = true) mid
  /\ Recv.outcome s = Pending
  /\ Recv.outcome (Recv.step s (Recv.CallbackRejected (RValue (VStr "no"))))
     = Rejected (RValue (VStr "no")).
Proof.
  cbv zeta.
  assert (Hq : Forall (fun ev => quiet ev = true)
                 [Recv.PostResult (VNum 1) []; Recv.Message VNull []; Recv.Closing])
    by (repeat constructor).
  split; [exact Hq|].
  exact (X9_recv_waits_for_the_consumer [] (VStr "hi") [7%nat] _ (RValue (VStr "no")) Hq).
Defined.

(** X10: a basic acceptor, from offer to acknowledgment: the offer
    arrives, the consumer posts the reply and settles, the acknowledgment
    arrives.  When the reply can be cloned, the receive operation resolves
    with the DataArray of the offer (the offer spread, [raw] the offer
    itself); the port carried the reply and then the answer [null] to the
    acknowledgment, and the promise of [postResult] resolved [true].
    When the reply cannot be cloned, [postResult] throws inside the
    consumer and the receive operation is rejected with the
    DataCloneError; the reply is never posted. *)
Theorem X10_basic_acceptor_exchange :
  forall (h : heap) (data replying ack : value) (evports ackports : list port),
    let s0 := Recv.performRecv h in
    let s1 := Recv.step s0 (Recv.Message data evports) in
    let s := Recv.run s1 (Recv.basicConsumer replying s1
                            ++ [Recv.Message ack ackports]) in
    if cloneable (Recv.store s1) replying then
      exists arr,
        Recv.outcome s = Resolved arr
        /\ elements (Recv.store s) arr = Some (concatInto (Recv.store s0) data)
        /\ raw (Recv.store s) arr = data
        /\ Recv.posted s = [(replying, []); (VNull, [])]
        /\ Recv.postResultPromise s = Resolved true
    else
      Recv.outcome s = Rejected (RError DataCloneError)
      /\ Recv.posted s = [(VNull, [])].
Proof.
  intros h data replying ack evports ackports s0 s1 s.
  destruct (receive_offer h data evports)
    as (Ho & Hc & Hp & Hd & He & Hr & Hpo & Hw & Ha & Hpr & _).
  fold s0 s1 in Ho, Hc, Hp, Hd, He, Hr, Hpo, Hw, Ha, Hpr.
  destruct (basic_exchange s1 replying ack ackports _ Ho Hc Ha Hw Hp Hpr Hpo Hd)
    as [Hst Hres].
  fold s in Hst, Hres.
  destruct (cloneable (Recv.store s1) replying).
  - destruct Hres as (H1 & H2 & H3). exists (VRef (S (length h))).
    rewrite Hst. done.
  - done.
Qed.

(* ===================================================================== *)
(** ** More on the requester session                                      *)
(* ===================================================================== *)

Section RequesterMore.

Import ModalRequest Requester.

Implicit Types (z : ZImpl) (h : heap) (ev : event) (a : action).

Lemma o_not_created matching env z h :
  state z <> created -> o matching env z h = (Rejected (RError AlreadyOpened), z, h).
Proof. intros Hs. unfold o. by rewrite bool_decide_eq_false_2. Qed.

(** Once [open] has run, the session is open, or complete if the call
    cancelled this very session. *)
Lemma o_state matching env z h :
  state z = created ->
  state (o matching env z h).1.2 = open
  \/ (isCurrent z = true /\ state (o matching env z h).1.2 = complete).
Proof.
  intros Hs. unfold o. rewrite bool_decide_eq_true_2 by done. cbn [negb isCurrent].
  destruct (isCurrent z) eqn:Hcur.
  - right. split; [done|].
    destruct (xThrows _); cbn [fst snd state]; [apply x_complete|].
    destruct (toCats matching h) as [[cs h']|e]; cbn [fst snd state]; [|apply x_complete].
    destruct (openEventCancelled env); cbn [fst snd state]; [apply x_complete|].
    destruct (hasTarget env); cbn [negb fst snd state]; [|apply x_complete].
    destruct (outcome env) as [e inst|kept|[t|]]; cbn [fst snd state]; apply x_complete.
  - left.
    destruct (otherCancelThrew env); cbn [fst snd state]; [done|].
    destruct (toCats matching h) as [[cs h']|e]; cbn [fst snd state]; [|done].
    destruct (openEventCancelled env); cbn [fst snd state]; [done|].
    destruct (hasTarget env); cbn [negb fst snd state]; [|done].
    by destruct (outcome env) as [e inst|kept|[t|]].
Qed.

Lemma o_leaves_created matching env z h : state (o matching env z h).1.2 <> created.
Proof.
  destruct (decide (state z = created)) as [Hs|Hs].
  - destruct (o_state matching env z h Hs) as [->|[_ ->]]; done.
  - by rewrite o_not_created.
Qed.

Lemma onConnect_fields h origin data ports z z' :
  onConnect h origin data ports z = Ok z' ->
  state z' = state z /\ openPromise z' = openPromise z
  /\ closingResolved z' = closingResolved z /\ isCurrent z' = isCurrent z
  /\ proxy z' = proxy z /\ pioc z' = pioc z /\ closeOverlay z' = closeOverlay z
  /\ overlayShown z' = overlayShown z
  /\ unloadListener z' = unloadListener z /\ cats z' = cats z.
Proof.
  unfold onConnect. destruct (exchangePort z); [done|].
  destruct (parseConnect h origin data ports) as [[[peer p0] p1]|e]; [|done].
  cbn. destruct (matchCat _ _ _); [|done]. by intros [= <-].
Qed.

Lemma x_rank rejectWith z : (rank (state z) <= rank (state (x rejectWith z)))%nat.
Proof. rewrite x_complete. destruct (state z); cbn; lia. Qed.

Lemma step_rank h z ev : (rank (state z) <= rank (state (step h z ev)))%nat.
Proof.
  destruct ev as [origin data ports|v|r| |rejectWith]; cbn [step]; try apply x_rank.
  - destruct (onConnect h origin data ports z) as [z'|e] eqn:Hc; [|apply x_rank].
    by apply onConnect_fields in Hc as (-> & _).
  - destruct (connected z) as [[c peer]|]; [|done]. by destruct (statusPort z).
Qed.

Lemma act_rank zh a : (rank (state zh.1) <= rank (state (act zh a).1))%nat.
Proof.
  destruct zh as [z h]. destruct a as [matching env|ev]; cbn [act fst snd].
  - destruct (decide (state z = created)) as [Hs|Hs].
    + pose proof (o_state matching env z h Hs) as H.
      destruct (o matching env z h) as [[p z'] h']. cbn in *.
      rewrite Hs. destruct H as [->|[_ ->]]; cbn; lia.
    + by rewrite o_not_created.
  - apply step_rank.
Qed.

Lemma x_sessionInv rejectWith z : sessionInv z -> sessionInv (x rejectWith z).
Proof.
  intros (Hcr & Hcl & Hco). destruct (decide (state z = complete)) as [Hs|Hs].
  { by rewrite x_idempotent. }
  split; [by rewrite x_complete|]. split; [by rewrite x_complete|]. intros _.
  unfold x. rewrite bool_decide_eq_false_2 by done.
  destruct (proxy z) eqn:Hp; cbn [andb].
  - destruct (pioc z) eqn:Hpc; cbn [negb].
    + case_bool_decide as Hov; cbn; (split; [done|]); right;
        (split; [done|]); (split; [done|]); intros Hn; [|done].
      cbn in Hn. rewrite Hn in Hov. by destruct Hov.
    + cbn. split; [done|]. left. repeat split; try done. by apply Hcl.
  - case_bool_decide as Hov; cbn; (split; [done|]); right;
      (split; [done|]); (split; [done|]); intros Hn; [|done].
    cbn in Hn. rewrite Hn in Hov. by destruct Hov.
Qed.

Lemma step_sessionInv h z ev : sessionInv z -> sessionInv (step h z ev).
Proof.
  intros Hi. destruct ev as [origin data ports|v|r| |rejectWith]; cbn [step];
    try by apply x_sessionInv.
  - destruct (onConnect h origin data ports z) as [z'|e] eqn:Hc; [|by apply x_sessionInv].
    apply onConnect_fields in Hc as (H1 & _ & H2 & H3 & H4 & H5 & H6 & H7 & H8 & _).
    unfold sessionInv, stoppedAtPioc, closedDown.
    rewrite H1, H2, H3, H4, H5, H6, H7, H8. exact Hi.
  - destruct (connected z) as [[c peer]|]; [|done]. by destruct (statusPort z).
Qed.

Lemma o_sessionInv matching env z h : sessionInv z -> sessionInv (o matching env z h).1.2.
Proof.
  intros Hi. destruct (decide (state z = created)) as [Hs|Hs];
    [|by rewrite o_not_created].
  destruct Hi as (Hcr & Hcl & _). destruct (Hcr Hs) as (Hcur & Hp & Hov).
  assert (Hclo : closingResolved z = false) by (apply Hcl; by rewrite Hs).
  unfold o. rewrite bool_decide_eq_true_2 by done. cbn [negb isCurrent]. rewrite Hcur.
  destruct (otherCancelThrew env); cbn [fst snd].
  { repeat split; cbn; done. }
  destruct (toCats matching h) as [[cs h']|e]; cbn [fst snd].
  2: { repeat split; cbn; done. }
  destruct (openEventCancelled env); cbn [fst snd].
  { repeat split; cbn; done. }
  destruct (hasTarget env); cbn [negb fst snd].
  2: { repeat split; cbn; done. }
  destruct (outcome env) as [e inst|kept|[t|]]; cbn [fst snd]; repeat split; cbn; done.
Qed.

Lemma act_sessionInv zh a : sessionInv zh.1 -> sessionInv (act zh a).1.
Proof.
  destruct zh as [z h]. intros Hi. destruct a as [matching env|ev]; cbn [act fst snd].
  - pose proof (o_sessionInv matching env z h Hi) as H.
    by destruct (o matching env z h) as [[p z'] h'].
  - by apply step_sessionInv.
Qed.

Lemma acts_ind (P : ZImpl * heap -> Prop) zh l :
  (forall zh a, P zh -> P (act zh a)) -> P zh -> P (acts zh l).
Proof.
  intros Hstep. revert zh. induction l as [|a l IH]; intros zh Hzh; [done|].
  cbn. by apply IH, Hstep.
Qed.

Lemma parseSide_Some v sd :
  parseSide v = Some sd -> v = VStr (Wire.sideName sd).
Proof.
  destruct v as [| | | |s|]; try discriminate.
  do 10 (try crack s).
  all: cbn; intros [= <-]; reflexivity.
Qed.

Lemma parseSide_sideName sd : parseSide (VStr (Wire.sideName sd)) = Some sd.
Proof. by destruct sd. Qed.

End RequesterMore.

(** X11: [open] of a requester works once: whatever the first call did
    (even a failure on the intents), any later call returns a promise
    rejected with AlreadyOpened and leaves the session and the store as
    they were. *)
Theorem X11_requester_open_is_single_shot :
  forall (z : ModalRequest.ZImpl) (h : heap) (m1 m2 : value)
         (env1 env2 : ModalRequest.Launch),
    let first := ModalRequest.o m1 env1 z h in
    ModalRequest.o m2 env2 first.1.2 first.2
    = (Rejected (RError AlreadyOpened), first.1.2, first.2).
Proof.
  intros z h m1 m2 env1 env2 first. apply o_not_created.
  subst first. apply o_leaves_created.
Qed.

(** X12: the lifecycle of a session only moves forward, from created to
    open to complete, whatever is called and whatever arrives: a complete
    session never reopens. *)
Theorem X12_lifecycle_only_moves_forward :
  forall (zh : ModalRequest.ZImpl * heap) (l : list Requester.action),
    (Requester.rank (ModalRequest.state zh.1)
     <= Requester.rank (ModalRequest.state (Requester.acts zh l).1))%nat.
Proof.
  intros zh l.
  apply (acts_ind (fun zh' => (Requester.rank (ModalRequest.state zh.1)
                               <= Requester.rank (ModalRequest.state zh'.1))%nat)).
  - intros zh' a H. etrans; [exact H | apply act_rank].
  - done.
Qed.

(** X14: what a complete session still holds.  A session created by
    [createZImpl], whatever is then called on it and whatever arrives, is
    no longer the current request once it is complete.  If its proxy
    window had the inline handlers, or it has no proxy, the closing
    promise has resolved and the proxy is removed; the overlay and the
    unload listener are gone too, unless the call of [closeOverlay] throws
    (it holds a value that is no function, or a function of the page that
    throws).  If the proxy is still there, the cancel routine
    stopped at [pioc]: the handlers were never installed, and the closing
    promise is unresolved. *)
Theorem X14_complete_session_is_released :
  forall (h : heap) (l : list Requester.action),
    let z := (Requester.acts (ModalRequest.createZImpl, h) l).1 in
    ModalRequest.state z = ModalRequest.complete ->
    ModalRequest.isCurrent z = false
    /\ (ModalRequest.pioc z = true \/ ModalRequest.proxy z = false ->
        ModalRequest.closingResolved z = true
        /\ ModalRequest.proxy z = false
        /\ (ModalRequest.closeOverlayThrows (ModalRequest.closeOverlay z) = None ->
            ModalRequest.overlayShown z = false
            /\ ModalRequest.unloadListener z = false))
    /\ (ModalRequest.proxy z = true ->
        ModalRequest.pioc z = false /\ ModalRequest.closingResolved z = false).
Proof.
  intros h l z Hc.
  assert (Hi : sessionInv z).
  { subst z. apply (acts_ind (fun zh => sessionInv zh.1)).
    - intros zh a. apply act_sessionInv.
    - repeat split; cbn; done. }
  destruct Hi as (_ & _ & Hco). destruct (Hco Hc) as [Hcur Hhow].
  split; [done|]. split.
  - intros Hok. destruct Hhow as [(Hp & Hpc & _)|Hdown]; [|exact Hdown].
    destruct Hok as [Hok|Hok]; congruence.
  - intros Hp. destruct Hhow as [(_ & Hpc & Hcl)|(_ & Hp' & _)]; [done|congruence].
Qed.

Lemma X14_complete_session_is_released_witness :
  let h := [Obj KObject {["accepting" := VStr "text"]}] in
  let l := [Requester.Open (VRef 0%nat)
              (ModalRequest.mkLaunch None false true (ModalRequest.Launched (Some None)));
            Requester.Happens ModalRequest.Close] in
  let z := (Requester.acts (ModalRequest.createZImpl, h) l).1 in
  ModalRequest.state z = ModalRequest.complete
  /\ ModalRequest.isCurrent z = false
  /\ ModalRequest.closingResolved z = true
  /\ ModalRequest.proxy z = false
  /\ ModalRequest.overlayShown z = false
  /\ ModalRequest.unloadListener z = false.
Proof.
  cbv zeta.
  assert (Hc : ModalRequest.state
                 (Requester.acts (ModalRequest.createZImpl,
                                  [Obj KObject {["accepting" := VStr "text"]}])
                    [Requester.Open (VRef 0%nat)
                       (ModalRequest.mkLaunch None false true (ModalRequest.Launched (Some None)));
                     Requester.Happens ModalRequest.Close]).1
               = ModalRequest.complete) by (vm_compute; reflexivity).
  split; [exact Hc|].
  destruct (X14_complete_session_is_released _ _ Hc) as (H1 & H2 & _).
  split; [exact H1|].
  destruct H2 as (H3 & H4 & H5); [left; vm_compute; reflexivity|].
  destruct H5 as [H5 H6]; [vm_compute; reflexivity|]. done.
Defined.

(** X15: a second connect selection fails the session: when a connect has
    already been accepted on a session whose proxy window has the inline
    handlers, any further connect message, whatever it holds, completes
    the session and, if [open] is still pending, rejects it with
    AlreadyConnected. *)
Theorem X15_second_connect_fails_the_session :
  forall (h : heap) (z : ModalRequest.ZImpl) (origin : string)
         (data : value) (ports : list port),
    ModalRequest.state z <> ModalRequest.complete ->
    handlersInstalled z ->
    is_Some (ModalRequest.exchangePort z) ->
    ModalRequest.openPromise z = Pending ->
    let z' := ModalRequest.step h z (ModalRequest.Connect origin data ports) in
    ModalRequest.state z' = ModalRequest.complete
    /\ ModalRequest.openPromise z' = Rejected (RError AlreadyConnected).
Proof.
  intros h z origin data ports Hs Hi [ep Hep] Hp z'. subst z'. cbn [ModalRequest.step].
  unfold ModalRequest.onConnect. rewrite Hep.
  split; [apply x_complete|].
  rewrite (x_rejects (RError AlreadyConnected)); [by rewrite Hp | done | done | done].
Qed.

Lemma X15_second_connect_fails_the_session_witness :
  let h := [Obj (KArray [VStr "connect"; VStr "offering"; VStr "text"; VNull]) ∅] in
  let own := mkCat accepting "text" VNull (PerformRecv VNull) in
  let z := ModalRequest.mkZ ModalRequest.open Pending false [own] None None None
             true true true ModalRequest.OverlayUnset false true [] [] in
  let z1 := ModalRequest.step h z
              (ModalRequest.Connect "https://service.example" (VRef 0%nat) [10; 11]%nat) in
  let z2 := ModalRequest.step h z1
              (ModalRequest.Connect "https://service.example" (VRef 0%nat) [12; 13]%nat) in
  ModalRequest.state z1 = ModalRequest.open
  /\ ModalRequest.exchangePort z1 = Some 10%nat
  /\ ModalRequest.state z2 = ModalRequest.complete
  /\ ModalRequest.openPromise z2 = Rejected (RError AlreadyConnected).
Proof.
  cbv zeta. split; [reflexivity|]. split; [reflexivity|].
  refine (X15_second_connect_fails_the_session _ _ _ _ _ _ _ _ _);
    [discriminate | done | by eexists | reflexivity].
Defined.

(** X16: cancelling without a reason (or with a falsy one), on a session
    whose proxy window has the inline handlers (or which has no proxy).
    Before any connect, [open] resolves NotMatched.  While a connect is
    in progress, the session completes and the closing promise resolves,
    but [open] stays pending: the connect's own result decides it
    afterwards; and unless the call of [closeOverlay] throws, both ports
    are closed and ['done'] is posted on the status port. *)
Theorem X16_cancel_without_reason :
  forall (h : heap) (z : ModalRequest.ZImpl) (rejectWith : option reason),
    ModalRequest.state z <> ModalRequest.complete ->
    handlersInstalled z ->
    ModalRequest.givenReason rejectWith = None ->
    ModalRequest.openPromise z = Pending ->
    let z' := ModalRequest.step h z (ModalRequest.Cancel rejectWith) in
    (ModalRequest.exchangePort z = None ->
     ModalRequest.openPromise z' = Resolved NotMatched)
    /\ (forall cat peer ep sp v,
           ModalRequest.connected z = Some (cat, peer) ->
           ModalRequest.exchangePort z = Some ep ->
           ModalRequest.statusPort z = Some sp ->
           ModalRequest.openPromise z' = Pending
           /\ ModalRequest.state z' = ModalRequest.complete
           /\ ModalRequest.closingResolved z' = true
           /\ (ModalRequest.closeOverlayThrows (ModalRequest.closeOverlay z) = None ->
               ep ∈ ModalRequest.closedPorts z' /\ sp ∈ ModalRequest.closedPorts z'
               /\ sp ∈ ModalRequest.doneSent z')
           /\ ModalRequest.openPromise
                (ModalRequest.step h z' (ModalRequest.ConnectFulfilled v))
              = Resolved (Matched peer v)).
Proof.
  intros h z rejectWith Hs Hi Hr Hp z'. subst z'. cbn [ModalRequest.step].
  unfold ModalRequest.x. rewrite bool_decide_eq_false_2 by done.
  rewrite handlersInstalled_test by done. rewrite Hr, Hp.
  split.
  - intros Hx. rewrite Hx. by case_bool_decide.
  - intros cat peer ep sp v Hc Hx Hsp. rewrite Hx, Hsp.
    case_bool_decide as Hov; cbn; rewrite Hc; cbn.
    + do 3 (split; [done|]). split; [|done].
      intros Hn. rewrite Hn in Hov. by destruct Hov.
    + do 3 (split; [done|]). split; [|done].
      intros _. repeat split; set_solver.
Qed.

Lemma X16_cancel_without_reason_witness :
  let own := mkCat accepting "text" VNull (PerformRecv VNull) in
  let peer := mkPeer "https://service.example" offering "text" VNull in
  let z := ModalRequest.mkZ ModalRequest.open Pending false [own]
             (Some 10%nat) (Some 11%nat) (Some (own, peer))
             true true true ModalRequest.OverlayUnset false true [] [] in
  let z' := ModalRequest.step [] z (ModalRequest.Cancel (Some (RValue (VNum 0)))) in
  ModalRequest.givenReason (Some (RValue (VNum 0))) = None
  /\ ModalRequest.openPromise z' = Pending
  /\ ModalRequest.openPromise
       (ModalRequest.step [] z' (ModalRequest.ConnectFulfilled (VStr "hello")))
     = Resolved (Matched peer (VStr "hello")).
Proof.
  cbv zeta. split; [reflexivity|].
  pose proof (X16_cancel_without_reason []
    (ModalRequest.mkZ ModalRequest.open Pending false
       [mkCat accepting "text" VNull (PerformRecv VNull)]
       (Some 10%nat) (Some 11%nat)
       (Some (mkCat accepting "text" VNull (PerformRecv VNull),
              mkPeer "https://service.example" offering "text" VNull))
       true true true ModalRequest.OverlayUnset false true [] [])
    (Some (RValue (VNum 0))) ltac:(discriminate) ltac:(done) eq_refl eq_refl) as [_ H].
  destruct (H _ _ 10%nat 11%nat (VStr "hello") eq_refl eq_refl eq_refl)
    as (H1 & _ & _ & _ & H7).
  split; [exact H1 | exact H7].
Defined.

(** X17: the validation of a connect message is exact.  [parseConnect]
    accepts a message if and only if it is an array
    [['connect', side, form, having]] with [side] one of the two side
    names, [form] a string and [typeof having] equal to ['object'], that
    comes with exactly two ports; it then returns that side, form and
    having with the sender's origin.  Every other message is refused with
    InvalidConnectMessage and no other error. *)
Theorem X17_connect_validation_is_exact :
  forall (h : heap) (origin : string) (data : value) (ports : list port),
    (forall peer p0 p1,
        ModalRequest.parseConnect h origin data ports = Ok (peer, p0, p1)
        <-> exists elems,
              array_elems h data = Some elems
              /\ elems !! 0%nat = Some (VStr "connect")
              /\ ports = [p0; p1]
              /\ elems !! 1%nat = Some (VStr (Wire.sideName (peer_side peer)))
              /\ elems !! 2%nat = Some (VStr (peer_form peer))
              /\ default VUndefined (elems !! 3%nat) = peer_having peer
              /\ typeof h (peer_having peer) = TObject
              /\ peer_origin peer = origin)
    /\ ((exists r, ModalRequest.parseConnect h origin data ports = Ok r)
        \/ ModalRequest.parseConnect h origin data ports = Throw InvalidConnectMessage).
Proof.
  intros h origin data ports. split.
  - intros peer p0 p1. unfold ModalRequest.parseConnect. split.
    + destruct (array_elems h data) as [elems|]; [|done].
      case_bool_decide as H0; cbn [negb]; [|done].
      destruct ports as [|q0 [|q1 [|q2 ports]]]; try done.
      destruct (ModalRequest.parseSide (default VUndefined (elems !! 1%nat)))
        as [sd|] eqn:Hsd; [|done].
      destruct (default VUndefined (elems !! 2%nat)) as [| | | |form|] eqn:Hform; try done.
      case_bool_decide as Hh; [|done]. intros [= <- <- <-]. cbn.
      apply parseSide_Some in Hsd. exists elems.
      destruct (elems !! 0%nat) as [e0|]; [|done]. cbn in H0. subst e0.
      destruct (elems !! 1%nat) as [e1|]; [|done]. cbn in Hsd. subst e1.
      destruct (elems !! 2%nat) as [e2|]; [|done]. cbn in Hform. subst e2.
      done.
    + intros (elems & -> & H0 & -> & H1 & H2 & H3 & H4 & H5).
      rewrite H0, H1, H2, H3. cbn [from_option id].
      rewrite bool_decide_eq_true_2 by done. cbn [negb].
      rewrite parseSide_sideName, bool_decide_eq_true_2 by done.
      destruct peer. cbn in *. by subst.
  - unfold ModalRequest.parseConnect.
    destruct (array_elems h data) as [elems|]; [|by right].
    case_bool_decide; cbn [negb]; [|by right].
    destruct ports as [|q0 [|q1 [|q2 ports]]]; try by right.
    destruct (ModalRequest.parseSide _); [|by right].
    destruct (default VUndefined (elems !! 2%nat)); try by right.
    case_bool_decide; [left; by eexists | by right].
Qed.

(* ===================================================================== *)
(** ** The service listener: [getRequest]                                 *)
(* ===================================================================== *)

Section ListenerFacts.

Import Listener.

Implicit Types (s : t) (h : heap) (k : nat) (req : option (list PeerIntent)).

Lemma foldr_finish_fields req l s :
  request (foldr (finish req) s l) = request s
  /\ connectPort (foldr (finish req) s l) = connectPort s
  /\ lastWaitingKey (foldr (finish req) s l) = lastWaitingKey s
  /\ announced (foldr (finish req) s l) = announced s
  /\ (is_Some (waiting (foldr (finish req) s l)) <-> is_Some (waiting s)).
Proof.
  induction l as [|k l IH]; [done|]. cbn. destruct IH as (-> & -> & -> & -> & Hw).
  repeat split; try done; rewrite <- Hw; rewrite fmap_is_Some; done.
Qed.

Lemma foldr_finish_callers req l s k :
  callers (foldr (finish req) s l) !! k
  = if decide (k ∈ l)
    then (fun c => mkCaller false (settle (answer c) (Resolved req))) <$> callers s !! k
    else callers s !! k.
Proof.
  induction l as [|a l IH].
  - cbn. rewrite decide_False; [done|]. apply not_elem_of_nil.
  - cbn [foldr]. unfold finish at 1. cbn [callers].
    destruct (decide (k ∈ a :: l)) as [Hin|Hnin].
    + destruct (decide (a = k)) as [->|Hak].
      * rewrite lookup_alter_eq, IH.
        destruct (decide (k ∈ l)); [|done].
        destruct (callers s !! k) as [c|]; [|done]. cbn. do 2 f_equal.
        by destruct (answer c).
      * rewrite lookup_alter_ne, IH by done.
        rewrite decide_True; [done|].
        apply elem_of_cons in Hin as [->|Hin]; done.
    + assert (a <> k) by (intros ->; apply Hnin, list_elem_of_here).
      rewrite lookup_alter_ne, IH by done.
      rewrite decide_False; [done|].
      intros Hin. by apply Hnin, list_elem_of_further.
Qed.

Lemma getRequest_inv hasTop s : listenerInv s -> listenerInv (getRequest hasTop s).2.
Proof.
  intros Hinv. unfold getRequest.
  destruct (request s) as [r|] eqn:Hr; [exact Hinv|].
  destruct hasTop; cbn [negb]; [|exact Hinv].
  destruct Hinv as (Hkeys & Hann & Hreq). rewrite Hr in Hreq.
  set (s1 := match waiting s with None => _ | Some _ => s end).
  assert (H1 : request s1 = None /\ lastWaitingKey s1 = lastWaitingKey s
               /\ callers s1 = callers s /\ connectPort s1 = connectPort s
               /\ announced s1 = 1%nat
               /\ exists w1, waiting s1 = Some w1
                             /\ forall w, waiting s = Some w -> w1 = w).
  { subst s1. destruct (waiting s) as [w|] eqn:Hw.
    - split; [done|]. split; [done|]. split; [done|]. split; [done|].
      split; [by rewrite Hann|]. exists w. split; [done|]. by intros ? [= ->].
    - cbn. split; [done|]. split; [done|]. split; [done|]. split; [done|].
      split; [by rewrite Hann|]. exists (∅ : gset nat). split; [done|]. done. }
  destruct H1 as (Hr1 & Hl1 & Hc1 & Hp1 & Ha1 & w1 & Hw1 & Hsame).
  cbn [snd]. split; [|split]; cbn [callers lastWaitingKey announced waiting request].
  - intros k [c Hk]. rewrite Hl1. rewrite Hc1 in Hk.
    apply lookup_insert_Some in Hk as [[<- _]|[_ Hk]]; [lia|].
    pose proof (Hkeys k (ex_intro _ c Hk)). lia.
  - rewrite Ha1, Hw1. done.
  - rewrite Hr1. intros k c Hk. cbn [callers waiting] in *.
    rewrite Hc1, Hl1 in Hk. rewrite Hw1. cbn.
    apply lookup_insert_Some in Hk as [[<- <-]|[Hne Hk]].
    + left. repeat split. eexists. split; [done|].
      apply elem_of_union. right. rewrite Hl1. by apply elem_of_singleton.
    + destruct (Hreq k c Hk) as [(Ht & Ha & w & Hw & Hin)|H]; [|by right].
      left. repeat split; try done. eexists. split; [done|].
      rewrite (Hsame w Hw). apply elem_of_union. by left.
Qed.

Lemma timeout_inv k s : listenerInv s -> listenerInv (timeout k s).
Proof.
  intros Hinv. unfold timeout.
  destruct (callers s !! k) as [[[|] a]|] eqn:Hk; try done.
  destruct Hinv as (Hkeys & Hann & Hreq).
  destruct (request s) as [r|] eqn:Hr.
  { destruct Hreq as [_ Hans]. by destruct (Hans k _ Hk) as [? _]. }
  destruct (Hreq k _ Hk) as [(_ & Ha & w & Hw & Hin)|[? _]]; [|done]. cbn in Ha. subst a.
  unfold finish.
  split; [|split]; cbn [callers lastWaitingKey announced waiting request].
  - intros k' [c Hk']. apply Hkeys.
    destruct (decide (k = k')) as [<-|Hne].
    + by eexists.
    + rewrite lookup_alter_ne in Hk' by done. by eexists.
  - rewrite Hann, Hw. done.
  - rewrite Hr. intros k' c Hk'. cbn [callers waiting] in *.
    destruct (decide (k = k')) as [<-|Hne].
    + rewrite lookup_alter_eq, Hk in Hk'. cbn in Hk'. injection Hk' as <-. by right.
    + rewrite lookup_alter_ne in Hk' by done.
      destruct (Hreq k' c Hk') as [(Ht & Ha & w' & Hw' & Hin')|H]; [|by right].
      left. repeat split; try done. rewrite Hw. cbn. eexists. split; [done|].
      rewrite Hw in Hw'. injection Hw' as <-.
      apply elem_of_difference. split; [done|]. rewrite elem_of_singleton. congruence.
Qed.

Lemma connectPort_inv p s :
  request s = None -> listenerInv s ->
  listenerInv (mk (request s) (Some p) (waiting s) (lastWaitingKey s)
                  (callers s) (announced s)).
Proof.
  intros Hr (Hkeys & Hann & Hreq). split; [|split]; cbn; try done.
  by rewrite Hr in *.
Qed.

Lemma capture_inv matching p s :
  request s = None -> listenerInv s ->
  listenerInv
    (foldr (finish (Some matching))
       (mk (Some matching) (Some p) (waiting s) (lastWaitingKey s) (callers s)
           (announced s))
       (base.elements (default ∅ (waiting s)))).
Proof.
  intros Hr (Hkeys & Hann & Hreq). rewrite Hr in Hreq.
  set (s2 := mk _ _ _ _ _ _). set (l := base.elements _).
  destruct (foldr_finish_fields (Some matching) l s2) as (Hf1 & Hf2 & Hf3 & Hf4 & Hf5).
  split; [|split].
  - intros k Hk. rewrite Hf3. apply Hkeys.
    rewrite foldr_finish_callers in Hk. cbn [callers s2] in Hk.
    destruct (decide (k ∈ l)); [|done]. by apply fmap_is_Some in Hk.
  - rewrite Hf4. cbn. rewrite Hann.
    destruct (decide (is_Some (waiting s))) as [Hs|Hs].
    + rewrite !bool_decide_eq_true_2; [done|by apply Hf5|done].
    + rewrite !bool_decide_eq_false_2; [done|by rewrite Hf5|done].
  - rewrite Hf1. cbn. split; [by rewrite Hf2|].
    intros k c Hk. rewrite foldr_finish_callers in Hk. cbn [callers s2] in Hk.
    destruct (decide (k ∈ l)) as [Hin|Hnin].
    + destruct (callers s !! k) as [c0|] eqn:Hk0; [|done]. cbn in Hk.
      injection Hk as <-. cbn. split; [done|].
      destruct (Hreq k c0 Hk0) as [(_ & -> & _)|[_ ->]]; [by left | by right].
    + destruct (Hreq k c Hk) as [(_ & _ & w & Hw & Hin)|[? ?]]; [|by auto].
      exfalso. apply Hnin. subst l. rewrite Hw. cbn. by apply elem_of_elements.
Qed.

Lemma onMessage_inv m s h : listenerInv s -> listenerInv (onMessage m s h).1.
Proof.
  intros Hinv. unfold onMessage.
  destruct (request s) as [r|] eqn:Hr; [done|].
  destruct (fromClient m); cbn [negb]; [|done].
  destruct (array_elems h _) as [elems|]; [|done].
  case_bool_decide as Hkind; cbn [negb]; [|done].
  destruct (ports m) as [|p [|p' ps]]; try done.
  destruct (array_elems h (default VUndefined (elems !! 1%nat))) as [entries|].
  - destruct (capturePeers (origin m) entries [] h) as [matching h'].
    cbn [fst waiting connectPort lastWaitingKey callers announced].
    exact (capture_inv matching p s Hr Hinv).
  - cbn [fst]. pose proof (connectPort_inv p s Hr Hinv) as Hc. by rewrite Hr in Hc.
Qed.

Lemma step_inv sh ev : listenerInv sh.1 -> listenerInv (step sh ev).1.
Proof.
  intros Hinv. destruct ev as [hasTop|k|m]; cbn [step fst].
  - by apply getRequest_inv.
  - by apply timeout_inv.
  - by apply onMessage_inv.
Qed.

Lemma run_inv sh evs : listenerInv sh.1 -> listenerInv (run sh evs).1.
Proof.
  revert sh. induction evs as [|ev evs IH]; intros sh Hinv; [done|].
  cbn. by apply IH, step_inv.
Qed.

Lemma init_inv : listenerInv init.
Proof.
  split; [|split]; cbn; try done.
  all: first [ intros k [c Hk]; by rewrite lookup_empty in Hk
             | intros k c Hk; by rewrite lookup_empty in Hk ].
Qed.

(** With a request captured and every timer cleared, nothing moves. *)
Lemma step_captured sh ev r :
  request sh.1 = Some r -> listenerInv sh.1 -> step sh ev = sh.
Proof.
  destruct sh as [s h]. cbn [fst]. intros Hr (_ & _ & Hreq). rewrite Hr in Hreq.
  destruct Hreq as [_ Hans].
  destruct ev as [hasTop|k|m]; cbn [step fst snd].
  - unfold getRequest. by rewrite Hr.
  - unfold timeout. destruct (callers s !! k) as [[[|] a]|] eqn:Hk; try done.
    by destruct (Hans k _ Hk) as [? _].
  - unfold onMessage. by rewrite Hr.
Qed.

Lemma run_captured sh evs r :
  request sh.1 = Some r -> listenerInv sh.1 -> run sh evs = sh.
Proof.
  intros Hr Hinv. induction evs as [|ev evs IH]; [done|].
  cbn. rewrite (step_captured sh ev r) by done. exact IH.
Qed.

Lemma listener_run_app sh evs1 evs2 : run sh (evs1 ++ evs2) = run (run sh evs1) evs2.
Proof. apply fold_left_app. Qed.

Lemma listener_run_snoc sh evs ev : run sh (evs ++ [ev]) = step (run sh evs) ev.
Proof. by rewrite listener_run_app. Qed.

(** Callers stay. *)
Lemma step_callers sh ev k :
  listenerInv sh.1 ->
  is_Some (callers sh.1 !! k) -> is_Some (callers (step sh ev).1 !! k).
Proof.
  destruct sh as [s h]. cbn [fst]. intros Hinv Hk.
  destruct ev as [hasTop|k0|m]; cbn [step fst snd].
  - unfold getRequest. destruct (request s); [done|].
    destruct hasTop; cbn [negb]; [|done]. cbn [snd callers].
    set (s1 := match waiting s with Some _ => s | None => _ end).
    assert (Hs1 : callers s1 = callers s) by (subst s1; by destruct (waiting s)).
    destruct (decide (k = S (lastWaitingKey s1))) as [->|Hne].
    + rewrite lookup_insert_eq. by eexists.
    + rewrite lookup_insert_ne by done. by rewrite Hs1.
  - unfold timeout. destruct (callers s !! k0) as [[[|] a]|] eqn:Hk0; try done.
    unfold finish. cbn [callers].
    destruct (decide (k0 = k)) as [->|Hne].
    + rewrite lookup_alter_eq, Hk0. by eexists.
    + by rewrite lookup_alter_ne.
  - unfold onMessage. destruct (request s); [done|].
    destruct (fromClient m); cbn [negb]; [|done].
    destruct (array_elems h _) as [elems|]; [|done].
    case_bool_decide; cbn [negb]; [|done].
    destruct (ports m) as [|p [|p' ps]]; try done.
    destruct (array_elems h (default VUndefined (elems !! 1%nat))) as [entries|]; [|done].
    destruct (capturePeers (origin m) entries [] h) as [matching h'].
    cbn [fst]. rewrite foldr_finish_callers. cbn [callers].
    destruct (decide _); [|done]. by apply fmap_is_Some.
Qed.

Lemma run_callers sh evs k :
  listenerInv sh.1 ->
  is_Some (callers sh.1 !! k) -> is_Some (callers (run sh evs).1 !! k).
Proof.
  revert sh. induction evs as [|ev evs IH]; intros sh Hinv Hk; [done|].
  cbn. apply IH; [by apply step_inv | by apply step_callers].
Qed.

(** How [timedOut] grows with the trace. *)
Lemma timedOut_snoc h evs ev k :
  timedOut h (evs ++ [ev]) k
  <-> timedOut h evs k
      \/ (ev = Timeout k
          /\ request (run (init, h) evs).1 = None
          /\ is_Some (callers (run (init, h) evs).1 !! k)).
Proof.
  split.
  - intros (pre & post & Heq & Hr & Hk).
    destruct post as [|e post _] using rev_ind.
    + change (pre ++ [Timeout k]) with (pre ++ [Timeout k]) in Heq.
      apply app_inj_tail in Heq as [-> ->]. by right.
    + left. rewrite app_comm_cons, app_assoc in Heq.
      apply app_inj_tail in Heq as [-> ->]. by exists pre, post.
  - intros [(pre & post & -> & Hr & Hk)|(-> & Hr & Hk)].
    + exists pre, (post ++ [ev]). by rewrite <- app_assoc.
    + by exists evs, [].
Qed.

(** A caller was answered [undefined] exactly if its timer fired while it
    was waiting. *)
Lemma run_timedOut h evs k c :
  callers (run (init, h) evs).1 !! k = Some c ->
  answer c = Resolved None <-> timedOut h evs k.
Proof.
  revert k c. induction evs as [|ev evs IH] using rev_ind; intros k c.
  { cbn. by rewrite lookup_empty. }
  pose proof (run_inv (init, h) evs init_inv) as Hinv.
  rewrite listener_run_snoc, timedOut_snoc.
  destruct (run (init, h) evs) as [s hs] eqn:Hrun. cbn [fst] in *.
  destruct Hinv as (Hkeys & Hann & Hreq).
  destruct ev as [hasTop|k0|m]; cbn [step fst snd].
  - (* getRequest *)
    unfold getRequest. destruct (request s) as [r|] eqn:Hr.
    { intros Hk. rewrite (IH k c Hk). split; [by left | by intros [?|[? _]]]. }
    destruct hasTop; cbn [negb].
    2: { intros Hk. rewrite (IH k c Hk). split; [by left | by intros [?|[? _]]]. }
    cbn [snd callers].
    set (s1 := match waiting s with Some _ => s | None => _ end).
    assert (Hs1 : callers s1 = callers s /\ lastWaitingKey s1 = lastWaitingKey s)
      by (subst s1; by destruct (waiting s)).
    destruct Hs1 as [-> ->].
    intros Hk. apply lookup_insert_Some in Hk as [[<- <-]|[Hne Hk]].
    + cbn. split; [done|]. intros [(pre & post & Heq & _ & Hc)|[? _]]; [|done].
      exfalso. assert (Hc' : is_Some (callers s !! S (lastWaitingKey s))).
      { pose proof (run_callers (run (init, h) pre) (Timeout (S (lastWaitingKey s)) :: post)
                      (S (lastWaitingKey s))
                      (run_inv (init, h) pre init_inv) Hc) as H.
        by rewrite <- listener_run_app, <- Heq, Hrun in H. }
      apply Hkeys in Hc'. lia.
    + rewrite (IH k c Hk). split; [by left | by intros [?|[? _]]].
  - (* timeout *)
    unfold timeout. destruct (callers s !! k0) as [[[|] a]|] eqn:Hk0.
    + unfold finish. cbn [callers].
      destruct (request s) as [r|] eqn:Hr.
      { destruct Hreq as [_ Hans]. by destruct (Hans k0 _ Hk0) as [? _]. }
      destruct (decide (k0 = k)) as [->|Hne].
      * rewrite lookup_alter_eq, Hk0. cbn. intros [= <-]. cbn.
        destruct (Hreq k _ Hk0) as [(_ & Ha & _)|[? _]]; [|done]. cbn in Ha. subst a.
        split; [|done]. intros _. right. split; [done|]. split; [done|]. by eexists.
      * rewrite lookup_alter_ne by done. intros Hk. rewrite (IH k c Hk).
        split; [by left|]. intros [?|[[= ?] _]]; [done|]. congruence.
    + intros Hk. rewrite (IH k c Hk). split; [by left|].
      intros [?|([= <-] & Hr & _)]; [done|].
      rewrite Hr in Hreq. apply (proj1 (IH k0 c Hk)).
      rewrite Hk0 in Hk. injection Hk as <-.
      by destruct (Hreq k0 _ Hk0) as [(? & _)|[_ ?]].
    + intros Hk. rewrite (IH k c Hk). split; [by left|].
      intros [?|([= <-] & _ & [c' Hc'])]; [done|]. congruence.
  - (* message *)
    assert (Hsame : callers s !! k = Some c ->
                    answer c = Resolved None <->
                    timedOut h evs k
                    \/ Message m = Timeout k /\ request s = None /\ is_Some (callers s !! k)).
    { intros Hk. rewrite (IH k c Hk). split; [by left | by intros [?|[? _]]]. }
    unfold onMessage. destruct (request s) as [r|] eqn:Hr; [done|].
    destruct (fromClient m); cbn [negb]; [|done].
    destruct (array_elems hs _) as [elems|]; [|done].
    destruct (bool_decide (default VUndefined (elems !! 0%nat) = VStr "request"));
      cbn [negb]; [|done].
    destruct (ports m) as [|p [|p' ps]]; try done.
    destruct (array_elems hs (default VUndefined (elems !! 1%nat))) as [entries|]; [|done].
    destruct (capturePeers (origin m) entries [] hs) as [matching h'].
    cbn [fst]. rewrite foldr_finish_callers. cbn [callers waiting].
    destruct (decide _) as [Hin|Hnin]; [|done].
    destruct (callers s !! k) as [c0|] eqn:Hk0; [|done]. cbn. intros [= <-]. cbn.
    rewrite <- (IH k c0 Hk0).
    destruct (Hreq k c0 Hk0) as [(_ & -> & _)|[_ ->]]; cbn.
    + split; [done|]. by intros [?|[? _]].
    + split; [by left | done].
Qed.

End ListenerFacts.

(** X18: once the request has arrived every caller of [getRequest] has its
    answer: [undefined] if its timer had fired while it was waiting, and
    the request itself otherwise; no caller is left pending and none gets
    anything else. *)
Theorem X18_every_caller_is_answered :
  forall (h : heap) (evs : list Listener.event) (r : list PeerIntent),
    let s := (Listener.run (Listener.init, h) evs).1 in
    Listener.request s = Some r ->
    forall k c, Listener.callers s !! k = Some c ->
      (timedOut h evs k -> Listener.answer c = Resolved None)
      /\ (~ timedOut h evs k -> Listener.answer c = Resolved (Some r)).
Proof.
  intros h evs r s Hr k c Hk.
  pose proof (run_inv (Listener.init, h) evs init_inv) as (_ & _ & Hreq).
  fold s in Hreq. rewrite Hr in Hreq. destruct Hreq as [_ Hans].
  pose proof (run_timedOut h evs k c Hk) as Hiff.
  split; [by apply Hiff|]. intros Hnot.
  destruct (Hans k c Hk) as [_ [?|Hnone]]; [done|]. by apply Hiff in Hnone.
Qed.

(** X19: the first request captured is final: after it, every further
    call of [getRequest], timeout or message leaves the whole state as it
    is, and [getRequest] returns that request at once. *)
Theorem X19_captured_request_is_final :
  forall (h : heap) (evs later : list Listener.event) (r : list PeerIntent),
    let sh := Listener.run (Listener.init, h) evs in
    Listener.request sh.1 = Some r ->
    Listener.run (Listener.init, h) (evs ++ later) = sh
    /\ forall hasTop, Listener.getRequest hasTop sh.1 = (Listener.Immediately (Some r), sh.1).
Proof.
  intros h evs later r sh Hr. split.
  - rewrite listener_run_app. fold sh. apply (run_captured sh later r Hr).
    apply run_inv, init_inv.
  - intros hasTop. unfold Listener.getRequest. by rewrite Hr.
Qed.

(** X20: the listener announces itself to the client at most once, however
    many callers there are; and whenever a request has been captured the
    connect port is set, so that [connectDirectly] does not fail with
    NoConnectPort: it posts its message whenever the connect port takes
    it. *)
Theorem X20_one_announcement_and_a_connect_port :
  forall (h : heap) (evs : list Listener.event),
    let sh := Listener.run (Listener.init, h) evs in
    (Listener.announced sh.1 <= 1)%nat
    /\ (is_Some (Listener.request sh.1) ->
        exists cp,
          Listener.connectPort sh.1 = Some cp
          /\ forall sd form having p0 p1 h',
               Listener.connectDirectly sd form having p0 p1 sh.1 h'
               <> Throw NoConnectPort
               /\ (let mh := Wire.connectMessage sd form having h' in
                   postable mh.2 mh.1 [p0; p1] = true -> cp ∉ [p0; p1] ->
                   Listener.connectDirectly sd form having p0 p1 sh.1 h'
                   = Ok (mh.1, [p0; p1], mh.2))).
Proof.
  intros h evs sh.
  pose proof (run_inv (Listener.init, h) evs init_inv) as (_ & Hann & Hreq).
  fold sh in Hann, Hreq. split.
  - rewrite Hann. unfold b2n. case_bool_decide; lia.
  - intros [r Hr]. rewrite Hr in Hreq. destruct Hreq as [[p Hp] _].
    exists p. split; [done|]. intros sd form having p0 p1 h'.
    unfold Listener.connectDirectly. rewrite Hp.
    destruct (Wire.connectMessage sd form having h') as [msg h'']. cbn [fst snd].
    split; [by destruct (_ && _)|].
    intros Hpost Hnotin. by rewrite Hpost, bool_decide_eq_true_2.
Qed.

Lemma X18_every_caller_is_answered_witness :
  let h := [Obj KObject {["side" := VStr "offering"; "form" := VStr "text"]};
            Obj (KArray [VRef 0%nat]) ∅;
            Obj (KArray [VStr "request"; VRef 1%nat]) ∅;
            Obj KObject {[Wire.ClientMessage := VRef 2%nat]}] in
  let m := Listener.mkMessage true (VRef 3%nat) [5%nat] "https://client.example" in
  let evs := [Listener.GetRequest true; Listener.GetRequest true;
              Listener.Timeout 1%nat; Listener.Message m] in
  let r := [mkPeer "https://client.example" offering "text" (VRef 4%nat)] in
  let s := (Listener.run (Listener.init, h) evs).1 in
  Listener.request s = Some r
  /\ timedOut h evs 1
  /\ forall c, Listener.callers s !! 1%nat = Some c ->
       Listener.answer c = Resolved None.
Proof.
  cbv zeta.
  assert (Ht : timedOut
                 [Obj KObject {["side" := VStr "offering"; "form" := VStr "text"]};
                  Obj (KArray [VRef 0%nat]) ∅;
                  Obj (KArray [VStr "request"; VRef 1%nat]) ∅;
                  Obj KObject {[Wire.ClientMessage := VRef 2%nat]}]
                 [Listener.GetRequest true; Listener.GetRequest true;
                  Listener.Timeout 1%nat;
                  Listener.Message
                    (Listener.mkMessage true (VRef 3%nat) [5%nat]
                       "https://client.example")] 1).
  { exists [Listener.GetRequest true; Listener.GetRequest true],
           [Listener.Message (Listener.mkMessage true (VRef 3%nat) [5%nat]
                                "https://client.example")].
    split; [reflexivity|]. split; [vm_compute; reflexivity|].
    vm_compute. by eexists. }
  assert (Hr : Listener.request
                 (Listener.run
                    (Listener.init,
                     [Obj KObject {["side" := VStr "offering"; "form" := VStr "text"]};
                      Obj (KArray [VRef 0%nat]) ∅;
                      Obj (KArray [VStr "request"; VRef 1%nat]) ∅;
                      Obj KObject {[Wire.ClientMessage := VRef 2%nat]}])
                    [Listener.GetRequest true; Listener.GetRequest true;
                     Listener.Timeout 1%nat;
                     Listener.Message
                       (Listener.mkMessage true (VRef 3%nat) [5%nat]
                          "https://client.example")]).1
               = Some [mkPeer "https://client.example" offering "text" (VRef 4%nat)])
    by (vm_compute; reflexivity).
  split; [exact Hr|]. split; [exact Ht|].
  intros c Hc.
  exact (proj1 (X18_every_caller_is_answered _ _ _ Hr 1%nat c Hc) Ht).
Defined.

Lemma X19_captured_request_is_final_witness :
  let h := [Obj KObject {["side" := VStr "offering"; "form" := VStr "text"]};
            Obj (KArray [VRef 0%nat]) ∅;
            Obj (KArray [VStr "request"; VRef 1%nat]) ∅;
            Obj KObject {[Wire.ClientMessage := VRef 2%nat]}] in
  let m := Listener.mkMessage true (VRef 3%nat) [5%nat] "https://client.example" in
  let evs := [Listener.GetRequest true; Listener.Message m] in
  let later := [Listener.Timeout 1%nat; Listener.Message m; Listener.GetRequest true] in
  let r := [mkPeer "https://client.example" offering "text" (VRef 4%nat)] in
  Listener.request (Listener.run (Listener.init, h) evs).1 = Some r
  /\ Listener.run (Listener.init, h) (evs ++ later) = Listener.run (Listener.init, h) evs.
Proof.
  cbv zeta. split; [vm_compute; reflexivity|].
  refine (proj1 (X19_captured_request_is_final _ _ _ _ _)). vm_compute. reflexivity.
Defined.

(* ===================================================================== *)
(** ** The handshake, end to end                                          *)
(* ===================================================================== *)

Section WireFacts.

Import Listener.

Implicit Types (h hi : heap) (cats : list Cat) (entries : list value).

Lemma describes_extends h h' entry cat :
  extends h h' -> describes h entry cat -> describes h' entry cat.
Proof.
  intros Hext (l & o & -> & Hl & Hs & Hf). exists l, o.
  repeat split; try done. by eapply extends_lookup.
Qed.

Lemma capture_described origin entries cats : forall matching hi,
  Forall2 (describes hi) entries cats ->
  exists news h',
    capturePeers origin entries matching hi = (matching ++ news, h')
    /\ extends hi h'
    /\ Forall2 (mirrors origin) news cats.
Proof.
  revert cats. induction entries as [|entry entries IH]; intros cats matching hi Hall.
  - apply Forall2_nil_inv_l in Hall as ->. exists [], hi. rewrite app_nil_r.
    split; [done|]. split; [apply extends_refl | constructor].
  - apply Forall2_cons_inv_l in Hall as (cat & cats' & Hd & Hall & ->).
    destruct Hd as (l & o & -> & Hl & Hs & Hf).
    cbn [capturePeers truthy negb get_prop]. rewrite Hl, Hs, Hf. cbn [default from_option id].
    rewrite parseSide_sideName.
    set (chosen := if truthy _ && _ then _ else _).
    assert (Hext : extends hi chosen.2).
    { subst chosen. destruct (truthy _ && _); cbn; [apply extends_refl | by eexists]. }
    destruct chosen as [having h1]. cbn [snd] in Hext.
    destruct (IH cats' (matching ++ [mkPeer origin (cat_side cat) (cat_form cat) having]) h1)
      as (news & h' & Heq & Hext' & Hm).
    { eapply Forall2_impl; [exact Hall|]. intros ? ?. by apply describes_extends. }
    exists (mkPeer origin (cat_side cat) (cat_form cat) having :: news), h'.
    split; [by rewrite Heq, <- app_assoc|]. split; [by eapply extends_trans|].
    by constructor.
Qed.

Lemma catEntries_described cats h :
  extends h (Wire.catEntries cats h).2
  /\ Forall2 (describes (Wire.catEntries cats h).2) (Wire.catEntries cats h).1 cats.
Proof.
  revert h. induction cats as [|cat cats IH]; intros h.
  - split; [apply extends_refl | constructor].
  - cbn [Wire.catEntries alloc].
    destruct (IH (h ++ [Obj KObject
                          (<["side" := VStr (Wire.sideName (cat_side cat))]>
                             (<["having" := cat_having cat]>
                                (<["form" := VStr (cat_form cat)]> ∅)))]))
      as [Hext Hall].
    destruct (Wire.catEntries cats _) as [entries h2]. cbn [fst snd] in *.
    split; [eapply extends_trans; [|exact Hext]; by eexists|].
    constructor; [|done].
    eexists _, _. split; [done|]. split.
    + eapply extends_lookup; [exact Hext|]. apply lookup_alloc_new.
    + cbn. split; [by rewrite lookup_insert_eq|].
      by rewrite lookup_insert_ne, lookup_insert_ne, lookup_insert_eq.
Qed.

Lemma requestMessage_shape cats h :
  let mh := Wire.requestMessage cats h in
  exists lb la,
    nullish mh.1 = false
    /\ get_prop mh.2 mh.1 Wire.ClientMessage = VRef lb
    /\ array_elems mh.2 (VRef lb) = Some [VStr "request"; VRef la]
    /\ array_elems mh.2 (VRef la) = Some (Wire.catEntries cats h).1
    /\ Forall2 (describes mh.2) (Wire.catEntries cats h).1 cats.
Proof.
  cbv zeta. unfold Wire.requestMessage.
  destruct (catEntries_described cats h) as [Hext Hall].
  destruct (Wire.catEntries cats h) as [entries h1]. cbn [fst snd alloc] in *.
  set (A := Obj (KArray entries) ∅).
  set (B := Obj (KArray [VStr "request"; VRef (length h1)]) ∅).
  set (M := Obj KObject {[Wire.ClientMessage := VRef (length (h1 ++ [A]))]}).
  exists (length (h1 ++ [A])), (length h1). cbn [fst snd nullish get_prop array_elems].
  split; [done|]. split.
  { rewrite lookup_alloc_new. subst M. cbn [oprops]. by rewrite lookup_singleton_eq. }
  split.
  { rewrite lookup_app_l by (rewrite !length_app; cbn; lia).
    by rewrite lookup_alloc_new. }
  split.
  { rewrite lookup_app_l by (rewrite !length_app; cbn; lia).
    rewrite lookup_app_l by (rewrite !length_app; cbn; lia).
    by rewrite lookup_alloc_new. }
  eapply Forall2_impl; [exact Hall|]. intros entry cat.
  apply describes_extends. exists ([A] ++ [B] ++ [M]). by rewrite !app_assoc.
Qed.

End WireFacts.

(** X21: the capability list survives the handshake.  When the service's
    listener, with no request yet, receives the ['request'] message that
    the requester builds from its Cats (on one port), it captures one peer
    option per Cat, in the same order, with the Cat's side and form and
    the sender's origin, and keeps the port as connect port. *)
Theorem X21_capability_list_round_trip :
  forall (cats : list Cat) (h : heap) (s : Listener.t) (p : port) (origin : string),
    Listener.request s = None ->
    let mh := Wire.requestMessage cats h in
    let sh := Listener.onMessage (Listener.mkMessage true mh.1 [p] origin) s mh.2 in
    exists peers,
      Listener.request sh.1 = Some peers
      /\ Listener.connectPort sh.1 = Some p
      /\ Forall2 (mirrors origin) peers cats.
Proof.
  intros cats h s p origin Hr mh sh.
  destruct (requestMessage_shape cats h) as (lb & la & Hn & Hbody & Hb & Ha & Hall).
  fold mh in Hn, Hbody, Hb, Ha, Hall.
  subst sh. unfold Listener.onMessage. rewrite Hr.
  cbn [Listener.fromClient Listener.data Listener.ports Listener.origin negb].
  rewrite Hn, Hbody, Hb. cbn [lookup list_lookup default from_option id].
  rewrite bool_decide_eq_true_2 by done. cbn [negb]. rewrite Ha.
  destruct (capture_described origin _ cats [] mh.2 Hall) as (peers & h' & Heq & _ & Hm).
  rewrite Heq. cbn [app].
  set (s2 := Listener.mk _ _ _ _ _ _).
  destruct (foldr_finish_fields (Some peers)
              (base.elements (default ∅ (Listener.waiting s2))) s2)
    as (Hf1 & Hf2 & _).
  exists peers. cbn [fst]. by rewrite Hf1, Hf2.
Qed.

Lemma X21_capability_list_round_trip_witness :
  let cats := [mkCat accepting "text" (VNum 7) (PerformRecv VNull);
               mkCat offering "image" VNull (PerformSend VNull)] in
  let mh := Wire.requestMessage cats [] in
  let sh := Listener.onMessage
              (Listener.mkMessage true mh.1 [5%nat] "https://client.example")
              Listener.init mh.2 in
  exists peers,
    Listener.request sh.1 = Some peers
    /\ Listener.connectPort sh.1 = Some 5%nat
    /\ Forall2 (mirrors "https://client.example") peers cats.
Proof.
  exact (X21_capability_list_round_trip _ [] Listener.init 5%nat "https://client.example"
           eq_refl).
Defined.

Section CaptureFacts.

Import Listener.

Implicit Types (h hi : heap) (entries : list value).

Lemma wellFormedPeer_extends origin h h' p :
  extends h h' -> wellFormedPeer origin h p -> wellFormedPeer origin h' p.
Proof.
  intros Hext (Ho & Ht & Hty & Hb). repeat split; try done.
  - by rewrite (extends_typeof h h').
  - by eapply extends_bound.
Qed.

Lemma capturedAs_extends origin h h1 h2 entry p :
  extends h1 h2 -> capturedAs origin h h1 entry p -> capturedAs origin h h2 entry p.
Proof.
  intros Hext (He & Ho & Hh). split; [done|]. split; [done|].
  cbv zeta in *. destruct (_ && _); [done|].
  destruct Hh as (l & Hl & Hle & Hlook). exists l. split; [done|]. split; [done|].
  by eapply extends_lookup.
Qed.

(** One turn of the capture loop, on an entry that is dropped and on one
    that is kept. *)
Lemma capture_skip origin h hi entry rest matching :
  extends h hi -> bound h entry -> entryPeer h entry = None ->
  capturePeers origin (entry :: rest) matching hi = capturePeers origin rest matching hi.
Proof.
  intros Hext Hb. unfold entryPeer. cbn [capturePeers].
  destruct (truthy entry); cbn [negb]; [|done].
  rewrite !(extends_get_prop h hi entry) by done.
  destruct (ModalRequest.parseSide (get_prop h entry "side")) as [sd|]; [|done].
  by destruct (get_prop h entry "form").
Qed.

Lemma capture_keep origin h hi entry rest matching sd form :
  closed h -> extends h hi -> bound h entry -> entryPeer h entry = Some (sd, form) ->
  capturePeers origin (entry :: rest) matching hi
  = let hv := get_prop h entry "having" in
    let chosen :=
      if truthy hv && bool_decide (typeof h hv = TObject) then (hv, hi)
      else (VRef (length hi), hi ++ [Obj KObject ∅]) in
    capturePeers origin rest (matching ++ [mkPeer origin sd form chosen.1]) chosen.2.
Proof.
  intros Hcl Hext Hb. unfold entryPeer. cbn [capturePeers].
  destruct (truthy entry); cbn [negb]; [|done].
  rewrite !(extends_get_prop h hi entry) by done.
  destruct (ModalRequest.parseSide (get_prop h entry "side")) as [sd'|]; [|done].
  destruct (get_prop h entry "form") as [| | | |form'|]; try done.
  intros [= -> ->].
  rewrite (extends_typeof h hi (get_prop h entry "having"));
    [|done|by apply closed_get_prop].
  cbv zeta. by destruct (_ && _).
Qed.

Lemma capture_spec origin h entries : forall matching hi,
  closed h -> extends h hi -> Forall (bound h) entries ->
  exists news h',
    capturePeers origin entries matching hi = (matching ++ news, h')
    /\ extends hi h'
    /\ (fun p => (peer_side p, peer_form p)) <$> news = omap (entryPeer h) entries
    /\ Forall2 (capturedAs origin h h')
               (filter (fun e => is_Some (entryPeer h e)) entries) news
    /\ Forall (wellFormedPeer origin h') news.
Proof.
  induction entries as [|entry entries IH]; intros matching hi Hcl Hext Hbs.
  - exists [], hi. rewrite app_nil_r. split; [done|].
    split; [apply extends_refl|]. split; [done|]. split; constructor.
  - apply Forall_cons in Hbs as [Hb Hbs].
    rewrite filter_cons. cbn [omap list_omap].
    destruct (entryPeer h entry) as [[sd form]|] eqn:He.
    2: { rewrite (capture_skip origin h hi) by done.
         rewrite decide_False by (by intros [? ?]). by apply IH. }
    rewrite decide_True by (by eexists).
    rewrite (capture_keep origin h hi entry entries matching sd form) by done.
    cbv zeta.
    pose proof (closed_get_prop h entry "having" Hcl) as Hbh.
    set (hv := get_prop h entry "having") in *.
    set (chosen := if truthy hv && _ then _ else _).
    assert (Hch : extends hi chosen.2
                  /\ wellFormedPeer origin chosen.2 (mkPeer origin sd form chosen.1)
                  /\ capturedAs origin h chosen.2 entry (mkPeer origin sd form chosen.1)).
    { subst chosen. unfold capturedAs. cbn [peer_side peer_form peer_origin peer_having].
      fold hv. destruct (truthy hv && bool_decide (typeof h hv = TObject)) eqn:Hobj;
        cbn [fst snd].
      - apply andb_prop in Hobj as [Ht Hty]. apply bool_decide_eq_true in Hty.
        split; [apply extends_refl|]. split; [|done].
        repeat split; cbn; try done.
        + by rewrite (extends_typeof h hi).
        + by eapply extends_bound.
      - split; [by eexists|]. split.
        + repeat split; cbn.
          * by rewrite lookup_alloc_new.
          * rewrite length_app. cbn. lia.
        + split; [done|]. split; [done|]. exists (length hi).
          split; [done|]. split; [by apply extends_length|].
          by rewrite lookup_alloc_new. }
    destruct chosen as [having h1]. cbn [fst snd] in *.
    destruct Hch as (Hext1 & Hwf & Hcap).
    destruct (IH (matching ++ [mkPeer origin sd form having]) h1 Hcl
                 (extends_trans _ _ _ Hext Hext1) Hbs)
      as (news & h' & Heq & Hext' & Hmap & Hcaps & Hall).
    exists (mkPeer origin sd form having :: news), h'.
    split; [by rewrite Heq, <- app_assoc|]. split; [by eapply extends_trans|].
    split; [by rewrite fmap_cons, Hmap|]. split.
    + constructor; [|done]. by eapply capturedAs_extends.
    + constructor; [|done]. by eapply wellFormedPeer_extends.
Qed.

End CaptureFacts.

(** X22: what [getRequest] captures from a capability list.  The entries
    that are falsy, whose side is not one of the two side names or whose
    form is not a string are dropped without error; the others are kept in
    order, each as a peer option with its side and form and the sender's
    origin.  The [having] of a captured option is the entry's own when
    that is an object (not null, no function), and otherwise an empty
    object that was not in the store before; in both cases it is a truthy
    object.  The store is only extended. *)
Theorem X22_capture_keeps_the_valid_entries :
  forall (h : heap) (origin : string) (entries : list value),
    closed h -> Forall (bound h) entries ->
    let r := Listener.capturePeers origin entries [] h in
    (fun p => (peer_side p, peer_form p)) <$> r.1 = omap (entryPeer h) entries
    /\ Forall2 (capturedAs origin h r.2)
               (filter (fun e => is_Some (entryPeer h e)) entries) r.1
    /\ Forall (fun p => truthy (peer_having p) = true
                        /\ typeof r.2 (peer_having p) = TObject) r.1
    /\ extends h r.2.
Proof.
  intros h origin entries Hcl Hbs r.
  destruct (capture_spec origin h entries [] h Hcl (extends_refl h) Hbs)
    as (news & h' & Heq & Hext & Hmap & Hcaps & Hall).
  subst r. rewrite Heq. cbn [app fst snd]. split; [done|]. split; [done|].
  split; [|done].
  eapply Forall_impl; [exact Hall|]. intros p (H1 & H2 & H3 & _). done.
Qed.

Lemma X22_capture_keeps_the_valid_entries_witness :
  let h := [Obj KObject {["side" := VStr "offering"; "form" := VStr "text";
                          "having" := VNum 3]};
            Obj KObject {["side" := VStr "both"; "form" := VStr "text"]};
            Obj KObject {["side" := VStr "accepting"; "form" := VNum 1]};
            Obj KObject {["side" := VStr "accepting"; "form" := VStr "image";
                          "having" := VRef 4%nat]};
            Obj KObject {["width" := VNum 640]}] in
  let entries := [VNull; VRef 0%nat; VRef 1%nat; VStr "x"; VRef 2%nat; VRef 3%nat] in
  let r := Listener.capturePeers "https://client.example" entries [] h in
  closed h /\ Forall (bound h) entries
  /\ r.1 = [mkPeer "https://client.example" offering "text" (VRef 5%nat);
            mkPeer "https://client.example" accepting "image" (VRef 4%nat)]
  /\ Forall2 (capturedAs "https://client.example" h r.2) [VRef 0%nat; VRef 3%nat] r.1.
Proof.
  cbv zeta.
  assert (Hcl : closed [Obj KObject {["side" := VStr "offering"; "form" := VStr "text";
                                      "having" := VNum 3]};
                        Obj KObject {["side" := VStr "both"; "form" := VStr "text"]};
                        Obj KObject {["side" := VStr "accepting"; "form" := VNum 1]};
                        Obj KObject {["side" := VStr "accepting"; "form" := VStr "image";
                                      "having" := VRef 4%nat]};
                        Obj KObject {["width" := VNum 640]}]).
  { apply (bool_decide_unpack _). vm_compute. exact I. }
  assert (Hbs : Forall (bound [Obj KObject {["side" := VStr "offering"; "form" := VStr "text";
                                            "having" := VNum 3]};
                               Obj KObject {["side" := VStr "both"; "form" := VStr "text"]};
                               Obj KObject {["side" := VStr "accepting"; "form" := VNum 1]};
                               Obj KObject {["side" := VStr "accepting"; "form" := VStr "image";
                                             "having" := VRef 4%nat]};
                               Obj KObject {["width" := VNum 640]}])
                       [VNull; VRef 0%nat; VRef 1%nat; VStr "x"; VRef 2%nat; VRef 3%nat]).
  { repeat constructor; cbn; lia. }
  split; [exact Hcl|]. split; [exact Hbs|].
  destruct (X22_capture_keeps_the_valid_entries _ "https://client.example" _ Hcl Hbs)
    as (_ & H2 & _).
  split; [vm_compute; reflexivity|]. exact H2.
Defined.

Section Agreement.

Import ModalService ModalRequest.

Lemma matcher_agreement reqCats peers svcCats origin S peer :
  Forall2 (mirrors origin) peers reqCats ->
  matchOf (scanCats svcCats peers) = Some (S, peer) ->
  exists c,
    matchCat reqCats (cat_side S) (cat_form S) = Some c
    /\ c ∈ reqCats
    /\ cat_side c = peer_side peer /\ cat_form c = peer_form peer.
Proof.
  intros Hm Hmatch. rewrite scanCats_lastEligible in Hmatch.
  unfold lastEligible in Hmatch. apply last_Some_elem_of in Hmatch.
  apply list_elem_of_filter in Hmatch as [[Hside Hform] Hin]. cbn in Hside, Hform.
  apply elem_of_traversal in Hin as [_ Hin].
  apply list_elem_of_lookup in Hin as [i Hi].
  destruct (Forall2_lookup_l _ _ _ _ _ Hm Hi) as (c0 & Hc0 & Hs0 & Hf0 & _).
  set (q := mkPeer origin (cat_side S) (cat_form S) VNull).
  pose proof (matchCat_from reqCats q None) as Hfrom.
  change (fold_left (pick (peer_side q) (peer_form q)) reqCats None)
    with (matchCat reqCats (cat_side S) (cat_form S)) in Hfrom.
  destruct (last (filter (fun cat => eligible cat q) reqCats)) as [c|] eqn:Hlast.
  - apply last_Some_elem_of in Hlast.
    apply list_elem_of_filter in Hlast as [[Hsc Hfc] Hcin]. cbn in Hsc, Hfc.
    exists c. split; [done|]. split; [done|]. split; [|congruence].
    destruct (cat_side c), (cat_side S), (peer_side peer); congruence.
  - exfalso. apply last_None in Hlast.
    eapply (filter_nil_not_elem_of _ _ c0); [exact Hlast| |by eapply list_elem_of_lookup_2].
    split; cbn; congruence.
Qed.

Lemma parseConnect_connectMessage h sd form origin having p0 p1 :
  bound h having ->
  parseConnect (Wire.connectMessage sd form having h).2 origin
               (Wire.connectMessage sd form having h).1 [p0; p1]
  = if bool_decide (typeof h having = TObject)
    then Ok (mkPeer origin sd form having, p0, p1)
    else Throw InvalidConnectMessage.
Proof.
  intros Hb. unfold Wire.connectMessage. cbn [alloc fst snd].
  unfold parseConnect. cbn [array_elems].
  rewrite lookup_alloc_new. cbn [lookup list_lookup from_option id].
  rewrite bool_decide_eq_true_2 by done. cbn [negb].
  rewrite parseSide_sideName.
  rewrite (extends_typeof h (h ++ _) having); [done | by eexists | done].
Qed.

Lemma closed_contents h l o :
  closed h -> h !! l = Some o -> Forall (bound h) (contents o).
Proof.
  intros Hcl Ho. pose proof (Forall_lookup_1 _ _ _ _ Hcl Ho) as [Hprops Hes].
  unfold contents. apply Forall_app. split.
  - apply Forall_fmap. apply map_Forall_to_list in Hprops.
    eapply Forall_impl; [exact Hprops|]. by intros [k v].
  - by destruct (okind o).
Qed.

(** What is reached from an object of a closed store lies in that store:
    objects added later do not matter. *)
Lemma noFunction_extends d h tl l :
  closed h -> (l < length h)%nat -> noFunction d (h ++ tl) l = noFunction d h l.
Proof.
  intros Hcl. revert l. induction d as [|d IH]; intros l Hl; cbn [noFunction];
    rewrite lookup_app_l by done; destruct (h !! l) as [o|] eqn:Ho; try done.
  destruct (okind o); try done.
  all: pose proof (closed_contents h l o Hcl Ho) as Hb;
    induction Hb as [|v vs Hv _ IHvs]; [done|]; cbn [forallb]; rewrite IHvs;
    f_equal; destruct v; try done; by apply IH.
Qed.

Lemma cloneable_connectMessage h sd form having :
  closed h -> bound h having ->
  cloneable (Wire.connectMessage sd form having h).2
            (Wire.connectMessage sd form having h).1
  = cloneable h having.
Proof.
  intros Hcl Hb. unfold Wire.connectMessage. cbn [alloc fst snd cloneable].
  rewrite length_app. cbn [length]. replace (length h + 1)%nat with (S (length h)) by lia.
  cbn [noFunction]. rewrite lookup_alloc_new. cbn [okind].
  unfold contents. cbn [okind oprops]. rewrite map_to_list_empty.
  cbn [fmap list_fmap app forallb andb].
  rewrite andb_true_r. destruct having as [| | | | |l]; try done.
  by apply noFunction_extends.
Qed.

End Agreement.

(** X23: the connect message survives the handshake.  With the connect
    port set and two distinct ports other than the connect port to hand
    over, [connectDirectly] posts the message when [having] can be
    cloned; the requester's validation then accepts it exactly when
    [having] is an object, giving back the same side, form and having,
    and refuses it as InvalidConnectMessage otherwise.  When [having]
    cannot be cloned (a function, or an object that leads to one) nothing
    is posted: [connectDirectly] throws a DataCloneError. *)
Theorem X23_connect_message_round_trip :
  forall (s : Listener.t) (h : heap) (sd : side) (form origin : string)
         (having : value) (p0 p1 cp : port),
    Listener.connectPort s = Some cp ->
    closed h -> bound h having ->
    p0 <> p1 -> cp <> p0 -> cp <> p1 ->
    if cloneable h having then
      exists msg h',
        Listener.connectDirectly sd form having p0 p1 s h = Ok (msg, [p0; p1], h')
        /\ ModalRequest.parseConnect h' origin msg [p0; p1]
           = if bool_decide (typeof h having = TObject)
             then Ok (mkPeer origin sd form having, p0, p1)
             else Throw InvalidConnectMessage
    else
      Listener.connectDirectly sd form having p0 p1 s h = Throw DataCloneError.
Proof.
  intros s h sd form origin having p0 p1 cp Hcp Hcl Hb H01 Hc0 Hc1.
  pose proof (parseConnect_connectMessage h sd form origin having p0 p1 Hb) as Hparse.
  pose proof (cloneable_connectMessage h sd form having Hcl Hb) as Hclone.
  unfold Listener.connectDirectly, postable. rewrite Hcp.
  destruct (Wire.connectMessage sd form having h) as [msg h']. cbn [fst snd] in *.
  rewrite Hclone.
  assert (Hnd : bool_decide (NoDup [p0; p1]) = true).
  { apply bool_decide_eq_true. apply NoDup_cons. split; [|apply NoDup_singleton].
    rewrite not_elem_of_cons. split; [done | apply not_elem_of_nil]. }
  assert (Hnotin : bool_decide (cp ∉ [p0; p1]) = true).
  { apply bool_decide_eq_true. rewrite !not_elem_of_cons.
    split; [done|]. split; [done | apply not_elem_of_nil]. }
  rewrite Hnd, Hnotin. destruct (cloneable h having); cbn [andb]; [|done].
  by exists msg, h'.
Qed.

Lemma X23_connect_message_round_trip_witness :
  let h := [Obj KObject ∅] in
  let s := Listener.mk (Some []) (Some 4%nat) (Some ∅) 0 ∅ 1 in
  exists msg h',
    Listener.connectDirectly offering "text" (VRef 0%nat) 10%nat 11%nat s h
    = Ok (msg, [10; 11]%nat, h')
    /\ ModalRequest.parseConnect h' "https://service.example" msg [10; 11]%nat
       = Ok (mkPeer "https://service.example" offering "text" (VRef 0%nat),
             10%nat, 11%nat).
Proof.
  exact (X23_connect_message_round_trip
           (Listener.mk (Some []) (Some 4%nat) (Some ∅) 0 ∅ 1) [Obj KObject ∅]
           offering "text" "https://service.example" (VRef 0%nat) 10%nat 11%nat 4%nat
           eq_refl ltac:(apply (bool_decide_unpack _); vm_compute; exact I)
           ltac:(cbn; lia) ltac:(discriminate) ltac:(discriminate)
           ltac:(discriminate)).
Defined.

(** A [having] that holds a function is not sent: the object at 0 has a
    function as its property [render]. *)
Example connect_with_a_function_is_not_posted :
  let h := [Obj KObject {["render" := VRef 1%nat]}; Obj KFunction ∅] in
  let s := Listener.mk (Some []) (Some 4%nat) (Some ∅) 0 ∅ 1 in
  typeof h (VRef 0%nat) = TObject
  /\ Listener.connectDirectly offering "text" (VRef 0%nat) 10%nat 11%nat s h
     = Throw DataCloneError.
Proof. vm_compute. split; reflexivity. Qed.

(** X24: the two sides agree.  Let the service's peer options mirror the
    requester's Cats, and let the service's matching choose the Cat [S]
    with the peer option [peer].  When the requester then receives the
    connect message for [S] (with an object as [having], on a session that
    has not connected), it does not fail: it finds a matching Cat of its
    own, which has exactly the side and form of [peer]; it takes the two
    ports and starts that Cat's connect, and [open] stays as it was. *)
Theorem X24_both_sides_agree :
  forall (h : heap) (z : ModalRequest.ZImpl) (peers : list PeerIntent)
         (svcCats : list Cat) (S : Cat) (peer : PeerIntent)
         (clientOrigin origin : string) (p0 p1 : port),
    Forall2 (mirrors clientOrigin) peers (ModalRequest.cats z) ->
    ModalService.matchOf (ModalService.scanCats svcCats peers) = Some (S, peer) ->
    bound h (cat_having S) -> typeof h (cat_having S) = TObject ->
    ModalRequest.exchangePort z = None ->
    let mh := Wire.connectMessage (cat_side S) (cat_form S) (cat_having S) h in
    let z' := ModalRequest.step mh.2 z (ModalRequest.Connect origin mh.1 [p0; p1]) in
    exists c,
      ModalRequest.connected z'
      = Some (c, mkPeer origin (cat_side S) (cat_form S) (cat_having S))
      /\ c ∈ ModalRequest.cats z
      /\ cat_side c = peer_side peer /\ cat_form c = peer_form peer
      /\ ModalRequest.exchangePort z' = Some p0
      /\ ModalRequest.statusPort z' = Some p1
      /\ ModalRequest.state z' = ModalRequest.state z
      /\ ModalRequest.openPromise z' = ModalRequest.openPromise z.
Proof.
  intros h z peers svcCats S peer clientOrigin origin p0 p1 Hm Hmatch Hb Hty Hx mh z'.
  destruct (matcher_agreement _ _ _ _ _ _ Hm Hmatch) as (c & Hc & Hin & Hs & Hf).
  pose proof (parseConnect_connectMessage h (cat_side S) (cat_form S) origin (cat_having S) p0 p1 Hb) as Hparse.
  rewrite bool_decide_eq_true_2 in Hparse by done. fold mh in Hparse.
  subst z'. cbn [ModalRequest.step]. unfold ModalRequest.onConnect.
  rewrite Hx, Hparse. cbn [mbind result_bind peer_side peer_form]. rewrite Hc.
  exists c. cbn. done.
Qed.

Lemma X24_both_sides_agree_witness :
  let h := [Obj KObject ∅] in
  let mine := mkCat accepting "text" (VRef 0%nat) (PerformRecv (VRef 0%nat)) in
  let other := mkCat offering "image" (VRef 0%nat) (PerformSend (VRef 0%nat)) in
  let z := ModalRequest.mkZ ModalRequest.open Pending false [other; mine]
             None None None true true true ModalRequest.OverlayUnset false true [] [] in
  let S := mkCat offering "text" (VRef 0%nat) (PerformSend (VRef 0%nat)) in
  let mh := Wire.connectMessage offering "text" (VRef 0%nat) h in
  let z' := ModalRequest.step mh.2 z
              (ModalRequest.Connect "https://service.example" mh.1 [10; 11]%nat) in
  exists c,
    ModalRequest.connected z'
    = Some (c, mkPeer "https://service.example" offering "text" (VRef 0%nat))
    /\ c ∈ ModalRequest.cats z
    /\ cat_side c = accepting /\ cat_form c = "text"
    /\ ModalRequest.exchangePort z' = Some 10%nat
    /\ ModalRequest.statusPort z' = Some 11%nat
    /\ ModalRequest.state z' = ModalRequest.open
    /\ ModalRequest.openPromise z' = Pending.
Proof.
  cbv zeta.
  refine (X24_both_sides_agree [Obj KObject ∅]
            (ModalRequest.mkZ ModalRequest.open Pending false
               [mkCat offering "image" (VRef 0%nat) (PerformSend (VRef 0%nat));
                mkCat accepting "text" (VRef 0%nat) (PerformRecv (VRef 0%nat))]
               None None None true true true ModalRequest.OverlayUnset false true [] [])
            [mkPeer "https://client.example" offering "image" (VRef 0%nat);
             mkPeer "https://client.example" accepting "text" (VRef 0%nat)]
            [mkCat offering "text" (VRef 0%nat) (PerformSend (VRef 0%nat))]
            (mkCat offering "text" (VRef 0%nat) (PerformSend (VRef 0%nat)))
            (mkPeer "https://client.example" accepting "text" (VRef 0%nat))
            "https://client.example" "https://service.example" 10%nat 11%nat
            _ _ _ _ eq_refl).
  - repeat constructor.
  - vm_compute. reflexivity.
  - cbn. lia.
  - reflexivity.
Defined.

Section HandshakeFacts.

Import ModalRequest Handshake.

Implicit Types (s : Handshake.t) (h : heap) (m : message).

(** The five ways the message listener can go. *)
Lemma onMessage_cases m s h :
  onMessage m s h = (s, h)
  \/ onMessage m s h = (withZ s (x None (z s)), h)
  \/ (fromPopup m = true /\ origin m = serviceOrigin s
      /\ ((exists e, onMessage m s h = (withZ s (x (Some (RError e)) (z s)), h))
          \/ (exists o, onMessage m s h = (mk (z s) o (requests s), h))
          \/ onMessage m s h
             = (mk (z s) (serviceOrigin s)
                   (requests s ++ [(serviceOrigin s, (Wire.requestMessage (cats (z s)) h).1)]),
                (Wire.requestMessage (cats (z s)) h).2))).
Proof.
  unfold onMessage, onCrossDocumentMessage.
  destruct (array_elems h _) as [elems|]; [|by left].
  case_bool_decide as Hclose.
  { destruct (fromPopup m || popupClosed m); [right; by left | by left]. }
  destruct (fromPopup m) eqn:Hfp; cbn [negb orb]; [|by left].
  case_bool_decide as Ho; cbn [negb]; [|by left].
  right; right. split; [done|]. split; [done|].
  case_bool_decide as Hco.
  { destruct (default VUndefined (elems !! 1%nat)); try (left; by exists MissingOrigin).
    right; left. by eexists. }
  case_bool_decide as Hgr; cbn [negb]; [|left; by exists UnrecognizedMessage].
  rewrite <- Ho.
  destruct (Wire.requestMessage (cats (z s)) h) as [msg h']. cbn [fst snd].
  destruct (cloneable h' msg); [by right; right | left; by exists DataCloneError].
Qed.

Lemma onStatusPort_inert data s h : (onStatusPort data s h).1 = s.
Proof.
  unfold onStatusPort. destruct (statusPort (z s)); [|done].
  cbn [alloc fst]. unfold onStatusMessage, isArray. cbn [array_elems].
  rewrite lookup_alloc_new. cbn [andb okind]. by destruct s.
Qed.

Lemma x_closingOnlyAtEnd rejectWith zz : closingOnlyAtEnd (x rejectWith zz).
Proof. intros _. apply x_complete. Qed.

Lemma session_closingOnlyAtEnd h zz ev :
  closingOnlyAtEnd zz -> closingOnlyAtEnd (ModalRequest.step h zz ev).
Proof.
  intros Hz. destruct ev as [o data ports|v|r| |rejectWith]; cbn [ModalRequest.step];
    try apply x_closingOnlyAtEnd.
  - destruct (onConnect h o data ports zz) as [z'|e] eqn:Hc; [|apply x_closingOnlyAtEnd].
    apply onConnect_fields in Hc as (Hst & _ & Hcl & _).
    unfold closingOnlyAtEnd. by rewrite Hst, Hcl.
  - destruct (connected zz) as [[c p]|]; [|done]. by destruct (statusPort zz).
Qed.

Lemma handshake_step_closing sh ev :
  closingOnlyAtEnd (z sh.1) -> closingOnlyAtEnd (z (Handshake.step sh ev).1).
Proof.
  intros Hz. destruct sh as [s h]. destruct ev as [m|detail|data|ev]; cbn [Handshake.step fst snd].
  - destruct (onMessage_cases m s h) as [->|[->|(_ & _ & [[e ->]|[[o ->]| ->]])]];
      cbn [fst z withZ]; first [done | apply x_closingOnlyAtEnd].
  - done.
  - by rewrite onStatusPort_inert.
  - cbn [z withZ]. by apply session_closingOnlyAtEnd.
Qed.

Lemma handshake_step_requests sh ev :
  requests (Handshake.step sh ev).1 = requests sh.1
  \/ exists om, requests (Handshake.step sh ev).1 = requests sh.1 ++ [om] /\ postedAt sh om.
Proof.
  destruct sh as [s h]. destruct ev as [m|detail|data|ev]; cbn [Handshake.step fst snd].
  - destruct (onMessage_cases m s h) as [->|[->|(_ & _ & [[e ->]|[[o ->]| ->]])]];
      cbn [fst requests withZ]; try by left.
    right. eexists. split; [done|]. by split.
  - by left.
  - rewrite onStatusPort_inert. by left.
  - by left.
Qed.

Lemma handshake_run_app sh evs evs' :
  Handshake.run sh (evs ++ evs') = Handshake.run (Handshake.run sh evs) evs'.
Proof. apply fold_left_app. Qed.

End HandshakeFacts.

(** X25: a message the requester does not trust changes nothing it
    protects.  A cross-document message that does not come from the popup,
    or whose origin is not the current service origin, never changes the
    service origin, never gets the capability list posted, never allocates
    and never raises an error; the most it can do (as a 'close' message)
    is end the session the way closing the popup does, without a
    rejection reason. *)
Theorem X25_untrusted_message_is_ignored :
  forall (m : Handshake.message) (s : Handshake.t) (h : heap),
    Handshake.fromPopup m = false \/ Handshake.origin m <> Handshake.serviceOrigin s ->
    let r := Handshake.onMessage m s h in
    Handshake.serviceOrigin r.1 = Handshake.serviceOrigin s
    /\ Handshake.requests r.1 = Handshake.requests s
    /\ r.2 = h
    /\ (Handshake.z r.1 = Handshake.z s
        \/ Handshake.z r.1 = ModalRequest.x None (Handshake.z s)).
Proof.
  intros m s h Hun r. subst r.
  destruct (onMessage_cases m s h) as [->|[->|(Hfp & Ho & _)]]; cbn.
  - repeat split; by left.
  - repeat split; by right.
  - destruct Hun as [Hun|Hun]; congruence.
Qed.

Lemma X25_untrusted_message_is_ignored_witness :
  let h := [Obj KObject {[Wire.ServiceMessage := VRef 1%nat]};
            Obj (KArray [VStr "get-request"]) ∅] in
  let s := Handshake.mk
             (ModalRequest.mkZ ModalRequest.open Pending false
                [mkCat accepting "text" VNull (PerformRecv VNull)]
                None None None true true true ModalRequest.OverlayUnset false true [] [])
             "https://service.example" [] in
  let m := Handshake.mkMessage true false (VRef 0%nat) "https://other.example" in
  let r := Handshake.onMessage m s h in
  Handshake.serviceOrigin r.1 = "https://service.example"
  /\ Handshake.requests r.1 = []
  /\ r.2 = h
  /\ (Handshake.z r.1 = Handshake.z s
      \/ Handshake.z r.1 = ModalRequest.x None (Handshake.z s)).
Proof.
  cbv zeta.
  refine (X25_untrusted_message_is_ignored
            (Handshake.mkMessage true false (VRef 0%nat) "https://other.example")
            (Handshake.mk
               (ModalRequest.mkZ ModalRequest.open Pending false
                  [mkCat accepting "text" VNull (PerformRecv VNull)]
                  None None None true true true
                  ModalRequest.OverlayUnset false true [] [])
               "https://service.example" [])
            [Obj KObject {[Wire.ServiceMessage := VRef 1%nat]};
             Obj (KArray [VStr "get-request"]) ∅] _).
  right. cbn. intros [=].
Defined.

(** X26: the capability list goes to the service origin only.  Over any
    sequence of messages, location changes, status messages and session
    events, every request message the requester has posted to the popup
    was posted, at some moment of that sequence, with the service origin
    of that moment as its target origin, and it lists the Cats the session
    had then. *)
Theorem X26_capability_list_goes_to_the_service_origin :
  forall (s : Handshake.t) (h : heap) (evs : list Handshake.event),
    Forall (fun om =>
              om ∈ Handshake.requests s
              \/ exists pre, pre `prefix_of` evs
                   /\ postedAt (Handshake.run (s, h) pre) om)
           (Handshake.requests (Handshake.run (s, h) evs).1).
Proof.
  intros s h evs. induction evs as [|ev evs IH] using rev_ind.
  - apply Forall_forall. intros om Hin. by left.
  - rewrite handshake_run_app. cbn [Handshake.run fold_left].
    change (fold_left Handshake.step evs (s, h)) with (Handshake.run (s, h) evs).
    assert (Hold : Forall (fun om =>
              om ∈ Handshake.requests s
              \/ exists pre, pre `prefix_of` (evs ++ [ev])
                   /\ postedAt (Handshake.run (s, h) pre) om)
              (Handshake.requests (Handshake.run (s, h) evs).1)).
    { eapply Forall_impl; [exact IH|]. intros om [Hin|(pre & Hpre & Hp)]; [by left|].
      right. exists pre. split; [|done]. by apply prefix_app_r. }
    destruct (handshake_step_requests (Handshake.run (s, h) evs) ev) as [->|(om & -> & Hp)];
      [done|].
    apply Forall_app. split; [done|]. constructor; [|constructor].
    right. exists evs. split; [|done]. by apply prefix_app_r.
Qed.

(** X27: the requester's status port does nothing.  Whatever arrives on
    the status port of a requester session, the ['done'] of the service
    included, the session is left exactly as it was: the handler tests
    whether the event object is an array, which it never is, so the
    closing promise is not resolved by it. *)
Theorem X27_requester_status_port_is_inert :
  forall (s : Handshake.t) (h : heap) (data : value),
    (Handshake.step (s, h) (Handshake.Status data)).1 = s.
Proof. intros s h data. cbn [Handshake.step fst snd]. apply onStatusPort_inert. Qed.

(** X28: the requester's closing signal fires only at the end.  If the
    closing promise of a session is unresolved unless the session is
    complete, this stays so over every sequence of messages, location
    changes, status messages and session events: a connector is told that
    the exchange is closing only when the session has been completed. *)
Theorem X28_closing_signal_only_at_completion :
  forall (s : Handshake.t) (h : heap) (evs : list Handshake.event),
    closingOnlyAtEnd (Handshake.z s) ->
    closingOnlyAtEnd (Handshake.z (Handshake.run (s, h) evs).1).
Proof.
  intros s h evs. change s with ((s, h).1) at 1. generalize (s, h). clear s h.
  induction evs as [|ev evs IH]; intros sh Hz; [done|].
  cbn [Handshake.run fold_left]. apply IH. by apply handshake_step_closing.
Qed.

Lemma X28_closing_signal_only_at_completion_witness :
  let h := [Obj (KArray [VStr "done"]) ∅] in
  let s := Handshake.mk
             (ModalRequest.mkZ ModalRequest.open Pending false
                [mkCat accepting "text" VNull (PerformRecv VNull)]
                (Some 10%nat) (Some 11%nat)
                (Some (mkCat accepting "text" VNull (PerformRecv VNull),
                       mkPeer "https://service.example" offering "text" VNull))
                true true true ModalRequest.OverlayUnset false true [] [])
             "https://service.example" [] in
  closingOnlyAtEnd (Handshake.z s)
  /\ closingOnlyAtEnd
       (Handshake.z (Handshake.run (s, h) [Handshake.Status (VRef 0%nat)]).1)
  /\ ModalRequest.closingResolved
       (Handshake.z (Handshake.run (s, h) [Handshake.Status (VRef 0%nat)]).1) = false.
Proof.
  cbv zeta. split; [intros [=]|]. split; [|vm_compute; reflexivity].
  apply (X28_closing_signal_only_at_completion
           (Handshake.mk
             (ModalRequest.mkZ ModalRequest.open Pending false
                [mkCat accepting "text" VNull (PerformRecv VNull)]
                (Some 10%nat) (Some 11%nat)
                (Some (mkCat accepting "text" VNull (PerformRecv VNull),
                       mkPeer "https://service.example" offering "text" VNull))
                true true true ModalRequest.OverlayUnset false true [] [])
             "https://service.example" [])
           [Obj (KArray [VStr "done"]) ∅] [Handshake.Status (VRef 0%nat)]).
  intros [=].
Defined.

Section ServiceExchangeFacts.

Import ServiceExchange.

Implicit Types (s : ServiceExchange.t) (h : heap).

Lemma svc_step_peer h s ev : peer (step h s ev) = peer s.
Proof. destruct ev; cbn; [by destruct (isDone h data)|done..]. Qed.

Lemma svc_step_settled h s ev : outcome s <> Pending -> outcome (step h s ev) = outcome s.
Proof.
  intros Hs. destruct ev; cbn; [by destruct (isDone h data)|done|..];
    by destruct (outcome s).
Qed.

Lemma svc_run_settled h evs : forall s,
  outcome s <> Pending -> outcome (run h s evs) = outcome s.
Proof.
  induction evs as [|ev evs IH]; intros s Hs; [done|].
  cbn [run fold_left]. change (fold_left (step h) evs (step h s ev)) with (run h (step h s ev) evs).
  rewrite IH; rewrite svc_step_settled; done.
Qed.

Lemma svc_run_first h evs : forall s,
  outcome s = Pending -> outcome (run h s evs) = firstSettlement (peer s) evs.
Proof.
  induction evs as [|ev evs IH]; intros s Hs; [done|].
  cbn [run fold_left]. change (fold_left (step h) evs (step h s ev)) with (run h (step h s ev) evs).
  destruct ev as [data| |v|r]; cbn [firstSettlement].
  - rewrite IH, svc_step_peer; [done|]. cbn. by destruct (isDone h data).
  - rewrite IH; done.
  - rewrite svc_run_settled; cbn; rewrite Hs; done.
  - rewrite svc_run_settled; cbn; rewrite Hs; done.
Qed.

Lemma svc_step_cleanedUp h s ev :
  (outcome s <> Pending \/ closing s = true -> cleanedUp s) ->
  outcome (step h s ev) <> Pending \/ closing (step h s ev) = true ->
  cleanedUp (step h s ev).
Proof.
  intros Hinv. destruct ev as [data| |v|r]; cbn [step].
  - destruct (isDone h data); [|done]. intros _. repeat split; cbn; lia.
  - intros _. repeat split; cbn; lia.
  - intros _. repeat split; cbn; lia.
  - intros _. repeat split; cbn; lia.
Qed.

Lemma svc_run_cleanedUp h evs : forall s,
  (outcome s <> Pending \/ closing s = true -> cleanedUp s) ->
  outcome (run h s evs) <> Pending \/ closing (run h s evs) = true ->
  cleanedUp (run h s evs).
Proof.
  induction evs as [|ev evs IH]; intros s Hinv; [done|].
  cbn [run fold_left]. apply IH. by apply svc_step_cleanedUp.
Qed.

End ServiceExchangeFacts.

(** X29: the service cleans up whenever an exchange is over.  From the
    moment [openRequest] has started the connector, along any sequence of
    status messages, pagehide events and settlements of the connector's
    promise: as soon as the request's outcome is settled or the closing
    signal has been given, the service has closed its ends of the exchange
    and status channels and has posted ['done'] to the requester.  This
    covers a connector that throws at once. *)
Theorem X29_service_cleans_up :
  forall (h : heap) (peer : PeerIntent) (threw : option reason)
         (evs : list ServiceExchange.event),
    let s := ServiceExchange.run h (ServiceExchange.start peer threw) evs in
    ServiceExchange.outcome s <> Pending \/ ServiceExchange.closing s = true ->
    cleanedUp s.
Proof.
  intros h peer threw evs s. subst s. apply svc_run_cleanedUp.
  destruct threw as [e|]; cbn.
  - intros _. repeat split; cbn; lia.
  - intros [H|H]; done.
Qed.

Lemma X29_service_cleans_up_witness :
  let h := [Obj (KArray [VStr "done"]) ∅] in
  let peer := mkPeer "https://client.example" accepting "text" VNull in
  let s := ServiceExchange.run h (ServiceExchange.start peer None)
             [ServiceExchange.StatusMessage (VRef 0%nat)] in
  (ServiceExchange.outcome s <> Pending \/ ServiceExchange.closing s = true)
  /\ cleanedUp s.
Proof.
  cbv zeta.
  assert (Hc : ServiceExchange.outcome
                 (ServiceExchange.run [Obj (KArray [VStr "done"]) ∅]
                    (ServiceExchange.start
                       (mkPeer "https://client.example" accepting "text" VNull) None)
                    [ServiceExchange.StatusMessage (VRef 0%nat)]) <> Pending
               \/ ServiceExchange.closing
                    (ServiceExchange.run [Obj (KArray [VStr "done"]) ∅]
                       (ServiceExchange.start
                          (mkPeer "https://client.example" accepting "text" VNull) None)
                       [ServiceExchange.StatusMessage (VRef 0%nat)]) = true).
  { right. vm_compute. reflexivity. }
  split; [exact Hc|].
  exact (X29_service_cleans_up [Obj (KArray [VStr "done"]) ∅]
           (mkPeer "https://client.example" accepting "text" VNull) None
           [ServiceExchange.StatusMessage (VRef 0%nat)] Hc).
Defined.

(** X30: only the connector settles the service's request.  When the
    connector did not throw, the promise [openRequest] returned is settled
    by the first settlement of the connector's promise and by nothing
    else: it resolves with the chosen peer and the connector's value, or
    rejects with the connector's reason; status messages and pagehide
    leave it pending, and later events do not change it. *)
Theorem X30_service_outcome_is_the_connectors :
  forall (h : heap) (peer : PeerIntent) (evs : list ServiceExchange.event),
    ServiceExchange.outcome (ServiceExchange.run h (ServiceExchange.start peer None) evs)
    = firstSettlement peer evs.
Proof. intros h peer evs. by rewrite svc_run_first. Qed.
